(** * microbundle: configuration synthesis

    A shallow embedding of the two source files of the repository,

    - [src/lib/babel-custom.js]: the Babel hooks ([options] and [config])
      with [mergeConfigItems] and [createConfigItems];
    - [src/index.js]: [microbundle] (manifest, entries, formats, steps) and
      [createConfig];

    together with the library functions they call, modelled as far as the
    code exercises them:

    - lodash [merge], after the library's [baseMerge], [baseMergeDeep] and
      [assignMergeValue], over plain data (module [Lodash]);
    - JavaScript regular expressions, by a backtracking matcher over the
      constructs the patterns of the sources use (module [Regex]);
    - Node's posix [path]: [resolve], [dirname], [basename] (module [Path]);
    - [Array.prototype.sort], as the insertion sort of the engine of the
      time, and the [indexOf] filter (module [JsArray]);
    - [series] of asyncro, which runs the steps of a build: in sequence,
      as the specification has it (in module [Microbundle]).

    The filesystem, the process and the bundling engine are parameters of a
    run (records [FileSystem] and [World]); warnings and engine calls are
    events of a log. Code that can throw returns a [result]. The second
    half of the file states and proves the properties. *)

From Stdlib Require Import ZArith Lia Bool Ascii String List DecimalString.
From stdpp Require Import base option list sorting gmap strings.

Open Scope string_scope.
Open Scope list_scope.
#[local] Set Warnings "-register-all".

(* ===================================================================== *)
(** * JavaScript values *)
(* ===================================================================== *)

Module Js.

(** The option records of Babel items are plain data. Numbers are taken
    over the integers. [VOpaque] stands for an object that is neither an
    array nor a plain object and is not callable (a [RegExp], a [Date], a
    class instance): lodash hands such a value over by reference. Object
    properties keep their insertion order, as in JavaScript. *)
Inductive value : Type :=
| VUndefined
| VNull
| VBool (b : bool)
| VNum (n : Z)
| VStr (s : string)
| VOpaque (id : nat)
| VArr (elems : list value)
| VObj (props : list (string * value)).

Definition truthy (v : value) : bool :=
  match v with
  | VUndefined | VNull => false
  | VBool b => b
  | VNum n => negb (n =? 0)%Z
  | VStr s => negb (String.eqb s "")
  | VOpaque _ | VArr _ | VObj _ => true
  end.

(** [a || b] *)
Definition or_else (a b : value) : value := if truthy a then a else b.

Definition isUndefined (v : value) : bool :=
  match v with VUndefined => true | _ => false end.

Definition isNullish (v : value) : bool :=
  match v with VUndefined | VNull => true | _ => false end.

(** lodash [isObject]: the language type Object. *)
Definition isObject (v : value) : bool :=
  match v with VOpaque _ | VArr _ | VObj _ => true | _ => false end.

Definition isArray (v : value) : bool :=
  match v with VArr _ => true | _ => false end.

(** The property name of an array index, and back: only the canonical
    decimal spelling of a number names an index. *)
Definition index_key (i : nat) : string :=
  NilEmpty.string_of_uint (Nat.to_uint i).

Definition parse_index (key : string) : option nat :=
  match NilEmpty.uint_of_string key with
  | Some u =>
      let i := Nat.of_uint u in
      if String.eqb (index_key i) key then Some i else None
  | None => None
  end.

Fixpoint assoc (key : string) (props : list (string * value)) : option value :=
  match props with
  | [] => None
  | (k, v) :: rest => if String.eqb k key then Some v else assoc key rest
  end.

(** [obj[key] = v] on a plain object: an existing property keeps its
    place, a new one goes last. *)
Fixpoint assoc_set (key : string) (v : value) (props : list (string * value))
  : list (string * value) :=
  match props with
  | [] => [(key, v)]
  | (k, w) :: rest =>
      if String.eqb k key then (k, v) :: rest else (k, w) :: assoc_set key v rest
  end.

(** [arr[i] = v]: past the end the array grows, the gap reading as
    [undefined]. *)
Definition arr_set (i : nat) (v : value) (elems : list value) : list value :=
  if (i <? length elems)%nat then <[i:=v]> elems
  else elems ++ replicate (i - length elems) VUndefined ++ [v].

(** [object[key]]. Arrays are their element lists: a named property of an
    array (or of an opaque object) is not represented and reads as
    [undefined]. *)
Definition get (object : value) (key : string) : value :=
  match object with
  | VObj props => default VUndefined (assoc key props)
  | VArr elems =>
      match parse_index key with
      | Some i => nth i elems VUndefined
      | None => VUndefined
      end
  | _ => VUndefined
  end.

(** [key in object] *)
Definition has (object : value) (key : string) : bool :=
  match object with
  | VObj props => bool_decide (is_Some (assoc key props))
  | VArr elems =>
      match parse_index key with
      | Some i => (i <? length elems)%nat
      | None => false
      end
  | _ => false
  end.

(** [object[key] = v] *)
Definition assign (object : value) (key : string) (v : value) : value :=
  match object with
  | VObj props => VObj (assoc_set key v props)
  | VArr elems =>
      match parse_index key with
      | Some i => VArr (arr_set i v elems)
      | None => object
      end
  | _ => object
  end.

(** The own enumerable properties a [for .. in] walk of lodash ([keysIn])
    visits, in order: the properties of a plain object, the indices of an
    array, the characters of a string; nothing for other values. *)
Fixpoint chars_from (i : nat) (s : string) : list (string * value) :=
  match s with
  | EmptyString => []
  | String c rest => (index_key i, VStr (String c EmptyString)) :: chars_from (S i) rest
  end.

Definition own (source : value) : list (string * value) :=
  match source with
  | VObj props => props
  | VArr elems => imap (fun i v => (index_key i, v)) elems
  | VStr s => chars_from 0 s
  | _ => []
  end.

End Js.

(* ===================================================================== *)
(** * lodash.merge *)
(* ===================================================================== *)

Module Lodash.
Import Js.

(** [assignMergeValue(object, key, value)]: an [undefined] value is only
    written where the key is missing. (The test [!eq(object[key], value)]
    of the original skips a write that would change nothing.) *)
Definition assignMergeValue (object : value) (key : string) (v : value) : value :=
  if isUndefined v && has object key then object else assign object key v.

(** [isArrayLikeObject]: an array, or an object with a length. *)
Definition MAX_SAFE_INTEGER : Z := 9007199254740991.

Definition arrayLikeLength (v : value) : option nat :=
  match v with
  | VArr elems => Some (length elems)
  | VObj props =>
      match assoc "length" props with
      | Some (VNum n) =>
          if (0 <=? n)%Z && (n <=? MAX_SAFE_INTEGER)%Z then Some (Z.to_nat n) else None
      | _ => None
      end
  | _ => None
  end.

(** [copyArray(source)] *)
Definition copyArray (source : value) (n : nat) : value :=
  VArr (map (fun i => get source (index_key i)) (seq 0 n)).

(** [baseMergeDeep(object, source, key, ..)] for a source value that is an
    object; [deep target] merges the source value into [target]. *)
Definition baseMergeDeep (object : value) (key : string) (srcValue : value)
    (deep : value -> value) : value :=
  let objValue := get object key in
  match srcValue with
  | VArr _ =>
      let newValue :=
        if isArray objValue then objValue
        else match arrayLikeLength objValue with
             | Some n => copyArray objValue n
             | None => VArr []
             end in
      assignMergeValue object key (deep newValue)
  | VObj _ =>
      let newValue := if isObject objValue then objValue else VObj [] in
      assignMergeValue object key (deep newValue)
  | _ => assignMergeValue object key srcValue
  end.

Definition mergeKey (key : string) (srcValue : value) (deep : value -> value)
    (object : value) : value :=
  if isObject srcValue then baseMergeDeep object key srcValue deep
  else assignMergeValue object key srcValue.

(** [baseMerge(object, source)]: every property of the source in turn. *)
Fixpoint baseMerge (object source : value) {struct source} : value :=
  match source with
  | VObj props =>
      (fix each (ps : list (string * value)) (object : value) : value :=
         match ps with
         | [] => object
         | (key, srcValue) :: rest =>
             each rest (mergeKey key srcValue (fun t => baseMerge t srcValue) object)
         end) props object
  | VArr elems =>
      (fix each (es : list value) (i : nat) (object : value) : value :=
         match es with
         | [] => object
         | srcValue :: rest =>
             each rest (S i)
               (mergeKey (index_key i) srcValue (fun t => baseMerge t srcValue) object)
         end) elems 0%nat object
  | VStr s =>
      fold_left (fun o kv => assignMergeValue o (fst kv) (snd kv)) (chars_from 0 s) object
  | _ => object
  end.

(** [Object(object)] at the head of [merge]: a missing target is a fresh
    object; the wrapper of a primitive is an opaque object. *)
Definition toObject (v : value) : value :=
  match v with
  | VUndefined | VNull => VObj []
  | VBool _ | VNum _ | VStr _ => VOpaque 0
  | _ => v
  end.

(** [merge(object, ...sources)]: falsy sources are skipped. *)
Definition merge (object : value) (sources : list value) : value :=
  fold_left (fun o source => if truthy source then baseMerge o source else o)
    sources (toObject object).

End Lodash.

(* ===================================================================== *)
(** * Results of code that can throw *)
(* ===================================================================== *)

Inductive error : Type :=
| TypeError (what : string)
| SyntaxError (what : string)
| EngineError (what : string).

Inductive result (A : Type) : Type :=
| Ok (a : A)
| Throw (e : error).
Arguments Ok {A} a.
Arguments Throw {A} e.

#[global] Instance result_bind : MBind result := fun A B k r =>
  match r with
  | Ok a => k a
  | Throw e => Throw e
  end.
#[global] Instance result_ret : MRet result := fun A a => Ok a.

(** [arr.map(f)] where [f] can throw: the first throw ends the walk. *)
Fixpoint mapR {A B} (f : A -> result B) (l : list A) : result (list B) :=
  match l with
  | [] => Ok []
  | x :: rest => y ← f x; ys ← mapR f rest; Ok (y :: ys)
  end.

(* ===================================================================== *)
(** * src/lib/babel-custom.js *)
(* ===================================================================== *)

Module BabelCustom.
Import Js Lodash.

Inductive itemType : Type := plugin | preset.

(** A Babel [ConfigItem], as far as the file reads it: [file.request],
    [file.resolved] and [options]; [type] is what [createConfigItem] was
    given. Option records are values: no two items share one record. *)
Record ConfigItem : Type := {
  file_request : string;
  file_resolved : string;
  options : value;
  type : itemType;
}.

(** [createConfigItem([path, options], { type })] of @babel/core at a path
    that is already resolved: resolving it again gives the path back. *)
Definition createConfigItem (path : string) (opts : value) (t : itemType) : ConfigItem :=
  {| file_request := path; file_resolved := path; options := opts; type := t |}.

(** [mergedItems.findIndex(m => m.file.resolved === item.file.resolved)]
    and the two branches that follow it. *)
Definition mergeItem (t : itemType) (mergedItems : list ConfigItem) (item : ConfigItem)
  : list ConfigItem :=
  match list_find (fun mergedItem => file_resolved mergedItem = file_resolved item) mergedItems with
  | None => mergedItems ++ [item]
  | Some (itemToMergeWithIndex, existing) =>
      <[itemToMergeWithIndex :=
          createConfigItem (file_resolved existing)
            (merge (options existing) [options item]) t]> mergedItems
  end.

Definition mergeConfigItems (t : itemType) (configItemsToMerge : list (list ConfigItem))
  : list ConfigItem :=
  fold_left (fun mergedItems configItemToMerge =>
               fold_left (mergeItem t) configItemToMerge mergedItems)
    configItemsToMerge [].

(** The custom options the plugin was given. *)
Record CustomOptions : Type := {
  jsx : value;
  jsxFragment : value;
  defines : value;
  targets : value;
}.

(** Babel's options as the hook reads them; [None] is a missing list. *)
Record BabelOptions : Type := {
  presets : option (list ConfigItem);
  plugins : option (list ConfigItem);
}.

(** The partial config Babel hands to the hook. *)
Record PartialConfig : Type := {
  hasFilesystemConfig : bool;
  config_options : BabelOptions;
}.

(** Modelled from the spec: [isTruthy] of [../utils], which is not among
    the sources; the expression-replacement plugin is "only included when
    a defines custom option is truthy". *)
Definition isTruthy (v : value) : bool := truthy v.

Definition excludeDefaults : value :=
  VArr [VStr "transform-async-to-generator"; VStr "transform-regenerator"].

Section Config.

(** [require.resolve] of the running installation. *)
Variable require_resolve : string -> string.

(** [items.map(({ name, ...options }) => createConfigItem([require.resolve(name), options], { type }))] *)
Definition createConfigItems (t : itemType) (items : list (string * list (string * value)))
  : list ConfigItem :=
  map (fun item => createConfigItem (require_resolve (fst item)) (VObj (snd item)) t) items.

Definition defaultPlugins (customOptions : CustomOptions) : list ConfigItem :=
  createConfigItems plugin
    ([ ("@babel/plugin-transform-react-jsx",
         [ ("pragma", or_else (jsx customOptions) (VStr "h"));
           ("pragmaFrag", or_else (jsxFragment customOptions) (VStr "Fragment")) ]) ]
     ++ (if isTruthy (defines customOptions)
         then [ ("babel-plugin-transform-replace-expressions",
                  [ ("replace", defines customOptions) ]) ]
         else [])
     ++ [ ("babel-plugin-transform-async-to-promises",
            [ ("inlineHelpers", VBool true); ("externalHelpers", VBool true) ]);
          ("@babel/plugin-proposal-class-properties", [ ("loose", VBool true) ]);
          ("@babel/plugin-transform-regenerator", [ ("async", VBool false) ]) ]).

(** The callback of [babelOptions.presets.map]. Reading
    [preset.options.exclude] throws when the preset has no options.
    (lodash merges the project's [targets] into the caller's [targets]
    object in place; the caller's descriptor is taken here as the value it
    has when the preset is reached.) *)
Definition overridePreset (customOptions : CustomOptions) (p : ConfigItem)
  : result ConfigItem :=
  if String.eqb (file_request p) "@babel/preset-env" then
    if isNullish (options p) then
      Throw (TypeError "Cannot read property 'exclude' of undefined")
    else
      Ok (createConfigItem (file_resolved p)
            (merge
               (VObj [ ("loose", VBool true); ("targets", targets customOptions) ])
               [ options p;
                 VObj [ ("modules", VBool false);
                        ("exclude",
                          merge excludeDefaults
                            [ or_else (get (options p) "exclude") (VArr []) ]) ] ])
            preset)
  else Ok p.

Definition synthesizedPresets (customOptions : CustomOptions) : list ConfigItem :=
  createConfigItems preset
    [ ("@babel/preset-env",
        [ ("targets", targets customOptions);
          ("modules", VBool false);
          ("loose", VBool true);
          ("exclude", excludeDefaults) ]) ].

(** [config(config, { customOptions })] *)
Definition config (cfg : PartialConfig) (customOptions : CustomOptions)
  : result BabelOptions :=
  babelOptions ←
    (if hasFilesystemConfig cfg then
       match presets (config_options cfg) with
       | Some ps =>
           ps' ← mapR (overridePreset customOptions) ps;
           Ok {| presets := Some ps'; plugins := plugins (config_options cfg) |}
       | None => Ok (config_options cfg)
       end
     else
       Ok {| presets := Some (synthesizedPresets customOptions); plugins := Some [] |});
  Ok {| presets := presets babelOptions;
        plugins := Some (mergeConfigItems plugin
                           [ defaultPlugins customOptions;
                             default [] (plugins babelOptions) ]) |}.

End Config.

End BabelCustom.

(* ===================================================================== *)
(** * babel-custom.js: the [options] hook *)
(* ===================================================================== *)

Module PluginOptions.
Import Js.

(** What the hook returns. *)
Record Split : Type := {
  customOptions : value;
  pluginOptions : list (string * value);
}.

(** [options({ custom: customOptions, ...pluginOptions })] (lines
    44-52): the [custom] property, and the own properties that are left,
    in their order. *)
Definition options (given : list (string * value)) : Split :=
  {| customOptions := get (VObj given) "custom";
     pluginOptions := filter (fun property => property.1 <> "custom") given |}.

End PluginOptions.

(* ===================================================================== *)
(** * JavaScript regular expressions *)
(* ===================================================================== *)

Module Regex.

(** What the anchors ask of a character: [\b] whether it is a word
    character, [^] under the [m] flag whether it ends a line. *)
Class Alphabet (C : Type) : Type := {
  is_word : C -> bool;
  is_line_terminator : C -> bool;
}.

Section Regex.
Context {C : Type} `{Alphabet C}.

(** The constructs the patterns of the sources use. Repetition is over a
    character class, which is all these patterns repeat. *)
Inductive regex : Type :=
| Eps
| Chr (p : C -> bool)
| Seq (a b : regex)
| Alt (a b : regex)
| Star (p : C -> bool)
| Bos
| Eos
| Bol
| WordB.

Definition Opt (a : regex) : regex := Alt a Eps.
Definition Plus (p : C -> bool) : regex := Seq (Chr p) (Star p).

Definition word_before (prev : option C) : bool :=
  match prev with Some c => is_word c | None => false end.
Definition word_after (s : list C) : bool :=
  match s with c :: _ => is_word c | [] => false end.

(** A backtracking matcher: [run r prev s k] matches [r] at the head of
    [s], [prev] being the character before it, and hands what is left to
    [k]; the alternatives are tried in the order of the language (the
    left branch first, the longer repetition first). *)
Fixpoint run {R} (r : regex) (prev : option C) (s : list C)
    (k : option C -> list C -> option R) : option R :=
  match r with
  | Eps => k prev s
  | Chr p =>
      match s with
      | c :: s' => if p c then k (Some c) s' else None
      | [] => None
      end
  | Seq a b => run a prev s (fun prev' s' => run b prev' s' k)
  | Alt a b =>
      match run a prev s k with
      | Some x => Some x
      | None => run b prev s k
      end
  | Star p =>
      (fix star (prev : option C) (s : list C) : option R :=
         match s with
         | c :: s' =>
             if p c then
               match star (Some c) s' with
               | Some x => Some x
               | None => k prev s
               end
             else k prev s
         | [] => k prev s
         end) prev s
  | Bos => match prev with None => k prev s | Some _ => None end
  | Eos => match s with [] => k prev s | _ :: _ => None end
  | Bol =>
      match prev with
      | None => k prev s
      | Some c => if is_line_terminator c then k prev s else None
      end
  | WordB => if xorb (word_before prev) (word_after s) then k prev s else None
  end.

(** What is left of [s] after the match of [r] at its head. *)
Definition match_here (r : regex) (prev : option C) (s : list C) : option (list C) :=
  run r prev s (fun _ rest => Some rest).

(** [r.test(s)]: a match at some position, the leftmost first. *)
Fixpoint search (r : regex) (prev : option C) (s : list C) : bool :=
  match match_here r prev s with
  | Some _ => true
  | None =>
      match s with
      | c :: s' => search r (Some c) s'
      | [] => false
      end
  end.

Definition test (r : regex) (s : list C) : bool := search r None s.

(** [s.replace(r, repl)] without the [g] flag: the leftmost match only. *)
Fixpoint replace_from (r : regex) (repl : list C) (prev : option C) (s : list C) : list C :=
  match match_here r prev s with
  | Some rest => repl ++ rest
  | None =>
      match s with
      | c :: s' => c :: replace_from r repl (Some c) s'
      | [] => []
      end
  end.

Definition replace (r : regex) (repl : list C) (s : list C) : list C :=
  replace_from r repl None s.

Fixpoint seqs (rs : list regex) : regex :=
  match rs with
  | [] => Eps
  | [r] => r
  | r :: rest => Seq r (seqs rest)
  end.

Fixpoint alts (rs : list regex) : regex :=
  match rs with
  | [] => Eps
  | [r] => r
  | r :: rest => Alt r (alts rest)
  end.

End Regex.

(** Strings of 8-bit characters: paths, package names, messages. *)
#[global] Instance ascii_alphabet : Alphabet ascii := {|
  is_word c :=
    let n := nat_of_ascii c in
    ((48 <=? n) && (n <=? 57) || (65 <=? n) && (n <=? 90)
     || (97 <=? n) && (n <=? 122) || (n =? 95))%nat;
  is_line_terminator c := let n := nat_of_ascii c in ((n =? 10) || (n =? 13))%nat;
|}.

(** Source text: a JavaScript string, that is UTF-16 code units. *)
#[global] Instance unit_alphabet : Alphabet N := {|
  is_word n :=
    ((48 <=? n) && (n <=? 57) || (65 <=? n) && (n <=? 90)
     || (97 <=? n) && (n <=? 122) || (n =? 95))%N;
  is_line_terminator n := ((n =? 10) || (n =? 13) || (n =? 8232) || (n =? 8233))%N;
|}.

Definition chars (s : string) : list ascii := list_ascii_of_string s.
Definition units (s : string) : list N := map N_of_ascii (list_ascii_of_string s).

(** Character classes and literals over both alphabets. *)
Definition in_range (lo hi : ascii) (c : ascii) : bool :=
  ((nat_of_ascii lo <=? nat_of_ascii c) && (nat_of_ascii c <=? nat_of_ascii hi))%nat.
Definition one_of (s : string) (c : ascii) : bool :=
  existsb (Ascii.eqb c) (chars s).
Definition lit (s : string) : regex (C := ascii) :=
  seqs (map (fun c => Chr (Ascii.eqb c)) (chars s)).

Definition in_rangeU (lo hi : ascii) (n : N) : bool :=
  ((N_of_ascii lo <=? n) && (n <=? N_of_ascii hi))%N.
Definition one_ofU (s : string) (n : N) : bool :=
  existsb (N.eqb n) (units s).
Definition litU (s : string) : regex (C := N) :=
  seqs (map (fun n => Chr (N.eqb n)) (units s)).

(** [\s]: the white space and line terminators of the language. *)
Definition is_space (n : N) : bool :=
  ((9 <=? n) && (n <=? 13) || (n =? 32) || (n =? 160) || (n =? 5760)
   || (8192 <=? n) && (n <=? 8202) || (n =? 8232) || (n =? 8233)
   || (n =? 8239) || (n =? 8287) || (n =? 12288) || (n =? 65279))%N.

(** [s.match(r)] and [s.replace(r, '')] on strings. *)
Definition matches (r : regex (C := ascii)) (s : string) : bool := test r (chars s).
Definition strip (r : regex (C := ascii)) (s : string) : string :=
  string_of_list_ascii (replace r [] (chars s)).

End Regex.

(* ===================================================================== *)
(** * Node's [path] module (posix) *)
(* ===================================================================== *)

Module Path.

Definition is_slash (c : ascii) : bool := Ascii.eqb c "/".

Fixpoint drop_while {A} (p : A -> bool) (l : list A) : list A :=
  match l with
  | x :: rest => if p x then drop_while p rest else l
  | [] => []
  end.

Fixpoint take_while {A} (p : A -> bool) (l : list A) : list A :=
  match l with
  | x :: rest => if p x then x :: take_while p rest else []
  | [] => []
  end.

(** [s.split(sep)] for a one-character separator. *)
Fixpoint split_on (sep : ascii) (s : list ascii) : list (list ascii) :=
  match s with
  | [] => [[]]
  | c :: rest =>
      if Ascii.eqb c sep then [] :: split_on sep rest
      else match split_on sep rest with
           | seg :: segs => (c :: seg) :: segs
           | [] => [[c]]
           end
  end.

Definition segments (s : list ascii) : list (list ascii) := split_on "/" s.

Fixpoint join (segs : list (list ascii)) : list ascii :=
  match segs with
  | [] => []
  | [seg] => seg
  | seg :: rest => seg ++ "/"%char :: join rest
  end.

Definition dot : list ascii := ["."%char].
Definition dotdot : list ascii := ["."%char; "."%char].

Definition seg_eqb (a b : list ascii) : bool := bool_decide (a = b).

(** One segment of [normalizeString]; the stack holds the segments kept so
    far, the last one first. *)
Definition normalize_step (allowAboveRoot : bool) (stack : list (list ascii))
    (seg : list ascii) : list (list ascii) :=
  if seg_eqb seg [] || seg_eqb seg dot then stack
  else if seg_eqb seg dotdot then
    match stack with
    | top :: rest =>
        if seg_eqb top dotdot then (if allowAboveRoot then seg :: stack else stack)
        else rest
    | [] => if allowAboveRoot then [seg] else []
    end
  else seg :: stack.

Definition normalizeString (path : list ascii) (allowAboveRoot : bool) : list ascii :=
  join (rev (fold_left (normalize_step allowAboveRoot) (segments path) [])).

Definition isAbsolute (path : list ascii) : bool :=
  match path with c :: _ => is_slash c | [] => false end.

(** The loop of [resolve]: the arguments from the right, then the working
    directory of the process, until an absolute one has been prepended. *)
Fixpoint gather (process_cwd : list ascii) (args_rev : list (list ascii))
    (resolvedPath : list ascii) : list ascii * bool :=
  match args_rev with
  | [] =>
      match process_cwd with
      | [] => (resolvedPath, false)
      | _ => (process_cwd ++ "/"%char :: resolvedPath, isAbsolute process_cwd)
      end
  | path :: rest =>
      match path with
      | [] => gather process_cwd rest resolvedPath
      | _ =>
          let resolvedPath := path ++ "/"%char :: resolvedPath in
          if isAbsolute path then (resolvedPath, true)
          else gather process_cwd rest resolvedPath
      end
  end.

Definition resolve_chars (process_cwd : list ascii) (args : list (list ascii)) : list ascii :=
  let '(resolvedPath, resolvedAbsolute) := gather process_cwd (rev args) [] in
  let normalized := normalizeString resolvedPath (negb resolvedAbsolute) in
  if resolvedAbsolute then "/"%char :: normalized
  else match normalized with [] => dot | _ => normalized end.

(** [path.resolve(...args)] in a process whose working directory is
    [process_cwd]. *)
Definition resolve (process_cwd : string) (args : list string) : string :=
  string_of_list_ascii
    (resolve_chars (list_ascii_of_string process_cwd) (map list_ascii_of_string args)).

(** [path.basename(path)]: what follows the last slash, trailing slashes
    apart. *)
Definition basename_chars (path : list ascii) : list ascii :=
  let trimmed := drop_while is_slash (rev path) in
  rev (take_while (fun c => negb (is_slash c)) trimmed).

Definition basename (path : string) : string :=
  string_of_list_ascii (basename_chars (list_ascii_of_string path)).

(** [path.dirname(path)] *)
Definition dirname_chars (path : list ascii) : list ascii :=
  match path with
  | [] => dot
  | first :: tail =>
      let hasRoot := is_slash first in
      let trimmed := drop_while is_slash (rev tail) in
      match drop_while (fun c => negb (is_slash c)) trimmed with
      | [] => if hasRoot then ["/"%char] else dot
      | _ :: before =>
          match before with
          | [] => if hasRoot then ["/"%char; "/"%char] else [first]
          | _ => first :: rev before
          end
      end
  end.

Definition dirname (path : string) : string :=
  string_of_list_ascii (dirname_chars (list_ascii_of_string path)).

End Path.

(* ===================================================================== *)
(** * [Array.prototype.sort] *)
(* ===================================================================== *)

Module JsArray.
Section Sort.
Context {A : Type}.
Variable comparefn : A -> A -> Z.

(** The insertion sort V8 runs on a short array (at most ten elements in
    the engines of the Node releases this code was written for). The
    element walks left past every [tmp] with [comparefn(tmp, element) > 0].
    [before] is the sorted part, its last element first. *)
Fixpoint insert_left (element : A) (before : list A) : list A :=
  match before with
  | [] => [element]
  | tmp :: rest =>
      if (comparefn tmp element >? 0)%Z then tmp :: insert_left element rest
      else element :: tmp :: rest
  end.

Definition sort (a : list A) : list A :=
  rev (fold_left (fun before element => insert_left element before) a []).

(** The engines of later Node releases sort a short array in another
    way (one run, then binary insertion), and [comparefn] is called as
    [comparefn(pivot, a[mid])]. The language leaves the order to the
    engine when [comparefn] is not a consistent comparator, so both are
    kept: [sort] is the one the rest of the model uses. *)
Fixpoint run_length (descending : bool) (prev : A) (rest : list A) : nat :=
  match rest with
  | [] => 0
  | x :: rest' =>
      let order := comparefn x prev in
      if (if descending then order <? 0 else 0 <=? order)%Z
      then S (run_length descending x rest')
      else 0
  end.

Fixpoint binary_search (fuel : nat) (pivot : A) (a : list A) (left right : nat) : nat :=
  match fuel with
  | O => left
  | S fuel' =>
      if (left <? right)%nat then
        let mid := (left + (right - left) / 2)%nat in
        match a !! mid with
        | Some x =>
            if (comparefn pivot x <? 0)%Z
            then binary_search fuel' pivot a left mid
            else binary_search fuel' pivot a (S mid) right
        | None => left
        end
      else left
  end.

Definition binary_insert (sorted : list A) (pivot : A) : list A :=
  let at_ := binary_search (S (length sorted)) pivot sorted 0 (length sorted) in
  take at_ sorted ++ pivot :: drop at_ sorted.

Definition sort_by_runs (a : list A) : list A :=
  match a with
  | x0 :: x1 :: rest =>
      let descending := (comparefn x1 x0 <? 0)%Z in
      let n := (2 + run_length descending x1 rest)%nat in
      let first_run := if descending then rev (take n a) else take n a in
      fold_left binary_insert (drop n a) first_run
  | _ => a
  end.

End Sort.

(** [arr.indexOf(item)], [-1] when absent. *)
Fixpoint indexOf (item : string) (arr : list string) : Z :=
  match arr with
  | [] => -1
  | x :: rest =>
      if String.eqb x item then 0
      else let i := indexOf item rest in if (i <? 0)%Z then -1 else (i + 1)%Z
  end.

(** [arr.filter((item, i, arr) => arr.indexOf(item) === i)] *)
Definition filter_first_index (arr : list string) : list string :=
  (filter (fun ix => indexOf ix.2 arr = Z.of_nat ix.1) (imap (fun i x => (i, x)) arr)).*2.

End JsArray.

(* ===================================================================== *)
(** * src/index.js *)
(* ===================================================================== *)

Module Microbundle.
Import Regex Path JsArray.

(** ** Data *)

(** [package.json], as far as it is read. A field is [None] when missing;
    [amdName] only names the UMD global and is left out with it.
    [pkg_mangle] is whether [mangle] is truthy, [pkg_mangle_regex] the
    [regex] of a [mangle] object (a string, when there). *)
Record Manifest : Type := {
  pkg_name : option string;
  pkg_source : option string;
  pkg_main : option string;
  pkg_module : option string;
  pkg_jsnext_main : option string;
  pkg_cjs_main : option string;
  pkg_umd_main : option string;
  pkg_peerDependencies : option (list string);
  pkg_dependencies : option (list string);
  pkg_mangle : bool;
  pkg_mangle_regex : option string;
}.

Definition empty_manifest : Manifest :=
  {| pkg_name := None; pkg_source := None; pkg_main := None; pkg_module := None;
     pkg_jsnext_main := None; pkg_cjs_main := None; pkg_umd_main := None;
     pkg_peerDependencies := None; pkg_dependencies := None; pkg_mangle := false;
     pkg_mangle_regex := None |}.

(** The options of the caller. *)
Record Options : Type := {
  o_cwd : string;
  o_entries : list string;
  o_format : option string;
  o_formats : option string;
  o_output : option string;
  o_watch : bool;
  o_inline : option string;
  o_external : option string;
  o_strict : bool;
  o_compress : bool;
  o_target : option string;
}.

(** The same object once [microbundle] has filled it in: this is what
    [createConfig] reads. *)
Record Resolved : Type := {
  given : Options;
  cwd : string;
  pkg : Manifest;
  output : string;
  entries : list string;
  multipleEntries : bool;
}.

(** The plugins handed to the engine, by what they are. *)
Inductive plug : Type :=
| alias (microbundle_entry : string)
| postcss (extract : bool)
| flow
| nodent
| buble
| commonjs
| nodeResolve (browser : bool)
| uglify (toplevel : bool)
| mangleHook (writeMeta : bool)
| codeCapture
| shebangPlugin.

Record InputOptions : Type := {
  input : string;
  external : list string;
  plugins : list plug;
}.

(** [name] (the UMD global, made by the [camelcase] package) is left out. *)
Record OutputOptions : Type := {
  exports : option string;
  paths : gmap string string;
  globals : gmap string string;
  strict : bool;
  legacy : bool;
  freeze : bool;
  sourcemap : bool;
  format : string;
  file : string;
}.

Record BuildConfig : Type := {
  inputOptions : InputOptions;
  outputOptions : OutputOptions;
}.

(** ** The world outside *)

(** What [JSON.parse] gives for the text of [package.json]: an object
    (an array reads as an object with none of the fields), [null], or
    another primitive (a number, a string, a boolean). *)
Inductive parsed : Type :=
| ParsedObject (pkg : Manifest)
| ParsedNull
| ParsedPrimitive.

(** The filesystem, read only. [readManifest] is
    [JSON.parse(readFile(path))]: what was parsed, or the message of what
    was thrown. [readFileSync] is [None] when the read throws. *)
Record FileSystem : Type := {
  readManifest : string -> string + parsed;
  isDir : string -> bool;
  isFile : string -> bool;
  glob : string -> list string;
  readFileSync : string -> option (list N);
}.

(** The process, the language and the engine. [rollup cache
    inputOptions] gives the generated code of the bundle or throws.
    [regExpCompiles source] is whether [new RegExp(source)] returns: it
    throws a SyntaxError on a source that is not a pattern. *)
Record World : Type := {
  fs : FileSystem;
  process_cwd : string;
  dirname_of_module : string;
  regExpCompiles : string -> bool;
  rollup : option string -> BuildConfig -> result string;
  gzipSize : string -> nat;
}.

Inductive event : Type :=
| WarnNoPackageJson
| WarnDetail (msg : string)
| WarnMissingName (assumed : string)
| RollupCall (cache : option string) (config : BuildConfig)
| BundleWritten (file : string)
| WatchStarted (config : BuildConfig).

(** What the promise of [microbundle] settles to: the size report of a
    build, or the pending promise of watch mode. *)
Inductive outcome : Type :=
| Built (sizes : list (nat * string))
| Watching.

(** An action: the events so far in, the result and the events out. *)
Definition action (A : Type) : Type := list event -> result A * list event.

Definition ret {A} (a : A) : action A := fun log => (Ok a, log).
Definition throw {A} (e : error) : action A := fun log => (Throw e, log).
Definition emit (e : event) : action unit := fun log => (Ok tt, log ++ [e]).
Definition lift {A} (r : result A) : action A := fun log => (r, log).
Definition andThen {A B} (m : action A) (k : A -> action B) : action B :=
  fun log =>
    match m log with
    | (Ok a, log') => k a log'
    | (Throw e, log') => (Throw e, log')
    end.

Notation "'let*' x ':=' m 'in' k" := (andThen m (fun x => k))
  (at level 10, x name, m at level 100, k at level 200).

(** ** Small JavaScript *)

(** A string is truthy unless empty; a missing field is falsy. *)
Definition truthy_field (o : option string) : bool :=
  match o with Some s => negb (String.eqb s "") | None => false end.

(** [a || b] on fields. *)
Definition field_or (a b : option string) : option string :=
  if truthy_field a then a else b.

Definition field_is (o : option string) (s : string) : bool :=
  match o with Some x => String.eqb x s | None => false end.

Definition split (sep : ascii) (s : string) : list string :=
  map string_of_list_ascii (split_on sep (list_ascii_of_string s)).

(** ** The patterns *)

Definition lower : ascii -> bool := in_range "a" "z".
Definition ident_rest (c : ascii) : bool := lower c || in_range "0" "9" c || one_of "_$" c.
Definition module_suffix : regex (C := ascii) :=
  Opt (seqs [lit "."; alts [lit "umd"; lit "cjs"; lit "es"; lit "m"]]).

(** [/\.[a-z]+$/] *)
Definition re_extension : regex := seqs [lit "."; Plus lower; Eos].
(** [/ENOENT/] *)
Definition re_enoent : regex := lit "ENOENT".
(** [/^[a-z_$][a-z0-9_$]*$/] *)
Definition re_identifier : regex :=
  seqs [Bos; Chr (fun c => lower c || one_of "_$" c); Star ident_rest; Eos].
(** [/(\\|\/)index(\.(umd|cjs|es|m))?\.js$/] *)
Definition re_index : regex :=
  seqs [Alt (lit "\") (lit "/"); lit "index"; module_suffix; lit ".js"; Eos].
(** [/(\.(umd|cjs|es|m))?\.js$/] *)
Definition re_js_suffix : regex := seqs [module_suffix; lit ".js"; Eos].
(** [/^[^.]+/] *)
Definition re_stem : regex := seqs [Bos; Plus (fun c => negb (Ascii.eqb c "."))].
(** [/src\//] *)
Definition re_src : regex := lit "src/".

Definition spaces : regex (C := N) := Star is_space.
Definition ident_startU (n : N) : bool :=
  in_rangeU "a" "z" n || in_rangeU "A" "Z" n || one_ofU "_$" n.

(** [/\bexport\s*default\s*[a-zA-Z_$]/] *)
Definition re_export_default : regex :=
  seqs [WordB; litU "export"; spaces; litU "default"; spaces; Chr ident_startU].
(** [/\bexport\s*(let|const|var|async|function\*?)\s*[a-zA-Z_$*]/] *)
Definition re_export_declaration : regex :=
  seqs [WordB; litU "export"; spaces;
        alts [litU "let"; litU "const"; litU "var"; litU "async";
              Seq (litU "function") (Opt (litU "*"))];
        spaces; Chr (fun n => ident_startU n || one_ofU "*" n)].
(** [/^\s*export\s*\{/m] *)
Definition re_export_list : regex :=
  seqs [Bol; spaces; litU "export"; spaces; litU "{"].

Definition hasDefault (file : list N) : bool := test re_export_default file.
Definition hasNamed (file : list N) : bool :=
  test re_export_declaration file || test re_export_list file.

(** ** [createConfig] *)

Section CreateConfig.
Variable world : World.

Definition resolve' (args : list string) : string := resolve (process_cwd world) args.

(** [replaceName(filename, name)] *)
Definition replaceName (filename name : string) : string :=
  resolve' [dirname filename; name +:+ strip re_stem (basename filename)].

(** The format list is sorted by
    [(a, b) => a==='cjs' ? -1 : a>b ? 1 : 0]. *)
Definition compare_formats (a b : string) : Z :=
  if String.eqb a "cjs" then (-1)%Z else if String.ltb b a then 1%Z else 0%Z.

(** Lines 141-148: whether dependencies are resolved and bundled
    ([useNodeResolve]), and the externals. Reading the keys of a missing
    [dependencies] throws. *)
Definition externalizes_dependencies (options : Options) : bool :=
  negb (field_is (o_inline options) "all")
  && (field_is (o_external options) "all" || field_is (o_inline options) "none").

Definition resolveDependencies (options : Resolved) (external : list string)
  : result (bool * list string) :=
  if field_is (o_inline (given options)) "all" then Ok (true, external)
  else if field_is (o_external (given options)) "all"
          || field_is (o_inline (given options)) "none"
  then match pkg_dependencies (pkg options) with
       | Some dependencies => Ok (false, external ++ dependencies)
       | None => Throw (TypeError "Cannot convert undefined or null to object")
       end
  else Ok (true, external).

(** Lines 150-156. The map holds the own properties of [globals].
    [globals[name] = name] on an object literal makes one, but for
    [__proto__]: that assignment goes to the setter of the prototype,
    which does nothing when given a string. *)
Definition collect_globals (external : list string) : gmap string string :=
  fold_left (fun globals name =>
               if matches re_identifier name
               then (if String.eqb name "__proto__" then globals
                     else <[name := name]> globals)
               else globals)
    external ∅.

(** Lines 250-258: [uglify] is set up when compression is on, and the
    pattern of the manifest's [mangle.regex], when there is one, is
    compiled then. *)
Definition compileMangle (options : Resolved) : result unit :=
  if o_compress (given options) && pkg_mangle (pkg options)
     && truthy_field (pkg_mangle_regex (pkg options))
     && negb (regExpCompiles world (default "" (pkg_mangle_regex (pkg options))))
  then Throw (SyntaxError "Invalid regular expression")
  else Ok tt.

(** Lines 178-187: the export shape. A read that throws is swallowed. *)
Definition detectExportType (entry fmt : string) : option string :=
  if negb (String.eqb fmt "es") then
    match readFileSync (fs world) entry with
    | Some file => if hasDefault file && hasNamed file then Some "default" else None
    | None => None
    end
  else None.

Definition wrapper_entry : string :=
  resolve' [dirname_of_module world; "../src/lib/__entry__.js"].

(** Lines 162-167: the main output path without its extension; with
    several entries, the base name is that of the entry unless the entry
    is an index file. *)
Definition mainNoExtension (options : Resolved) (entry : string) : string :=
  let mainNoExtension := output options in
  let mainNoExtension :=
    if multipleEntries options then
      let name := if matches re_index entry then mainNoExtension else entry in
      resolve' [dirname mainNoExtension; basename name]
    else mainNoExtension in
  strip re_js_suffix mainNoExtension.

(** Lines 169-171. *)
Definition moduleMain (options : Resolved) (entry : string) : string :=
  let pkg := pkg options in
  replaceName
    (if truthy_field (pkg_module pkg)
        && negb (matches re_src (default "" (pkg_module pkg)))
     then default "" (pkg_module pkg)
     else default "x.m.js" (field_or (pkg_jsnext_main pkg) (Some "x.m.js")))
    (mainNoExtension options entry).

Definition cjsMain (options : Resolved) (entry : string) : string :=
  replaceName (default "x.js" (field_or (pkg_cjs_main (pkg options)) (Some "x.js")))
    (mainNoExtension options entry).

Definition umdMain (options : Resolved) (entry : string) : string :=
  replaceName (default "x.umd.js" (field_or (pkg_umd_main (pkg options)) (Some "x.umd.js")))
    (mainNoExtension options entry).

(** Line 296: [file]. The three names are never empty, so the chain of
    [&&] and [||] picks by format alone. *)
Definition destination (options : Resolved) (entry fmt : string) : string :=
  resolve' [cwd options;
            if String.eqb fmt "es" then moduleMain options entry
            else if String.eqb fmt "umd" then umdMain options entry
            else cjsMain options entry].

Definition createConfig (options : Resolved) (entry fmt : string) (writeMeta : bool)
  : result BuildConfig :=
  let pkg := pkg options in
  let external :=
    ["dns"; "fs"; "path"; "url"]
    ++ default [] (pkg_peerDependencies pkg)
    ++ filter (fun e => e <> entry) (entries options) in
  let '(aliases, external) :=
    if multipleEntries options
    then (<["." := "./" +:+ basename (output options)]> (∅ : gmap string string),
          external ++ ["."])
    else (∅, external) in
  match resolveDependencies options external with
  | Throw e => Throw e
  | Ok (useNodeResolve, external) =>
  let globals := collect_globals external in
  let mangleOptions := pkg_mangle pkg in
  let exportType := detectExportType entry fmt in
  match compileMangle options with
  | Throw e => Throw e
  | Ok _ =>
  Ok {| inputOptions :=
          {| input := match exportType with Some _ => wrapper_entry | None => entry end;
             external := external;
             plugins :=
               [alias entry; postcss writeMeta; flow; nodent; buble]
               ++ (if useNodeResolve then [commonjs] else [])
               ++ (if useNodeResolve
                   then [nodeResolve (negb (field_is (o_target (given options)) "node"))]
                   else [])
               ++ (if o_compress (given options)
                   then [uglify (String.eqb fmt "cjs" || String.eqb fmt "es")]
                   else [])
               ++ (if mangleOptions then [mangleHook writeMeta] else [])
               ++ [codeCapture; shebangPlugin] |};
        outputOptions :=
          {| exports := match exportType with Some _ => Some "default" | None => None end;
             paths := aliases;
             globals := globals;
             strict := o_strict (given options);
             legacy := true;
             freeze := false;
             sourcemap := true;
             format := fmt;
             file := destination options entry fmt |} |}
  end
  end.

(** Lines 78-83: one config per entry and format, entries outermost,
    the first pair flagged to write metadata. The first throw ends the
    loops. *)
Definition pairs (entries formats : list string) : list (string * string * bool) :=
  concat (imap (fun i entry =>
                  imap (fun j fmt => (entry, fmt, (i =? 0)%nat && (j =? 0)%nat)) formats)
               entries).

Definition steps_of (options : Resolved) (formats : list string)
  : result (list BuildConfig) :=
  mapR (fun step => createConfig options step.1.1 step.1.2 step.2)
    (pairs (entries options) formats).

(** ** [microbundle] *)

Definition with_name (pkg : Manifest) (name : string) : Manifest :=
  {| pkg_name := Some name; pkg_source := pkg_source pkg; pkg_main := pkg_main pkg;
     pkg_module := pkg_module pkg; pkg_jsnext_main := pkg_jsnext_main pkg;
     pkg_cjs_main := pkg_cjs_main pkg; pkg_umd_main := pkg_umd_main pkg;
     pkg_peerDependencies := pkg_peerDependencies pkg;
     pkg_dependencies := pkg_dependencies pkg; pkg_mangle := pkg_mangle pkg;
     pkg_mangle_regex := pkg_mangle_regex pkg |}.

(** Lines 36-49: the manifest, or an empty one with a warning; a name,
    or the base name of the directory with a warning. Only the read and
    the parse are inside the [try]: when the text parses to [null],
    reading [options.pkg.name] throws; when it parses to another
    primitive, the name is [undefined] and assigning one throws (the
    file is a module, which is strict code). *)
Definition loadManifest (cwd : string) : action Manifest :=
  let* pkg :=
    match readManifest (fs world) (resolve' [cwd; "package.json"]) with
    | inr (ParsedObject pkg) => ret pkg
    | inr ParsedNull => throw (TypeError "Cannot read property 'name' of null")
    | inr ParsedPrimitive => throw (TypeError "Cannot create property 'name'")
    | inl msg =>
        let* _ := emit WarnNoPackageJson in
        let* _ := (if matches re_enoent msg then ret tt else emit (WarnDetail msg)) in
        ret empty_manifest
    end in
  if truthy_field (pkg_name pkg) then ret pkg
  else
    let name := basename cwd in
    let* _ := emit (WarnMissingName name) in
    ret (with_name pkg name).

(** Line 53: what [[].concat(...)] is given. [None] is a value that is
    not a string ([false] or [undefined]). *)
Definition candidates (options : Options) (pkg : Manifest) (cwd : string)
  : list (option string) :=
  match o_entries options with
  | _ :: _ => map Some (o_entries options)
  | [] =>
      [ if truthy_field (pkg_source pkg) then pkg_source pkg
        else if isDir (fs world) (resolve' [cwd; "src"]) then Some "src/index.js"
        else if isFile (fs world) (resolve' [cwd; "index.js"]) then Some "index.js"
        else pkg_module pkg ]
  end.

(** Line 54: [glob.sync(resolve(cwd, file))]; [resolve] throws on an
    argument that is not a string. *)
Definition expand (cwd : string) (file : option string) : result (list string) :=
  match file with
  | Some f => Ok (glob (fs world) (resolve' [cwd; f]))
  | None => Throw (TypeError "Path must be a string")
  end.

(** Lines 56-59. *)
Definition mainOutput (options : Options) (pkg : Manifest) (cwd : string) : string :=
  let main :=
    resolve' [cwd; default "dist"
                     (field_or (o_output options) (field_or (pkg_main pkg) (Some "dist")))] in
  if negb (matches re_extension main) || isDir (fs world) main
  then resolve' [main; default "" (pkg_name pkg) +:+ ".js"]
  else main.

(** Lines 62-68. *)
Definition entryFile (cwd file : string) : string :=
  let file := resolve' [cwd; file] in
  if isDir (fs world) file then resolve' [file; "index.js"] else file.

Definition resolveEntries (cwd : string) (input : list string) : list string :=
  filter_first_index (map (entryFile cwd) input).

(** Lines 74-76. *)
Definition sortFormats (formats : list string) : list string :=
  sort compare_formats formats.

Definition scheduleFormats (options : Options) : result (list string) :=
  match field_or (o_format options) (o_formats options) with
  | Some s => Ok (sortFormats (split "," s))
  | None => Throw (TypeError "Cannot read property 'split' of undefined")
  end.

(** Lines 114-120: the function of one step. It reads the variable
    [cache] the steps share, and leaves the bundle in it. *)
Definition buildStep (cache : option string) (step : BuildConfig)
  : action (string * (nat * string)) :=
  let* _ := emit (RollupCall cache step) in
  let* code := lift (rollup world cache step) in
  let* _ := emit (BundleWritten (file (outputOptions step))) in
  ret (code, (gzipSize world code, basename (file (outputOptions step)))).

(** Modelled from the spec: [series] of the [asyncro] package, which is
    not among the sources. In non-watch mode "steps execute strictly in
    schedule order", and "any step throwing aborts the whole run
    (fail-fast, no partial continuation)". *)
Fixpoint series (cache : option string) (steps : list BuildConfig)
  : action (list (nat * string)) :=
  match steps with
  | [] => ret []
  | step :: rest =>
      let* built := buildStep cache step in
      let* sizes := series (Some built.1) rest in
      ret (built.2 :: sizes)
  end.

(** Lines 92-111: one watcher per step; the promise stays pending. *)
Fixpoint watchAll (steps : list BuildConfig) : action unit :=
  match steps with
  | [] => ret tt
  | step :: rest => let* _ := emit (WatchStarted step) in watchAll rest
  end.

Definition microbundle (options : Options) : action outcome :=
  let cwd := resolve' [process_cwd world; o_cwd options] in
  let* pkg := loadManifest cwd in
  let* globbed := lift (mapR (expand cwd) (candidates options pkg cwd)) in
  let input := concat globbed in
  let main := mainOutput options pkg cwd in
  let entries := resolveEntries cwd input in
  let resolved :=
    {| given := options; cwd := cwd; pkg := pkg; output := main;
       entries := entries; multipleEntries := (1 <? length entries)%nat |} in
  let* formats := lift (scheduleFormats options) in
  let* steps := lift (steps_of resolved formats) in
  if o_watch options then
    let* _ := watchAll steps in ret Watching
  else
    let* sizes := series None steps in ret (Built sizes).

End CreateConfig.

End Microbundle.

(* ===================================================================== *)
(** * A small project to run the model on *)
(* ===================================================================== *)

Module Example.
Import Regex Microbundle.

Fixpoint lookup_file (path : string) (files : list (string * string)) : option string :=
  match files with
  | [] => None
  | (name, text) :: rest => if String.eqb name path then Some text else lookup_file path rest
  end.

(** A filesystem with the given directories and files (path and text);
    a glob pattern without wildcards matches the path it names, if it is
    there. *)
Definition filesystem (manifest : string + Manifest) (dirs : list string)
    (files : list (string * string)) : FileSystem :=
  {| readManifest := fun _ =>
       match manifest with inl msg => inl msg | inr pkg => inr (ParsedObject pkg) end;
     isDir := fun path => bool_decide (path ∈ dirs);
     isFile := fun path => bool_decide (path ∈ files.*1);
     glob := fun path =>
       if bool_decide (path ∈ dirs) || bool_decide (path ∈ files.*1) then [path] else [];
     readFileSync := fun path => units <$> lookup_file path files |}.

Definition world (files : FileSystem) : World :=
  {| fs := files;
     process_cwd := "/proj";
     dirname_of_module := "/proj/node_modules/microbundle/dist";
     regExpCompiles := fun _ => true;
     rollup := fun _ _ => Ok "code";
     gzipSize := String.length |}.

Definition manifest (name : string) : Manifest :=
  {| pkg_name := Some name; pkg_source := None; pkg_main := None; pkg_module := None;
     pkg_jsnext_main := None; pkg_cjs_main := None; pkg_umd_main := None;
     pkg_peerDependencies := None; pkg_dependencies := None; pkg_mangle := false;
     pkg_mangle_regex := None |}.

Definition with_peers (m : Manifest) (peers : list string) : Manifest :=
  {| pkg_name := pkg_name m; pkg_source := pkg_source m; pkg_main := pkg_main m;
     pkg_module := pkg_module m; pkg_jsnext_main := pkg_jsnext_main m;
     pkg_cjs_main := pkg_cjs_main m; pkg_umd_main := pkg_umd_main m;
     pkg_peerDependencies := Some peers;
     pkg_dependencies := pkg_dependencies m; pkg_mangle := pkg_mangle m;
     pkg_mangle_regex := pkg_mangle_regex m |}.

Definition with_dependencies (m : Manifest) (deps : list string) : Manifest :=
  {| pkg_name := pkg_name m; pkg_source := pkg_source m; pkg_main := pkg_main m;
     pkg_module := pkg_module m; pkg_jsnext_main := pkg_jsnext_main m;
     pkg_cjs_main := pkg_cjs_main m; pkg_umd_main := pkg_umd_main m;
     pkg_peerDependencies := pkg_peerDependencies m;
     pkg_dependencies := Some deps; pkg_mangle := pkg_mangle m;
     pkg_mangle_regex := pkg_mangle_regex m |}.

Definition options (entries : list string) (formats : string) : Options :=
  {| o_cwd := "."; o_entries := entries; o_format := None; o_formats := Some formats;
     o_output := None; o_watch := false; o_inline := None; o_external := None;
     o_strict := false; o_compress := true; o_target := None |}.

Definition externalizing (o : Options) : Options :=
  {| o_cwd := o_cwd o; o_entries := o_entries o; o_format := o_format o;
     o_formats := o_formats o; o_output := o_output o; o_watch := o_watch o;
     o_inline := o_inline o; o_external := Some "all";
     o_strict := o_strict o; o_compress := o_compress o; o_target := o_target o |}.

(** The options as [microbundle] leaves them for [/proj], output
    [/proj/dist/<name>.js]. *)
Definition resolved (o : Options) (m : Manifest) (entries : list string) : Resolved :=
  {| given := o; cwd := "/proj"; pkg := m;
     output := "/proj/dist/" +:+ default "" (pkg_name m) +:+ ".js";
     entries := entries; multipleEntries := (1 <? length entries)%nat |}.

End Example.

(* ===================================================================== *)
(** * Facts about lodash.merge *)
(* ===================================================================== *)

Module LodashFacts.
Import Js Lodash.

Definition is_obj (o : value) : Prop := exists ps, o = VObj ps.

Lemma assoc_set_same key v ps : assoc key (assoc_set key v ps) = Some v.
Proof.
  induction ps as [|[k w] ps IH]; simpl.
  - by rewrite String.eqb_refl.
  - destruct (String.eqb k key) eqn:E; simpl; rewrite E; auto.
Qed.

Lemma assoc_set_other key key' v ps :
  key <> key' -> assoc key' (assoc_set key v ps) = assoc key' ps.
Proof.
  intros Hne. apply String.eqb_neq in Hne.
  induction ps as [|[k w] ps IH]; simpl.
  - by rewrite Hne.
  - destruct (String.eqb k key) eqn:E; simpl.
    + apply String.eqb_eq in E. subst k. by rewrite Hne.
    + by rewrite IH.
Qed.

Lemma assoc_elem key ps v : assoc key ps = Some v -> (key, v) ∈ ps.
Proof.
  induction ps as [|[k w] ps IH]; simpl; [done|].
  destruct (String.eqb k key) eqn:E.
  - apply String.eqb_eq in E. intros [= ->]. subst. left.
  - intros H. right. auto.
Qed.

Lemma assoc_None key ps : assoc key ps = None -> forall v, (key, v) ∉ ps.
Proof.
  induction ps as [|[k w] ps IH]; simpl; intros H v Hin.
  - by apply elem_of_nil in Hin.
  - destruct (String.eqb k key) eqn:E; [done|].
    apply elem_of_cons in Hin as [[= -> ->]|Hin].
    + by rewrite String.eqb_refl in E.
    + by apply (IH H v).
Qed.

Lemma assign_obj o key v : is_obj o -> is_obj (assign o key v).
Proof. intros [ps ->]. simpl. by eexists. Qed.

Lemma assignMergeValue_obj o key v : is_obj o -> is_obj (assignMergeValue o key v).
Proof.
  intros H. unfold assignMergeValue.
  destruct (isUndefined v && has o key); [done|by apply assign_obj].
Qed.

Lemma get_assign_same o key v : is_obj o -> get (assign o key v) key = v.
Proof. intros [ps ->]. simpl. by rewrite assoc_set_same. Qed.

Lemma get_assign_other o key key' v :
  is_obj o -> key <> key' -> get (assign o key v) key' = get o key'.
Proof. intros [ps ->] Hne. simpl. by rewrite assoc_set_other. Qed.

Lemma get_assignMergeValue_other o key key' v :
  is_obj o -> key <> key' -> get (assignMergeValue o key v) key' = get o key'.
Proof.
  intros Ho Hne. unfold assignMergeValue.
  destruct (isUndefined v && has o key); [done|by apply get_assign_other].
Qed.

Lemma get_assignMergeValue_same o key v :
  is_obj o -> v <> VUndefined -> get (assignMergeValue o key v) key = v.
Proof.
  intros Ho Hv. unfold assignMergeValue.
  destruct v; simpl; try done; by apply get_assign_same.
Qed.

Lemma mergeKey_unfold key srcValue deep o :
  exists v, mergeKey key srcValue deep o = assignMergeValue o key v.
Proof.
  unfold mergeKey, baseMergeDeep.
  destruct srcValue; simpl; eauto.
Qed.

Lemma mergeKey_obj key srcValue deep o : is_obj o -> is_obj (mergeKey key srcValue deep o).
Proof.
  intros Ho. destruct (mergeKey_unfold key srcValue deep o) as [v ->].
  by apply assignMergeValue_obj.
Qed.

Lemma get_mergeKey_other key key' srcValue deep o :
  is_obj o -> key <> key' -> get (mergeKey key srcValue deep o) key' = get o key'.
Proof.
  intros Ho Hne. destruct (mergeKey_unfold key srcValue deep o) as [v ->].
  by apply get_assignMergeValue_other.
Qed.

Lemma mergeKey_primitive key srcValue deep o :
  isObject srcValue = false ->
  mergeKey key srcValue deep o = assignMergeValue o key srcValue.
Proof. intros H. unfold mergeKey. by rewrite H. Qed.

(** One step of the walk over the source's properties. *)
Definition step (o : value) (kv : string * value) : value :=
  mergeKey kv.1 kv.2 (fun t => baseMerge t kv.2) o.

Lemma baseMerge_own o source : baseMerge o source = fold_left step (own source) o.
Proof.
  destruct source as [| | | |s| |elems|props]; simpl; try done.
  - generalize 0%nat. revert o.
    induction s as [|c s IH]; intros o i; simpl; [done|].
    rewrite IH. f_equal.
  - change (imap (fun i v => (index_key i, v)) elems)
      with (imap (fun i v => (index_key (0 + i), v)) elems).
    generalize 0%nat. revert o.
    induction elems as [|e elems IH]; intros o i; simpl; [done|].
    rewrite IH. rewrite Nat.add_0_r. unfold step at 2. simpl. f_equal.
    apply imap_ext. intros j x _. simpl. do 2 f_equal. lia.
  - revert o. induction props as [|[k v] props IH]; intros o; simpl; [done|].
    by rewrite IH.
Qed.

Lemma fold_step_obj kvs o : is_obj o -> is_obj (fold_left step kvs o).
Proof.
  revert o. induction kvs as [|kv kvs IH]; intros o Ho; simpl; [done|].
  apply IH. by apply mergeKey_obj.
Qed.

Lemma baseMerge_obj o source : is_obj o -> is_obj (baseMerge o source).
Proof. rewrite baseMerge_own. apply fold_step_obj. Qed.

(** A property the source does not name is left as it was. *)
Lemma get_fold_step_other kvs o key :
  is_obj o -> (forall v, (key, v) ∉ kvs) ->
  get (fold_left step kvs o) key = get o key.
Proof.
  revert o. induction kvs as [|[k v] kvs IH]; intros o Ho Hkey; simpl; [done|].
  rewrite IH.
  - apply get_mergeKey_other; [done|]. simpl. intros ->. apply (Hkey v). left.
  - by apply mergeKey_obj.
  - intros w Hw. apply (Hkey w). by right.
Qed.

(** An invariant of the target that every step keeps is kept by the walk. *)
Lemma fold_step_invariant (P : value -> Prop) kvs o :
  P o -> (forall o' kv, kv ∈ kvs -> P o' -> P (step o' kv)) ->
  P (fold_left step kvs o).
Proof.
  revert o. induction kvs as [|kv kvs IH]; intros o Ho Hstep; simpl; [done|].
  apply IH.
  - apply Hstep; [left|done].
  - intros o' kv' Hin. apply Hstep. by right.
Qed.

Lemma has_get_obj o key v : is_obj o -> get o key = v -> v <> VUndefined -> has o key = true.
Proof.
  intros [ps ->] Hget Hv. simpl in *.
  destruct (assoc key ps) eqn:E; simpl in *; [done|congruence].
Qed.

(** The last source's own primitive value wins at its key. *)
Lemma get_fold_step_wins kvs o key v :
  is_obj o -> NoDup kvs.*1 -> (key, v) ∈ kvs ->
  isObject v = false -> v <> VUndefined ->
  get (fold_left step kvs o) key = v.
Proof.
  revert o. induction kvs as [|[k w] kvs IH]; intros o Ho Hnd Hin Hprim Hv.
  - by apply elem_of_nil in Hin.
  - simpl in Hnd. apply NoDup_cons in Hnd as [Hk Hnd].
    apply elem_of_cons in Hin as [[= -> ->]|Hin]; simpl.
    + rewrite get_fold_step_other.
      * unfold step. simpl. rewrite mergeKey_primitive by done.
        by apply get_assignMergeValue_same.
      * by apply mergeKey_obj.
      * intros u Hu. apply Hk. apply list_elem_of_fmap. by exists (k, u).
    + apply IH; auto. by apply mergeKey_obj.
Qed.

Lemma toObject_obj o : isNullish o = true \/ is_obj o -> is_obj (toObject o).
Proof.
  intros [H|[ps ->]]; [|by eexists].
  destruct o; simpl in *; try done; by eexists.
Qed.

End LodashFacts.

(* ===================================================================== *)
(** * The environment preset (babel-custom.js, lines 87-135) *)
(* ===================================================================== *)

(** A closed decidable statement, by evaluation. *)
Ltac by_evaluation := apply (bool_decide_unpack _); vm_compute; exact I.

Lemma mapR_Forall2 {A B} (f : A -> result B) (l : list A) :
  (forall x, x ∈ l -> exists y, f x = Ok y) ->
  exists ys, mapR f l = Ok ys /\ Forall2 (fun x y => f x = Ok y) l ys.
Proof.
  induction l as [|x l IH]; intros H; simpl.
  - exists []. split; [done|constructor].
  - destruct (H x) as [y Hy]; [left|].
    destruct IH as (ys & Hys & Hall); [intros z Hz; apply H; by right|].
    exists (y :: ys). rewrite Hy, Hys. split; [done|by constructor].
Qed.

Module PresetEnv.
Import Js Lodash LodashFacts BabelCustom.

(** The exclude list holds both lowering transforms. *)
Definition excludes_lowerings (opts : value) : Prop :=
  exists es, get opts "exclude" = VArr es
    /\ VStr "transform-async-to-generator" ∈ es
    /\ VStr "transform-regenerator" ∈ es.

(** The user's record does not set [loose] to anything but [true]. *)
Definition keeps_loose (opts : value) : Prop :=
  forall v, ("loose", v) ∈ own opts -> v = VUndefined \/ v = VBool true.

(** The user's record declares no excludes. *)
Definition declares_no_exclude (opts : value) : Prop :=
  forall v, ("exclude", v) ∈ own opts -> truthy v = false.

Definition userMerged (customOptions : CustomOptions) (opts : value) : value :=
  if truthy opts
  then baseMerge (VObj [("loose", VBool true); ("targets", targets customOptions)]) opts
  else VObj [("loose", VBool true); ("targets", targets customOptions)].

Lemma userMerged_obj co opts : is_obj (userMerged co opts).
Proof.
  unfold userMerged. destruct (truthy opts); [|by eexists].
  apply baseMerge_obj. by eexists.
Qed.

Lemma userMerged_loose co opts :
  keeps_loose opts -> get (userMerged co opts) "loose" = VBool true.
Proof.
  intros Hk. unfold userMerged. destruct (truthy opts); [|done].
  rewrite baseMerge_own.
  apply (fold_step_invariant (fun o => is_obj o /\ get o "loose" = VBool true)).
  - split; [by eexists|done].
  - intros o [k v] Hin [Ho Hl]. split; [by apply mergeKey_obj|].
    unfold step. simpl.
    destruct (decide (k = "loose")) as [->|Hne].
    + destruct (Hk v Hin) as [->| ->].
      * rewrite mergeKey_primitive by done. unfold assignMergeValue.
        rewrite (has_get_obj o "loose" (VBool true)) by done. done.
      * rewrite mergeKey_primitive by done. by apply get_assignMergeValue_same.
    + by rewrite get_mergeKey_other.
Qed.

Lemma userMerged_exclude co opts :
  declares_no_exclude opts -> truthy (get (userMerged co opts) "exclude") = false.
Proof.
  intros Hk. unfold userMerged. destruct (truthy opts); [|done].
  rewrite baseMerge_own.
  apply (fold_step_invariant (fun o => is_obj o /\ truthy (get o "exclude") = false)).
  - split; [by eexists|done].
  - intros o [k v] Hin [Ho Hl]. split; [by apply mergeKey_obj|].
    unfold step. simpl.
    destruct (decide (k = "exclude")) as [->|Hne].
    + pose proof (Hk v Hin) as Hv.
      rewrite mergeKey_primitive by (by destruct v).
      unfold assignMergeValue.
      destruct (isUndefined v && has o "exclude"); [done|].
      by rewrite get_assign_same.
    + by rewrite get_mergeKey_other.
Qed.

Lemma get_exclude_falsy opts :
  declares_no_exclude opts -> truthy (get opts "exclude") = false.
Proof.
  intros H. destruct opts; try done. simpl.
  destruct (assoc "exclude" props) eqn:E; [|done].
  apply H. simpl. by apply assoc_elem.
Qed.

(** The option record [overridePreset] builds for a preset-env item. *)
Definition overridden (customOptions : CustomOptions) (opts : value) : value :=
  merge (VObj [("loose", VBool true); ("targets", targets customOptions)])
    [ opts;
      VObj [ ("modules", VBool false);
             ("exclude", merge excludeDefaults [or_else (get opts "exclude") (VArr [])]) ] ].

Lemma overridden_eq co opts :
  overridden co opts =
  step (step (userMerged co opts) ("modules", VBool false))
    ("exclude", merge excludeDefaults [or_else (get opts "exclude") (VArr [])]).
Proof.
  unfold overridden, merge, userMerged. cbn [fold_left toObject truthy].
  destruct (truthy opts); by rewrite baseMerge_own.
Qed.

Lemma overridden_modules co opts : get (overridden co opts) "modules" = VBool false.
Proof.
  rewrite overridden_eq. unfold step at 1. cbn [fst snd].
  pose proof (userMerged_obj co opts) as Ho.
  rewrite get_mergeKey_other; [|by apply mergeKey_obj|done].
  unfold step. cbn [fst snd]. rewrite mergeKey_primitive by done.
  by apply get_assignMergeValue_same.
Qed.

Lemma overridden_loose co opts :
  keeps_loose opts -> get (overridden co opts) "loose" = VBool true.
Proof.
  intros Hk. rewrite overridden_eq. unfold step at 1. cbn [fst snd].
  pose proof (userMerged_obj co opts) as Ho.
  rewrite get_mergeKey_other; [|by apply mergeKey_obj|done].
  unfold step. cbn [fst snd].
  rewrite get_mergeKey_other; [|done|done].
  by apply userMerged_loose.
Qed.

Lemma overridden_exclude co opts :
  declares_no_exclude opts -> get (overridden co opts) "exclude" = excludeDefaults.
Proof.
  intros Hk. rewrite overridden_eq.
  pose proof (userMerged_obj co opts) as Ho.
  pose proof (userMerged_exclude co opts Hk) as Hf.
  pose proof (get_exclude_falsy opts Hk) as Hg.
  unfold or_else. rewrite Hg.
  change (merge excludeDefaults [VArr []]) with excludeDefaults.
  set (o2 := step (userMerged co opts) ("modules", VBool false)).
  assert (Ho2 : is_obj o2) by (by apply mergeKey_obj).
  assert (Hf2 : truthy (get o2 "exclude") = false).
  { unfold o2, step. cbn [fst snd]. by rewrite get_mergeKey_other. }
  unfold step, mergeKey, baseMergeDeep, excludeDefaults. cbn [fst snd isObject].
  assert (Hnew :
    (if isArray (get o2 "exclude") then get o2 "exclude"
     else match arrayLikeLength (get o2 "exclude") with
          | Some n => copyArray (get o2 "exclude") n
          | None => VArr []
          end) = VArr []).
  { by destruct (get o2 "exclude"). }
  rewrite Hnew.
  rewrite get_assignMergeValue_same; [|done|done].
  reflexivity.
Qed.

Lemma overridePreset_env co p :
  file_request p = "@babel/preset-env" -> isNullish (options p) = false ->
  overridePreset co p
  = Ok (createConfigItem (file_resolved p) (overridden co (options p)) preset).
Proof.
  intros Hreq Hopt. unfold overridePreset. rewrite Hreq, Hopt. reflexivity.
Qed.

Lemma overridePreset_other co p :
  file_request p <> "@babel/preset-env" -> overridePreset co p = Ok p.
Proof.
  intros Hreq. unfold overridePreset.
  apply String.eqb_neq in Hreq. by rewrite Hreq.
Qed.

Lemma excludeDefaults_lowerings opts :
  get opts "exclude" = excludeDefaults -> excludes_lowerings opts.
Proof.
  intros H. eexists. split; [exact H|]. split; [left|right; left].
Qed.

(** C1, as the code has it. Whenever a preset requested as
    [@babel/preset-env] is in the final options, its options have
    [modules: false]. The synthesized preset also has [loose: true] and
    excludes exactly the two lowering transforms. For a preset of the
    filesystem configuration that carries an options record, [loose] is
    [true] unless the record sets [loose] to another value, and the exclude
    list holds both lowering transforms when the record declares no
    excludes; every other preset is passed on as it is. This holds for
    every target descriptor and every user record. *)
Theorem preset_env_override (require_resolve : string -> string)
    (cfg : PartialConfig) (customOptions : CustomOptions) :
  (hasFilesystemConfig cfg = false ->
   exists out p,
     config require_resolve cfg customOptions = Ok out
     /\ presets out = Some [p]
     /\ file_resolved p = require_resolve "@babel/preset-env"
     /\ get (options p) "targets" = targets customOptions
     /\ get (options p) "modules" = VBool false
     /\ get (options p) "loose" = VBool true
     /\ get (options p) "exclude" = excludeDefaults)
  /\
  (forall ps,
   hasFilesystemConfig cfg = true ->
   presets (config_options cfg) = Some ps ->
   (forall p, p ∈ ps -> file_request p = "@babel/preset-env" ->
              isNullish (options p) = false) ->
   exists out qs,
     config require_resolve cfg customOptions = Ok out
     /\ presets out = Some qs
     /\ length qs = length ps
     /\ forall i p, ps !! i = Some p ->
          exists q, qs !! i = Some q
            /\ file_resolved q = file_resolved p
            /\ (file_request p <> "@babel/preset-env" -> q = p)
            /\ (file_request p = "@babel/preset-env" ->
                  get (options q) "modules" = VBool false
                  /\ (keeps_loose (options p) ->
                        get (options q) "loose" = VBool true)
                  /\ (declares_no_exclude (options p) ->
                        excludes_lowerings (options q)))).
Proof.
  split.
  - intros Hfs. unfold config. rewrite Hfs. cbn.
    eexists _, _. repeat split.
  - intros ps Hfs Hps Hopts. unfold config. rewrite Hfs, Hps.
    destruct (mapR_Forall2 (overridePreset customOptions) ps) as (qs & Hqs & Hall).
    { intros p Hp.
      destruct (decide (file_request p = "@babel/preset-env")) as [E|E].
      - rewrite overridePreset_env; eauto.
      - rewrite overridePreset_other; eauto. }
    rewrite Hqs. cbn. eexists _, qs. repeat split.
    { symmetry. by eapply Forall2_length. }
    intros i p Hi.
    destruct (Forall2_lookup_l _ _ _ _ _ Hall Hi) as (q & Hq & Hpq).
    exists q. split; [done|].
    destruct (decide (file_request p = "@babel/preset-env")) as [E|E].
    + rewrite overridePreset_env in Hpq; [|done|]. 2:{ apply Hopts; [|done]. by eapply list_elem_of_lookup_2. }
      injection Hpq as <-. cbn. split; [done|]. split; [done|]. intros _.
      split; [apply overridden_modules|]. split.
      * apply overridden_loose.
      * intros H. apply excludeDefaults_lowerings. by apply overridden_exclude.
    + rewrite overridePreset_other in Hpq by done. injection Hpq as <-.
      split; [done|]. split; [done|]. done.
Qed.

Lemma mapR_throws {A B} (f : A -> result B) (l : list A) (e : error) x :
  x ∈ l -> f x = Throw e -> (forall y e', f y = Throw e' -> e' = e) ->
  mapR f l = Throw e.
Proof.
  intros Hin Hx Honly. induction l as [|y l IH]; [by apply elem_of_nil in Hin|].
  simpl. destruct (f y) as [b|e'] eqn:Hy.
  - apply elem_of_cons in Hin as [->|Hin]; [congruence|].
    cbn. rewrite (IH Hin). done.
  - cbn. f_equal. by apply Honly in Hy.
Qed.

(** A preset-env entry of the filesystem configuration that has no
    options record makes the hook throw: [preset.options.exclude] is read
    before anything is merged. *)
Theorem config_throws_without_options (require_resolve : string -> string)
    (cfg : PartialConfig) (customOptions : CustomOptions) (ps : list ConfigItem)
    (p : ConfigItem) :
  hasFilesystemConfig cfg = true ->
  presets (config_options cfg) = Some ps ->
  p ∈ ps -> file_request p = "@babel/preset-env" -> isNullish (options p) = true ->
  config require_resolve cfg customOptions
  = Throw (TypeError "Cannot read property 'exclude' of undefined").
Proof.
  intros Hfs Hps Hin Hreq Hopt. unfold config. rewrite Hfs, Hps.
  rewrite (mapR_throws _ ps (TypeError "Cannot read property 'exclude' of undefined") p);
    [done|done| |].
  - unfold overridePreset. by rewrite Hreq, Hopt.
  - intros y e'. unfold overridePreset.
    destruct (String.eqb (file_request y) "@babel/preset-env"); [|done].
    destruct (isNullish (options y)); [|done]. by intros [= <-].
Qed.

Definition example_resolve (name : string) : string :=
  "/node_modules/" +:+ name +:+ "/lib/index.js".

Definition example_customOptions : CustomOptions :=
  {| jsx := VUndefined; jsxFragment := VUndefined; defines := VUndefined;
     targets := VStr "> 0.25%, not dead" |}.

Definition example_preset (request : string) (opts : value) : ConfigItem :=
  {| file_request := request; file_resolved := example_resolve request;
     options := opts; type := preset |}.

Definition example_config (ps : list ConfigItem) : PartialConfig :=
  {| hasFilesystemConfig := true;
     config_options := {| presets := Some ps; plugins := None |} |}.

(** A project that configures preset-env with [useBuiltIns] only. *)
Lemma preset_env_override_witness :
  exists out q,
    config example_resolve
      (example_config [example_preset "@babel/preset-env" (VObj [("useBuiltIns", VStr "usage")])])
      example_customOptions = Ok out
    /\ presets out = Some [q]
    /\ get (options q) "modules" = VBool false
    /\ get (options q) "loose" = VBool true
    /\ excludes_lowerings (options q).
Proof.
  set (p := example_preset "@babel/preset-env" (VObj [("useBuiltIns", VStr "usage")])).
  destruct (preset_env_override example_resolve (example_config [p]) example_customOptions)
    as [_ H].
  destruct (H [p] eq_refl eq_refl) as (out & qs & Hout & Hqs & Hlen & Hall).
  { intros p' Hp' _. apply list_elem_of_singleton in Hp'. by subst p'. }
  destruct (Hall 0%nat p eq_refl) as (q & Hq & _ & _ & Henv).
  destruct (Henv eq_refl) as (Hm & Hl & He).
  exists out, q. split; [exact Hout|]. split.
  { rewrite Hqs. destruct qs as [|q0 [|q1 qs]]; try discriminate.
    simpl in Hq. by injection Hq as ->. }
  split; [exact Hm|]. split.
  - apply Hl. intros v Hv. cbn in Hv. apply list_elem_of_singleton in Hv. discriminate.
  - apply He. intros v Hv. cbn in Hv. apply list_elem_of_singleton in Hv. discriminate.
Defined.

(** [presets: ["@babel/preset-env"]], without options. *)
Lemma config_throws_without_options_witness :
  config example_resolve
    (example_config [example_preset "@babel/preset-env" VUndefined])
    example_customOptions
  = Throw (TypeError "Cannot read property 'exclude' of undefined").
Proof.
  apply (config_throws_without_options example_resolve
           (example_config [example_preset "@babel/preset-env" VUndefined])
           example_customOptions
           [example_preset "@babel/preset-env" VUndefined]
           (example_preset "@babel/preset-env" VUndefined));
    try reflexivity.
  left.
Defined.

(** C1 fails as stated: a user exclude list takes the places of the
    forced excludes index by index, and a user [loose] wins. *)
Lemma preset_env_override_counterexample :
  (exists out q,
     config example_resolve
       (example_config [example_preset "@babel/preset-env"
                          (VObj [("exclude", VArr [VStr "transform-typeof-symbol"])])])
       example_customOptions = Ok out
     /\ presets out = Some [q]
     /\ get (options q) "exclude"
        = VArr [VStr "transform-typeof-symbol"; VStr "transform-regenerator"]
     /\ ~ excludes_lowerings (options q))
  /\
  (exists out q,
     config example_resolve
       (example_config [example_preset "@babel/preset-env" (VObj [("loose", VBool false)])])
       example_customOptions = Ok out
     /\ presets out = Some [q]
     /\ get (options q) "loose" = VBool false).
Proof.
  split.
  - eexists _, _. split; [vm_compute; reflexivity|]. split; [reflexivity|].
    split; [reflexivity|].
    intros (es & Hes & Ha & _). vm_compute in Hes. injection Hes as <-.
    repeat (apply elem_of_cons in Ha as [Ha|Ha]; [discriminate|]).
    by apply elem_of_nil in Ha.
  - eexists _, _. split; [vm_compute; reflexivity|]. split; [reflexivity|].
    reflexivity.
Qed.

End PresetEnv.

(* ===================================================================== *)
(** * Keeping the first occurrence *)
(* ===================================================================== *)

Module FirstSeen.
Section FirstSeen.
Context {A : Type}.

(** [r] lists the elements of [l] once each, in the order in which [l]
    first shows them: an element that stands before another in [r] occurs
    in [l] at a place before which the other has not occurred. *)
Definition first_occurrence_order (l r : list A) : Prop :=
  NoDup r
  /\ (forall x, x ∈ r <-> x ∈ l)
  /\ (forall i j x y, r !! i = Some x -> r !! j = Some y -> (i < j)%nat ->
        exists k, l !! k = Some x /\ y ∉ take k l).

(** Reading [l] from the left, keeping what is new. *)
Inductive first_seen : list A -> list A -> Prop :=
| first_seen_nil : first_seen [] []
| first_seen_old l r x : first_seen l r -> x ∈ l -> first_seen (l ++ [x]) r
| first_seen_new l r x : first_seen l r -> x ∉ l -> first_seen (l ++ [x]) (r ++ [x]).

Lemma first_seen_elem l r : first_seen l r -> forall x, x ∈ r <-> x ∈ l.
Proof.
  induction 1 as [|l r x _ IH Hx|l r x _ IH Hx]; intros y.
  - done.
  - rewrite IH, elem_of_app, list_elem_of_singleton. split; [tauto|].
    intros [?| ->]; done.
  - rewrite !elem_of_app, IH. done.
Qed.

Lemma first_seen_NoDup l r : first_seen l r -> NoDup r.
Proof.
  induction 1 as [|l r x H IH Hx|l r x H IH Hx].
  - constructor.
  - done.
  - apply NoDup_app. split; [done|]. split; [|apply NoDup_singleton].
    intros y Hy Hy'. apply list_elem_of_singleton in Hy'. subst y.
    apply Hx. by apply (first_seen_elem l r H).
Qed.

Lemma first_seen_order l r :
  first_seen l r ->
  forall i j x y, r !! i = Some x -> r !! j = Some y -> (i < j)%nat ->
    exists k, l !! k = Some x /\ y ∉ take k l.
Proof.
  induction 1 as [|l r x H IH Hx|l r x H IH Hx]; intros i j a b Hi Hj Hij.
  - done.
  - destruct (IH i j a b Hi Hj Hij) as (k & Hk & Hb).
    exists k. split; [by apply lookup_app_l_Some|].
    rewrite take_app_le; [done|]. apply lookup_lt_Some in Hk. lia.
  - destruct (decide (j < length r)%nat) as [Hlt|Hge].
    + rewrite lookup_app_l in Hi by lia. rewrite lookup_app_l in Hj by lia.
      destruct (IH i j a b Hi Hj Hij) as (k & Hk & Hb).
      exists k. split; [by apply lookup_app_l_Some|].
      rewrite take_app_le; [done|]. apply lookup_lt_Some in Hk. lia.
    + assert (Hjl : j = length r).
      { apply lookup_lt_Some in Hj. rewrite length_app in Hj. simpl in Hj. lia. }
      subst j. rewrite lookup_app_l in Hi by lia.
      rewrite list_lookup_middle in Hj by done. injection Hj as <-.
      assert (Ha : a ∈ l).
      { apply (first_seen_elem l r H). by eapply list_elem_of_lookup_2. }
      apply list_elem_of_lookup in Ha as [k Hk].
      exists k. split; [by apply lookup_app_l_Some|].
      rewrite take_app_le by (apply lookup_lt_Some in Hk; lia).
      intros Hin. apply Hx.
      apply elem_of_take in Hin as (k' & Hk' & _). by eapply list_elem_of_lookup_2.
Qed.

Lemma first_seen_spec l r : first_seen l r -> first_occurrence_order l r.
Proof.
  intros H. split; [by eapply first_seen_NoDup|].
  split; [by apply first_seen_elem|by apply first_seen_order].
Qed.

End FirstSeen.
End FirstSeen.

(* ===================================================================== *)
(** * The plugin-list merge (babel-custom.js, lines 6-33) *)
(* ===================================================================== *)

Module MergeItems.
Import Js Lodash LodashFacts BabelCustom FirstSeen.

Abbreviation paths l := (file_resolved <$> (l : list ConfigItem)).

(** What replaces an existing item when a later one has its path. *)
Definition mergeTwo (t : itemType) (existing item : ConfigItem) : ConfigItem :=
  createConfigItem (file_resolved existing) (merge (options existing) [options item]) t.

(** The items of one path, folded from the left. *)
Definition combine (t : itemType) (group : list ConfigItem) : option ConfigItem :=
  match group with
  | [] => None
  | x :: rest => Some (fold_left (mergeTwo t) rest x)
  end.

Definition same_path (p : string) (l : list ConfigItem) : list ConfigItem :=
  filter (fun x => file_resolved x = p) l.

Lemma filter_none {A} (P : A -> Prop) `{!forall x, Decision (P x)} (l : list A) :
  (forall y, y ∈ l -> ~ P y) -> filter P l = [].
Proof.
  induction l as [|x l IH]; intros Hno; [done|].
  rewrite filter_cons_False by (apply Hno; left).
  apply IH. intros y Hy. apply Hno. by right.
Qed.

Lemma combine_snoc t group m x :
  combine t group = Some m -> combine t (group ++ [x]) = Some (mergeTwo t m x).
Proof.
  destruct group as [|y rest]; simpl; [done|].
  intros [= <-]. by rewrite fold_left_app.
Qed.

Lemma mergeConfigItems_concat t lists :
  mergeConfigItems t lists = fold_left (mergeItem t) (concat lists) [].
Proof.
  unfold mergeConfigItems. generalize (@nil ConfigItem).
  induction lists as [|l lists IH]; intros acc; simpl; [done|].
  by rewrite IH, fold_left_app.
Qed.

Lemma mergeItem_new t acc x :
  file_resolved x ∉ paths acc -> mergeItem t acc x = acc ++ [x].
Proof.
  intros Hx. unfold mergeItem.
  destruct (list_find _ acc) as [[i y]|] eqn:E; [|done].
  apply list_find_Some in E as (Hi & Hy & _).
  exfalso. apply Hx. apply list_elem_of_fmap. exists y.
  split; [done|]. by eapply list_elem_of_lookup_2.
Qed.

Lemma mergeItem_old t acc x :
  file_resolved x ∈ paths acc ->
  exists i y, acc !! i = Some y /\ file_resolved y = file_resolved x
    /\ mergeItem t acc x = <[i := mergeTwo t y x]> acc.
Proof.
  intros Hx. unfold mergeItem.
  destruct (list_find _ acc) as [[i y]|] eqn:E.
  - apply list_find_Some in E as (Hi & Hy & _). by exists i, y.
  - exfalso. apply list_find_None in E.
    apply list_elem_of_fmap in Hx as (y & Hy & Hin).
    rewrite Forall_forall in E. by apply (E y).
Qed.

Lemma paths_insert_same (acc : list ConfigItem) i y z :
  acc !! i = Some y -> file_resolved z = file_resolved y ->
  paths (<[i := z]> acc) = paths acc.
Proof.
  intros Hi Hz. rewrite list_fmap_insert, Hz.
  apply list_insert_id. by rewrite list_lookup_fmap, Hi.
Qed.

(** The state of the walk after the items [l]. *)
Definition merged_upto (t : itemType) (l acc : list ConfigItem) : Prop :=
  first_seen (paths l) (paths acc)
  /\ forall m, m ∈ acc -> combine t (same_path (file_resolved m) l) = Some m.

Lemma merged_upto_fold t l : merged_upto t l (fold_left (mergeItem t) l []).
Proof.
  induction l as [|x l IH] using rev_ind.
  - split; [constructor|]. intros m Hm. by apply elem_of_nil in Hm.
  - rewrite fold_left_app. simpl.
    set (acc := fold_left (mergeItem t) l []) in *.
    destruct IH as [Hseen Hitems].
    pose proof (first_seen_elem _ _ Hseen) as Helem.
    pose proof (first_seen_NoDup _ _ Hseen) as Hnd.
    destruct (decide (file_resolved x ∈ paths acc)) as [Hin|Hnin].
    + destruct (mergeItem_old t acc x Hin) as (i & y & Hi & Hy & ->).
      split.
      * rewrite (paths_insert_same acc i y) by done.
        rewrite fmap_app. simpl. constructor; [done|]. by apply Helem.
      * intros m Hm. apply list_elem_of_lookup in Hm as [j Hj].
        apply list_lookup_insert_Some in Hj as [(-> & <- & _)|(Hne & Hj)].
        -- cbn [mergeTwo createConfigItem file_resolved].
           unfold same_path. rewrite filter_app.
           rewrite (filter_cons_True _ x []) by done.
           rewrite filter_nil.
           apply combine_snoc. apply Hitems. by eapply list_elem_of_lookup_2.
        -- unfold same_path. rewrite filter_app.
           rewrite (filter_cons_False _ x []).
           ++ rewrite filter_nil, app_nil_r. apply Hitems.
              by eapply list_elem_of_lookup_2.
           ++ intros Hxm. apply Hne.
              eapply (NoDup_lookup (paths acc)); [done| |].
              ** by rewrite list_lookup_fmap, Hi.
              ** rewrite list_lookup_fmap, Hj. simpl. congruence.
    + rewrite mergeItem_new by done. split.
      * rewrite !fmap_app. simpl. constructor; [done|]. by rewrite <- Helem.
      * intros m Hm. apply elem_of_app in Hm as [Hm|Hm].
        -- unfold same_path. rewrite filter_app.
           rewrite (filter_cons_False _ x []).
           ++ rewrite filter_nil, app_nil_r. by apply Hitems.
           ++ intros Hxm. apply Hnin. rewrite Hxm.
              apply list_elem_of_fmap. by exists m.
        -- apply list_elem_of_singleton in Hm. subst m.
           unfold same_path. rewrite filter_app.
           rewrite (filter_cons_True _ x []) by done. rewrite filter_nil.
           assert (Hnone : filter (fun y => file_resolved y = file_resolved x) l = []).
           { apply filter_none. intros y Hy Hxy.
             apply Hnin, Helem. apply list_elem_of_fmap. by exists y. }
           rewrite Hnone. done.
Qed.

Lemma merged_item_at t l acc p :
  merged_upto t l acc -> p ∈ paths l ->
  exists m, m ∈ acc /\ file_resolved m = p /\ combine t (same_path p l) = Some m.
Proof.
  intros [Hseen Hitems] Hp.
  apply (first_seen_elem _ _ Hseen) in Hp.
  apply list_elem_of_fmap in Hp as (m & -> & Hm).
  exists m. split; [done|]. split; [done|]. by apply Hitems.
Qed.

(** C3, as the code has it. For any two lists A and B of ConfigItems the
    merged list has exactly one item per resolved path, in first-seen
    order across A followed by B. A path that one item of A and one item
    of B are on yields the single item created at that path with the
    lodash deep merge of A's options and B's options, in which a primitive
    value of B other than [undefined] wins at its key. An item that is
    alone on its path in A and B together is in the result unchanged. *)
Theorem mergeConfigItems_two_lists (t : itemType) (A B : list ConfigItem) :
  first_occurrence_order (paths (A ++ B)) (paths (mergeConfigItems t [A; B]))
  /\ (forall a b,
        same_path (file_resolved a) A = [a] -> same_path (file_resolved a) B = [b] ->
        exists m, m ∈ mergeConfigItems t [A; B]
          /\ m = createConfigItem (file_resolved a) (merge (options a) [options b]) t
          /\ (forall key v props,
                isNullish (options a) = true \/ is_obj (options a) ->
                options b = VObj props -> NoDup props.*1 -> (key, v) ∈ props ->
                isObject v = false -> v <> VUndefined ->
                get (options m) key = v))
  /\ (forall x, same_path (file_resolved x) (A ++ B) = [x] ->
        x ∈ mergeConfigItems t [A; B]).
Proof.
  rewrite mergeConfigItems_concat. cbn [concat]. rewrite app_nil_r.
  pose proof (merged_upto_fold t (A ++ B)) as Hinv.
  set (R := fold_left (mergeItem t) (A ++ B) []) in *.
  split; [apply first_seen_spec, Hinv|]. split.
  - intros a b Ha Hb.
    assert (HaA : a ∈ A).
    { assert (Hf : a ∈ same_path (file_resolved a) A) by (rewrite Ha; left).
      by apply list_elem_of_filter in Hf as [_ ?]. }
    destruct (merged_item_at t (A ++ B) R (file_resolved a) Hinv) as (m & Hm & Hp & Hc).
    { apply list_elem_of_fmap. exists a. split; [done|]. apply elem_of_app. by left. }
    unfold same_path in Hc. rewrite filter_app in Hc.
    unfold same_path in Ha, Hb. rewrite Ha, Hb in Hc.
    cbn in Hc. injection Hc as <-.
    eexists. split; [exact Hm|]. split; [reflexivity|].
    intros key v props Hoa Hob Hnd Hin Hprim Hv.
    cbn [mergeTwo createConfigItem options]. rewrite Hob.
    unfold merge. cbn [fold_left truthy]. rewrite baseMerge_own. cbn [own].
    apply get_fold_step_wins; auto. by apply toObject_obj.
  - intros x Hx.
    assert (HxAB : x ∈ A ++ B).
    { assert (Hf : x ∈ same_path (file_resolved x) (A ++ B)) by (rewrite Hx; left).
      by apply list_elem_of_filter in Hf as [_ ?]. }
    destruct (merged_item_at t (A ++ B) R (file_resolved x) Hinv) as (m & Hm & Hp & Hc).
    { apply list_elem_of_fmap. by exists x. }
    rewrite Hx in Hc. cbn in Hc. by injection Hc as <-.
Qed.

Definition example_item (path : string) (opts : value) : ConfigItem :=
  {| file_request := path; file_resolved := path; options := opts; type := plugin |}.

Definition example_defaults : list ConfigItem :=
  [ example_item "/node_modules/@babel/plugin-transform-react-jsx/lib/index.js"
      (VObj [("pragma", VStr "h"); ("pragmaFrag", VStr "Fragment")]);
    example_item "/node_modules/@babel/plugin-proposal-class-properties/lib/index.js"
      (VObj [("loose", VBool true)]) ].

Definition example_project : list ConfigItem :=
  [ example_item "/node_modules/babel-plugin-macros/dist/index.js" VUndefined;
    example_item "/node_modules/@babel/plugin-transform-react-jsx/lib/index.js"
      (VObj [("pragma", VStr "React.createElement")]) ].

(** The project's JSX pragma replaces the default, the fragment pragma
    stays, and the project's own plugin goes last. *)
Lemma mergeConfigItems_two_lists_witness :
  mergeConfigItems plugin [example_defaults; example_project]
  = [ example_item "/node_modules/@babel/plugin-transform-react-jsx/lib/index.js"
        (VObj [("pragma", VStr "React.createElement"); ("pragmaFrag", VStr "Fragment")]);
      example_item "/node_modules/@babel/plugin-proposal-class-properties/lib/index.js"
        (VObj [("loose", VBool true)]);
      example_item "/node_modules/babel-plugin-macros/dist/index.js" VUndefined ]
  /\ example_item "/node_modules/babel-plugin-macros/dist/index.js" VUndefined
     ∈ mergeConfigItems plugin [example_defaults; example_project].
Proof.
  split; [reflexivity|].
  apply (mergeConfigItems_two_lists plugin example_defaults example_project).
  reflexivity.
Defined.

(** C3 fails as stated for a list that names one path twice: both items
    of the project are on a path the defaults do not have, and neither
    passes through unchanged. *)
Lemma mergeConfigItems_two_lists_counterexample :
  let A := [ example_item "/p/a.js" (VObj []) ] in
  let b1 := example_item "/p/b.js" (VObj [("x", VNum 1)]) in
  let b2 := example_item "/p/b.js" (VObj [("y", VNum 2)]) in
  mergeConfigItems plugin [A; [b1; b2]]
  = [ example_item "/p/a.js" (VObj []);
      example_item "/p/b.js" (VObj [("x", VNum 1); ("y", VNum 2)]) ]
  /\ ~ (forall b, b ∈ [b1; b2] -> file_resolved b ∉ paths A ->
                  b ∈ mergeConfigItems plugin [A; [b1; b2]]).
Proof.
  intros A b1 b2. split; [reflexivity|].
  intros H. specialize (H b1).
  assert (Hin : b1 ∈ mergeConfigItems plugin [A; [b1; b2]]).
  { apply H; [left|]. intros Hp.
    apply list_elem_of_singleton in Hp. discriminate. }
  change (mergeConfigItems plugin [A; [b1; b2]])
    with [ example_item "/p/a.js" (VObj []);
           example_item "/p/b.js" (VObj [("x", VNum 1); ("y", VNum 2)]) ] in Hin.
  repeat (apply elem_of_cons in Hin as [Hin|Hin]; [discriminate|]).
  by apply elem_of_nil in Hin.
Qed.

End MergeItems.

(* ===================================================================== *)
(** * Entries (index.js, lines 62-68) *)
(* ===================================================================== *)

Module Entries.
Import JsArray FirstSeen Microbundle.

Lemma indexOf_absent item arr : item ∉ arr -> indexOf item arr = (-1)%Z.
Proof.
  induction arr as [|x arr IH]; intros Hnin; simpl; [done|].
  destruct (String.eqb x item) eqn:E.
  - apply String.eqb_eq in E. subst. exfalso. apply Hnin. left.
  - rewrite IH; [done|]. intros Hin. apply Hnin. by right.
Qed.

Lemma indexOf_present item arr :
  item ∈ arr -> (0 <= indexOf item arr < Z.of_nat (length arr))%Z.
Proof.
  induction arr as [|x arr IH]; intros Hin; [by apply elem_of_nil in Hin|].
  simpl. destruct (String.eqb x item) eqn:E; [lia|].
  apply elem_of_cons in Hin as [->|Hin]; [by rewrite String.eqb_refl in E|].
  specialize (IH Hin). destruct (Z.ltb_spec (indexOf item arr) 0); lia.
Qed.

Lemma indexOf_app_present item arr more :
  item ∈ arr -> indexOf item (arr ++ more) = indexOf item arr.
Proof.
  induction arr as [|x arr IH]; intros Hin; [by apply elem_of_nil in Hin|].
  simpl. destruct (String.eqb x item) eqn:E; [done|].
  apply elem_of_cons in Hin as [->|Hin]; [by rewrite String.eqb_refl in E|].
  by rewrite IH.
Qed.

Lemma indexOf_lower item arr : (-1 <= indexOf item arr)%Z.
Proof.
  induction arr as [|x arr IH]; simpl; [lia|].
  destruct (String.eqb x item); [lia|].
  destruct (Z.ltb_spec (indexOf item arr) 0); lia.
Qed.

Lemma indexOf_app_absent item arr more :
  item ∉ arr ->
  indexOf item (arr ++ more)
  = (if (indexOf item more <? 0)%Z then -1 else indexOf item more + Z.of_nat (length arr))%Z.
Proof.
  pose proof (indexOf_lower item more) as Hlow.
  induction arr as [|x arr IH]; intros Hnin; simpl.
  - destruct (Z.ltb_spec (indexOf item more) 0); lia.
  - destruct (String.eqb x item) eqn:E.
    + apply String.eqb_eq in E. subst. exfalso. apply Hnin. left.
    + rewrite IH by (intros Hin; apply Hnin; by right).
      destruct (Z.ltb_spec (indexOf item more) 0); simpl; [done|].
      destruct (Z.ltb_spec (indexOf item more + Z.of_nat (length arr)) 0); lia.
Qed.

Lemma filter_agree {A} (P Q : A -> Prop) `{!forall x, Decision (P x)}
    `{!forall x, Decision (Q x)} (l : list A) :
  (forall x, x ∈ l -> P x <-> Q x) -> filter P l = filter Q l.
Proof.
  induction l as [|x l IH]; intros Hpq; [done|].
  rewrite !filter_cons.
  rewrite IH by (intros y Hy; apply Hpq; by right).
  destruct (decide (P x)) as [Hp|Hp], (decide (Q x)) as [Hq|Hq]; try done.
  - exfalso. apply Hq, Hpq; [left|done].
  - exfalso. apply Hp, Hpq; [left|done].
Qed.

(** The filter keeps the last element of a list exactly when it is new. *)
Lemma filter_first_index_snoc arr x :
  filter_first_index (arr ++ [x])
  = filter_first_index arr ++ (if decide (x ∈ arr) then [] else [x]).
Proof.
  unfold filter_first_index.
  rewrite imap_app, filter_app, fmap_app. f_equal.
  - f_equal. apply filter_agree. intros [i y] Hin. simpl.
    apply elem_of_lookup_imap in Hin as (j & z & [= -> ->] & Hj).
    rewrite indexOf_app_present; [done|]. by eapply list_elem_of_lookup_2.
  - simpl. rewrite Nat.add_0_r.
    destruct (decide (x ∈ arr)) as [Hin|Hnin].
    + rewrite filter_cons_False; [done|]. simpl.
      rewrite indexOf_app_present by done.
      pose proof (indexOf_present x arr Hin). lia.
    + rewrite filter_cons_True; [done|]. simpl.
      rewrite indexOf_app_absent by done. simpl. rewrite String.eqb_refl. simpl. lia.
Qed.

Lemma filter_first_index_first_seen arr : first_seen arr (filter_first_index arr).
Proof.
  induction arr as [|x arr IH] using rev_ind; [constructor|].
  rewrite filter_first_index_snoc.
  destruct (decide (x ∈ arr)).
  - rewrite app_nil_r. by constructor.
  - by constructor.
Qed.

(** C7. Whatever the expanded inputs and the filesystem, the resolved
    entry sequence lists every resolved path ([resolve(cwd, file)], with
    [index.js] appended for a directory) exactly once, in the order of
    first occurrence. *)
Theorem resolved_entries_first_occurrence (world : World) (cwd : string)
    (input : list string) :
  first_occurrence_order (map (entryFile world cwd) input)
    (resolveEntries world cwd input).
Proof.
  unfold resolveEntries. apply first_seen_spec, filter_first_index_first_seen.
Qed.

End Entries.

(* ===================================================================== *)
(** * [createConfig] (index.js, lines 126-301) *)
(* ===================================================================== *)

Module ConfigFacts.
Import Regex Path JsArray Microbundle.

Lemma resolveDependencies_throws options external :
  externalizes_dependencies (given options) = true ->
  pkg_dependencies (pkg options) = None ->
  resolveDependencies options external
  = Throw (TypeError "Cannot convert undefined or null to object").
Proof.
  unfold externalizes_dependencies, resolveDependencies. intros Hmode Hdeps.
  apply andb_true_iff in Hmode as [Hinline Hmode].
  apply negb_true_iff in Hinline. by rewrite Hinline, Hmode, Hdeps.
Qed.

Lemma resolveDependencies_externalizes options external dependencies :
  externalizes_dependencies (given options) = true ->
  pkg_dependencies (pkg options) = Some dependencies ->
  resolveDependencies options external = Ok (false, external ++ dependencies).
Proof.
  unfold externalizes_dependencies, resolveDependencies. intros Hmode Hdeps.
  apply andb_true_iff in Hmode as [Hinline Hmode].
  apply negb_true_iff in Hinline. by rewrite Hinline, Hmode, Hdeps.
Qed.

Lemma resolveDependencies_bundles options external :
  externalizes_dependencies (given options) = false ->
  resolveDependencies options external = Ok (true, external).
Proof.
  unfold externalizes_dependencies, resolveDependencies. intros Hmode.
  destruct (field_is (o_inline (given options)) "all"); [done|].
  simpl in Hmode. by rewrite Hmode.
Qed.

(** Every earlier external is kept. *)
Lemma resolveDependencies_incl options external useNodeResolve external' :
  resolveDependencies options external = Ok (useNodeResolve, external') ->
  exists dependencies, external' = external ++ dependencies.
Proof.
  unfold resolveDependencies. intros Hr.
  destruct (field_is (o_inline (given options)) "all").
  { injection Hr as <- <-. exists []. by rewrite app_nil_r. }
  destruct (_ || _).
  - destruct (pkg_dependencies (pkg options)) as [deps|]; [|done].
    injection Hr as <- <-. by exists deps.
  - injection Hr as <- <-. exists []. by rewrite app_nil_r.
Qed.

(** The one thing that makes [resolveDependencies] throw. *)
Lemma resolveDependencies_Throw options external e :
  resolveDependencies options external = Throw e ->
  externalizes_dependencies (given options) = true
  /\ pkg_dependencies (pkg options) = None.
Proof.
  unfold resolveDependencies, externalizes_dependencies.
  destruct (field_is (o_inline (given options)) "all"); [done|].
  destruct (_ || _); [|done].
  by destruct (pkg_dependencies (pkg options)).
Qed.

(** The externals before the dependency mode is looked at. *)
Definition baseExternal (options : Resolved) (entry : string) : list string :=
  (["dns"; "fs"; "path"; "url"]
   ++ default [] (pkg_peerDependencies (pkg options))
   ++ filter (fun e => e <> entry) (entries options))
  ++ (if multipleEntries options then ["."] else []).

(** What a returned config holds, field by field. *)
Lemma createConfig_Ok world options entry fmt writeMeta cfg :
  createConfig world options entry fmt writeMeta = Ok cfg ->
  (exists useNodeResolve,
     resolveDependencies options (baseExternal options entry)
     = Ok (useNodeResolve, external (inputOptions cfg)))
  /\ input (inputOptions cfg)
     = match detectExportType world entry fmt with
       | Some _ => wrapper_entry world
       | None => entry
       end
  /\ exports (outputOptions cfg)
     = match detectExportType world entry fmt with
       | Some _ => Some "default"
       | None => None
       end
  /\ paths (outputOptions cfg)
     = (if multipleEntries options
        then <["." := "./" +:+ basename (output options)]> ∅
        else ∅)
  /\ globals (outputOptions cfg) = collect_globals (external (inputOptions cfg))
  /\ format (outputOptions cfg) = fmt
  /\ file (outputOptions cfg) = destination world options entry fmt.
Proof.
  unfold createConfig, baseExternal. intros Hcfg.
  destruct (multipleEntries options);
    [|rewrite app_nil_r];
    destruct (resolveDependencies _ _) as [[u e]|]; try done;
    destruct (compileMangle world options) as [[]|]; try done;
    injection Hcfg as <-; cbn; (split; [by eexists|]); repeat split.
Qed.

(** A config is returned only when the pattern of [mangle.regex], if it
    is to be compiled, compiles. *)
Lemma createConfig_compiles world options entry fmt writeMeta cfg :
  createConfig world options entry fmt writeMeta = Ok cfg ->
  compileMangle world options = Ok tt.
Proof.
  unfold createConfig.
  destruct (multipleEntries options);
    destruct (resolveDependencies _ _) as [[u e]|]; try done;
    by destruct (compileMangle world options) as [[]|].
Qed.

(** [createConfig] returns a config when the manifest has the
    dependencies an externalizing mode reads and the pattern compiles. *)
Lemma createConfig_total world options entry fmt writeMeta :
  (externalizes_dependencies (given options) = true ->
   pkg_dependencies (pkg options) <> None) ->
  compileMangle world options = Ok tt ->
  exists cfg, createConfig world options entry fmt writeMeta = Ok cfg.
Proof.
  intros Hdeps Hmangle. unfold createConfig. rewrite Hmangle.
  assert (Hres : forall external, exists r, resolveDependencies options external = Ok r).
  { intros external.
    destruct (externalizes_dependencies (given options)) eqn:Hmode.
    - destruct (pkg_dependencies (pkg options)) as [deps|] eqn:Hd; [|by destruct Hdeps].
      eexists. by eapply resolveDependencies_externalizes.
    - eexists. by apply resolveDependencies_bundles. }
  destruct (multipleEntries options).
  - destruct (Hres ((["dns"; "fs"; "path"; "url"]
        ++ default [] (pkg_peerDependencies (pkg options))
        ++ filter (fun e => e <> entry) (entries options)) ++ ["."])) as [[u e] ->].
    by eexists.
  - destruct (Hres (["dns"; "fs"; "path"; "url"]
        ++ default [] (pkg_peerDependencies (pkg options))
        ++ filter (fun e => e <> entry) (entries options))) as [[u e] ->].
    by eexists.
Qed.

(** [createConfig] throws what reading the dependencies throws, or else
    what compiling the mangle pattern throws. *)
Lemma createConfig_throws world options entry fmt writeMeta e :
  createConfig world options entry fmt writeMeta = Throw e
  <-> resolveDependencies options (baseExternal options entry) = Throw e
      \/ ((exists r, resolveDependencies options (baseExternal options entry) = Ok r)
          /\ compileMangle world options = Throw e).
Proof.
  unfold createConfig, baseExternal.
  destruct (multipleEntries options);
    [|rewrite app_nil_r];
    (destruct (resolveDependencies _ _) as [[u ext]|e'];
     [destruct (compileMangle world options) as [[]|e'']|]);
    (split;
     [intros Hx;
      first [discriminate Hx
            |injection Hx as <-; first [by left|right; split; [by eexists|done]]]
     |intros [Hx|[[r Hr] Hx]];
      first [discriminate Hx|discriminate Hr|by injection Hx as <-]]).
Qed.

Lemma externalizes_dependencies_iff options :
  externalizes_dependencies options = true
  <-> o_inline options <> Some "all"
      /\ (o_external options = Some "all" \/ o_inline options = Some "none").
Proof.
  assert (Hf : forall o s, field_is o s = true <-> o = Some s).
  { intros [x|] s0; simpl; [|done]. rewrite String.eqb_eq. split; congruence. }
  unfold externalizes_dependencies.
  rewrite andb_true_iff, negb_true_iff, orb_true_iff, !Hf.
  rewrite <- not_true_iff_false, Hf. done.
Qed.

End ConfigFacts.

(* ===================================================================== *)
(** * Dependencies as externals (index.js, lines 141-148) *)
(* ===================================================================== *)

Module Dependencies.
Import Microbundle ConfigFacts.

(** C10, as the code has it. [createConfig] throws the TypeError of
    [Object.keys(pkg.dependencies)] exactly when inline is not 'all', the
    mode is external 'all' or inline 'none', and the manifest has no
    [dependencies]: the set is not taken as empty. Inline 'all' is tested
    first and is the bundling mode whatever external is: [dependencies]
    is not read then. In an externalizing mode every config that is
    returned has every dependency of the manifest among its externals. *)
Theorem createConfig_needs_dependencies (world : World) (options : Resolved)
    (entry fmt : string) (writeMeta : bool) :
  (createConfig world options entry fmt writeMeta
   = Throw (TypeError "Cannot convert undefined or null to object")
   <-> o_inline (given options) <> Some "all"
       /\ (o_external (given options) = Some "all"
           \/ o_inline (given options) = Some "none")
       /\ pkg_dependencies (pkg options) = None)
  /\ (forall cfg dependencies,
        createConfig world options entry fmt writeMeta = Ok cfg ->
        o_inline (given options) <> Some "all" ->
        o_external (given options) = Some "all"
        \/ o_inline (given options) = Some "none" ->
        pkg_dependencies (pkg options) = Some dependencies ->
        forall d, d ∈ dependencies -> d ∈ external (inputOptions cfg)).
Proof.
  split.
  - pose proof (externalizes_dependencies_iff (given options)) as Hiff. split.
    + unfold createConfig. intros Hthrow.
      assert (Hwhy : externalizes_dependencies (given options) = true
                     /\ pkg_dependencies (pkg options) = None).
      { destruct (multipleEntries options);
          (destruct (resolveDependencies _ _) as [[u ext]|e] eqn:Hres;
           [unfold compileMangle in Hthrow; by destruct (_ && negb _)
           |by apply resolveDependencies_Throw in Hres]). }
      destruct Hwhy as [Hmode Hnone]. apply Hiff in Hmode. tauto.
    + intros (Hinline & Hmode & Hnone).
      assert (Hext : externalizes_dependencies (given options) = true)
        by (apply Hiff; tauto).
      unfold createConfig.
      destruct (multipleEntries options); by rewrite resolveDependencies_throws.
  - intros cfg deps Hcfg Hinline Hmode Hdeps.
    assert (Hext : externalizes_dependencies (given options) = true).
    { by apply externalizes_dependencies_iff. }
    destruct (createConfig_Ok _ _ _ _ _ _ Hcfg) as ([u Hres] & _).
    rewrite (resolveDependencies_externalizes _ _ deps) in Hres by done.
    assert (Hext' : external (inputOptions cfg) = baseExternal options entry ++ deps)
      by congruence.
    rewrite Hext'. intros d Hd. apply elem_of_app. by right.
Qed.

(** [--external all] in a project whose manifest has no dependencies. *)
Lemma createConfig_needs_dependencies_witness :
  createConfig (Example.world (Example.filesystem (inl "ENOENT") [] []))
    (Example.resolved (Example.externalizing (Example.options [] "cjs"))
       (Example.manifest "lib") ["/proj/src/index.js"])
    "/proj/src/index.js" "cjs" true
  = Throw (TypeError "Cannot convert undefined or null to object").
Proof.
  apply (createConfig_needs_dependencies
           (Example.world (Example.filesystem (inl "ENOENT") [] []))
           (Example.resolved (Example.externalizing (Example.options [] "cjs"))
              (Example.manifest "lib") ["/proj/src/index.js"])
           "/proj/src/index.js" "cjs" true).
  split; [discriminate|]. split; [left|]; reflexivity.
Defined.

Definition inlining_all (o : Options) : Options :=
  {| o_cwd := o_cwd o; o_entries := o_entries o; o_format := o_format o;
     o_formats := o_formats o; o_output := o_output o; o_watch := o_watch o;
     o_inline := Some "all"; o_external := o_external o;
     o_strict := o_strict o; o_compress := o_compress o; o_target := o_target o |}.

(** C10 fails as stated: with external 'all' and inline 'all' and a
    manifest without [dependencies], a config is returned. *)
Lemma createConfig_needs_dependencies_counterexample :
  o_external (inlining_all (Example.externalizing (Example.options [] "cjs"))) = Some "all"
  /\ pkg_dependencies (Example.manifest "lib") = None
  /\ exists cfg,
       createConfig (Example.world (Example.filesystem (inl "ENOENT") [] []))
         (Example.resolved (inlining_all (Example.externalizing (Example.options [] "cjs")))
            (Example.manifest "lib") ["/proj/src/index.js"])
         "/proj/src/index.js" "cjs" true
       = Ok cfg
       /\ external (inputOptions cfg) = ["dns"; "fs"; "path"; "url"].
Proof.
  split; [reflexivity|]. split; [reflexivity|].
  eexists. split; [vm_compute; reflexivity|reflexivity].
Qed.

End Dependencies.

(* ===================================================================== *)
(** * The cross-entry alias (index.js, lines 134-139) *)
(* ===================================================================== *)

Module Alias.
Import Path Microbundle ConfigFacts.

(** C6, as the code has it. When the run has multiple entries, every
    config [createConfig] returns (whatever its entry and format) maps
    the literal [.] to [./<basename of the main output path>] and nothing
    else, and has [.] among its externals; with a single entry no config
    has an alias. *)
Theorem cross_entry_alias (world : World) (options : Resolved)
    (entry fmt : string) (writeMeta : bool) (cfg : BuildConfig) :
  createConfig world options entry fmt writeMeta = Ok cfg ->
  (multipleEntries options = true ->
   paths (outputOptions cfg) !! "." = Some ("./" +:+ basename (output options))
   /\ (forall k, k <> "." -> paths (outputOptions cfg) !! k = None)
   /\ "." ∈ external (inputOptions cfg))
  /\ (multipleEntries options = false -> paths (outputOptions cfg) = ∅).
Proof.
  intros Hcfg.
  destruct (createConfig_Ok _ _ _ _ _ _ Hcfg) as ([u Hres] & _ & _ & Hpaths & _).
  split.
  - intros Hmulti. rewrite Hpaths, Hmulti. split; [apply lookup_insert_eq|]. split.
    + intros k Hk. by rewrite lookup_insert_ne.
    + apply resolveDependencies_incl in Hres as [deps ->].
      unfold baseExternal. rewrite Hmulti.
      apply elem_of_app. left. apply elem_of_app. right. left.
  - intros Hsingle. by rewrite Hpaths, Hsingle.
Qed.

Definition two_entries : Resolved :=
  Example.resolved (Example.options [] "cjs") (Example.manifest "lib")
    ["/proj/src/index.js"; "/proj/src/cli.js"].

Lemma cross_entry_alias_witness :
  exists cfg,
    createConfig (Example.world (Example.filesystem (inl "ENOENT") [] []))
      two_entries "/proj/src/index.js" "cjs" true = Ok cfg
    /\ paths (outputOptions cfg) !! "." = Some "./lib.js"
    /\ "." ∈ external (inputOptions cfg).
Proof.
  eexists. split; [vm_compute; reflexivity|].
  destruct (cross_entry_alias (Example.world (Example.filesystem (inl "ENOENT") [] []))
              two_entries "/proj/src/index.js" "cjs" true _ eq_refl)
    as (Hmulti & _).
  destruct (Hmulti eq_refl) as (Hdot & _ & Hext). split; [exact Hdot|exact Hext].
Defined.

(** C6 fails as stated: the config of the second entry carries the
    alias as well. *)
Lemma cross_entry_alias_counterexample :
  exists first second,
    steps_of (Example.world (Example.filesystem (inl "ENOENT") [] [])) two_entries ["cjs"]
    = Ok [first; second]
    /\ plugins (inputOptions second) !! 0%nat = Some (alias "/proj/src/cli.js")
    /\ paths (outputOptions second) !! "." = Some "./lib.js"
    /\ "." ∈ external (inputOptions second).
Proof.
  eexists _, _. split; [vm_compute; reflexivity|].
  split; [reflexivity|]. split; [vm_compute; reflexivity|].
  cbn. by_evaluation.
Qed.

End Alias.

(* ===================================================================== *)
(** * What the matcher finds *)
(* ===================================================================== *)

Module Matching.
Import Regex.

Section Matching.
Context {C : Type} `{Alphabet C}.

(** The character before what follows [consumed], itself after [prev]. *)
Definition before_rest (prev : option C) (consumed : list C) : option C :=
  match last consumed with Some c => Some c | None => prev end.

(** [r] matches [consumed], which stands after [prev] and before
    [rest]. *)
Fixpoint spans (r : regex (C := C)) (prev : option C) (consumed rest : list C) : Prop :=
  match r with
  | Eps => consumed = []
  | Chr p => exists c, consumed = [c] /\ p c = true
  | Seq a b =>
      exists c1 c2, consumed = c1 ++ c2
        /\ spans a prev c1 (c2 ++ rest)
        /\ spans b (before_rest prev c1) c2 rest
  | Alt a b => spans a prev consumed rest \/ spans b prev consumed rest
  | Star p => Forall (fun c => p c = true) consumed
  | Bos => consumed = [] /\ prev = None
  | Eos => consumed = [] /\ rest = []
  | Bol =>
      consumed = []
      /\ match prev with Some c => is_line_terminator c = true | None => True end
  | WordB => consumed = [] /\ xorb (word_before prev) (word_after rest) = true
  end.

Lemma before_rest_cons prev c l : before_rest prev (c :: l) = before_rest (Some c) l.
Proof.
  unfold before_rest. destruct l as [|d l]; [done|].
  change (last (c :: d :: l)) with (last (d :: l)).
  destruct (last (d :: l)) eqn:Hlast; [done|]. by apply last_None in Hlast.
Qed.

Lemma before_rest_app prev l1 l2 :
  before_rest prev (l1 ++ l2) = before_rest (before_rest prev l1) l2.
Proof.
  revert prev. induction l1 as [|c l1 IH]; intros prev; [done|].
  cbn [app]. rewrite !before_rest_cons. apply IH.
Qed.

(** What the matcher finds is a match. *)
Lemma run_sound {R} (r : regex (C := C)) prev s (k : option C -> list C -> option R) x :
  run r prev s k = Some x ->
  exists consumed rest,
    s = consumed ++ rest /\ spans r prev consumed rest
    /\ k (before_rest prev consumed) rest = Some x.
Proof.
  revert prev s k x.
  induction r as [|q|a IHa b IHb|a IHa b IHb|q| | | |]; intros prev s k x; cbn [run].
  - intros Hk. by exists [], s.
  - destruct s as [|c s]; [done|]. destruct (q c) eqn:Hq; [|done].
    intros Hk. exists [c], s. repeat split; [|done]. by exists c.
  - intros Hrun.
    destruct (IHa _ _ _ _ Hrun) as (c1 & r1 & -> & Ha & Hrun').
    destruct (IHb _ _ _ _ Hrun') as (c2 & r2 & -> & Hb & Hk).
    exists (c1 ++ c2), r2. rewrite <- app_assoc, before_rest_app.
    repeat split; [|done]. by exists c1, c2.
  - destruct (run a prev s k) as [y|] eqn:Hrun.
    + intros [= <-]. destruct (IHa _ _ _ _ Hrun) as (c1 & r1 & -> & Ha & Hk).
      exists c1, r1. repeat split; [by left|done].
    + intros Hrun'. destruct (IHb _ _ _ _ Hrun') as (c1 & r1 & -> & Hb & Hk).
      exists c1, r1. repeat split; [by right|done].
  - revert prev. induction s as [|c s IHs]; intros prev.
    + intros Hk. exists [], []. repeat split; [constructor|done].
    + destruct (q c) eqn:Hq;
        [|intros Hk; exists [], (c :: s); repeat split; [constructor|done]].
      match goal with |- context [match ?m with Some _ => _ | None => _ end] =>
        destruct m as [y|] eqn:Hstar end.
      * intros [= <-]. destruct (IHs _ Hstar) as (c1 & r1 & -> & Hc1 & Hk).
        exists (c :: c1), r1. rewrite before_rest_cons.
        repeat split; [|done]. by constructor.
      * intros Hk. exists [], (c :: s). repeat split; [constructor|done].
  - destruct prev; [done|]. intros Hk. by exists [], s.
  - destruct s as [|c s]; [|done]. intros Hk. by exists [], [].
  - destruct prev as [c|].
    + destruct (is_line_terminator c) eqn:Hc; [|done]. intros Hk. by exists [], s.
    + intros Hk. by exists [], s.
  - destruct (xorb _ _) eqn:Hb; [|done]. intros Hk. by exists [], s.
Qed.

(** A match after which the rest is accepted is not missed. *)
Lemma run_complete {R} (r : regex (C := C)) prev consumed rest
    (k : option C -> list C -> option R) :
  spans r prev consumed rest ->
  is_Some (k (before_rest prev consumed) rest) ->
  is_Some (run r prev (consumed ++ rest) k).
Proof.
  revert prev consumed rest k.
  induction r as [|q|a IHa b IHb|a IHa b IHb|q| | | |];
    intros prev consumed rest k; cbn [run spans].
  - by intros ->.
  - intros (c & -> & Hq). cbn [app]. by rewrite Hq.
  - intros (c1 & c2 & -> & Ha & Hb) Hk. rewrite <- app_assoc.
    apply IHa; [done|]. apply IHb; [done|]. by rewrite <- before_rest_app.
  - intros [Ha|Hb] Hk.
    + destruct (IHa _ _ _ k Ha Hk) as [y ->]. by eexists.
    + destruct (run a prev (consumed ++ rest) k); [by eexists|]. by apply IHb.
  - intros Hall. revert prev. induction Hall as [|c cs Hc Hcs IH]; intros prev Hk.
    + cbn [app]. destruct rest as [|c rest]; [done|].
      destruct (q c); [|done].
      match goal with |- context [match ?m with Some _ => _ | None => _ end] =>
        destruct m as [y|] end; [by eexists|done].
    + cbn [app]. rewrite Hc. rewrite before_rest_cons in Hk.
      destruct (IH (Some c) Hk) as [y Hy]. cbn in Hy. rewrite Hy. by eexists.
  - by intros [-> ->].
  - by intros [-> ->].
  - intros [-> Hprev]. cbn [app]. destruct prev as [c|]; [|done]. by rewrite Hprev.
  - intros [-> Hb]. cbn [app]. by rewrite Hb.
Qed.

(** [test]: there is a match somewhere. *)
Lemma search_spec (r : regex (C := C)) prev s :
  search r prev s = true
  <-> exists before consumed rest,
        s = before ++ consumed ++ rest
        /\ spans r (before_rest prev before) consumed rest.
Proof.
  split.
  - revert prev. induction s as [|c s IH]; intros prev; cbn [search].
    + destruct (match_here r prev []) as [left|] eqn:Hm; [|done]. intros _.
      apply run_sound in Hm as (consumed & rest & Heq & Hspans & _).
      by exists [], consumed, rest.
    + destruct (match_here r prev (c :: s)) as [left|] eqn:Hm.
      * intros _. apply run_sound in Hm as (consumed & rest & Heq & Hspans & _).
        by exists [], consumed, rest.
      * intros Hs. destruct (IH _ Hs) as (before & consumed & rest & -> & Hspans).
        exists (c :: before), consumed, rest. by rewrite before_rest_cons.
  - intros (before & consumed & rest & -> & Hspans).
    revert prev Hspans. induction before as [|c before IH]; intros prev Hspans.
    + assert (Hsome : is_Some (match_here r prev (consumed ++ rest))).
      { apply run_complete; [done|by eexists]. }
      destruct Hsome as [left Hleft]. cbn [app].
      destruct (consumed ++ rest); cbn [search]; by rewrite Hleft.
    + cbn [app search]. destruct (match_here r prev _); [done|].
      apply IH. by rewrite before_rest_cons in Hspans.
Qed.

Lemma spans_seqs (r : regex (C := C)) rs prev consumed rest :
  spans (seqs (r :: rs)) prev consumed rest
  <-> exists c1 c2, consumed = c1 ++ c2
        /\ spans r prev c1 (c2 ++ rest)
        /\ spans (seqs rs) (before_rest prev c1) c2 rest.
Proof.
  destruct rs as [|r' rs]; [|done]. cbn [seqs spans]. split.
  - intros Hr. exists consumed, []. by rewrite app_nil_r.
  - intros (c1 & c2 & -> & Hr & ->). by rewrite app_nil_r in *.
Qed.

End Matching.
End Matching.


(* ===================================================================== *)
(** * The export forms the detector knows (index.js, lines 182-183) *)
(* ===================================================================== *)

Module ExportForms.
Import Regex Microbundle Matching.

(** The export forms the detector knows, said without the patterns.
    White space is what [\s] takes. *)
Definition white (ws : list N) : Prop := Forall (fun n => is_space n = true) ws.

(** No word character stands before: a letter, a digit or [_]. *)
Definition after_non_word (before : list N) : Prop :=
  match last before with Some n => is_word n = false | None => True end.

(** At the start of the text or after a line terminator. *)
Definition at_line_start (before : list N) : Prop :=
  match last before with Some n => is_line_terminator n = true | None => True end.

(** [export default] and then a letter, [_] or [$]. *)
Definition default_export (file : list N) : Prop :=
  exists before ws1 ws2 c after,
    file = before ++ units "export" ++ ws1 ++ units "default" ++ ws2 ++ c :: after
    /\ after_non_word before /\ white ws1 /\ white ws2 /\ ident_startU c = true.

Definition declaration_keywords : list string :=
  ["let"; "const"; "var"; "async"; "function"; "function*"].

(** [export], one of the keywords, and then a letter, [_], [$] or
    [*]. *)
Definition named_declaration (file : list N) : Prop :=
  exists before ws1 keyword ws2 c after,
    file = before ++ units "export" ++ ws1 ++ units keyword ++ ws2 ++ c :: after
    /\ after_non_word before /\ white ws1 /\ keyword ∈ declaration_keywords
    /\ white ws2 /\ (ident_startU c || one_ofU "*" c) = true.

(** A line that starts with [export {]. *)
Definition export_list (file : list N) : Prop :=
  exists before ws1 ws2 after,
    file = before ++ ws1 ++ units "export" ++ ws2 ++ units "{" ++ after
    /\ at_line_start before /\ white ws1 /\ white ws2.

Definition named_export (file : list N) : Prop :=
  named_declaration file \/ export_list file.

Lemma before_rest_None (before : list N) : before_rest None before = last before.
Proof. unfold before_rest. by destruct (last before). Qed.

Lemma spans_literal (l : list N) prev consumed rest :
  spans (seqs (map (fun n => Chr (N.eqb n)) l)) prev consumed rest <-> consumed = l.
Proof.
  revert prev consumed. induction l as [|n l IH]; intros prev consumed; [done|].
  cbn [map]. rewrite spans_seqs. split.
  - intros (c1 & c2 & -> & (c & -> & Hc) & Hrest).
    apply N.eqb_eq in Hc. subst c. apply IH in Hrest. by subst c2.
  - intros ->. exists [n], l. split; [done|]. split.
    + exists n. split; [done|]. apply N.eqb_refl.
    + by apply IH.
Qed.

Lemma spans_litU w prev consumed rest :
  spans (litU w) prev consumed rest <-> consumed = units w.
Proof. apply spans_literal. Qed.

Lemma word_boundary_before_export (before rest : list N) :
  xorb (word_before (before_rest None before)) (word_after (units "export" ++ rest)) = true
  <-> after_non_word before.
Proof.
  rewrite before_rest_None. unfold after_non_word, word_before.
  change (word_after (units "export" ++ rest)) with true.
  destruct (last before) as [n|]; [|done].
  destruct (is_word n); cbn; split; done.
Qed.

(** The patterns find these forms and no other. *)
Lemma hasDefault_spec file : hasDefault file = true <-> default_export file.
Proof.
  unfold hasDefault, test. rewrite search_spec. unfold re_export_default. split.
  - intros (before & consumed & rest & -> & Hspans).
    apply spans_seqs in Hspans as (c0 & c1 & -> & [-> Hb] & Hspans).
    apply spans_seqs in Hspans as (c2 & c3 & -> & He & Hspans).
    apply spans_litU in He as ->.
    apply spans_seqs in Hspans as (ws1 & c4 & -> & Hws1 & Hspans).
    apply spans_seqs in Hspans as (c5 & c6 & -> & Hd & Hspans).
    apply spans_litU in Hd as ->.
    apply spans_seqs in Hspans as (ws2 & c7 & -> & Hws2 & Hspans).
    destruct Hspans as (c & -> & Hc).
    exists before, ws1, ws2, c, rest.
    split; [by rewrite <- !app_assoc|].
    split; [|done].
    cbn [app] in Hb. rewrite <- !app_assoc in Hb.
    by apply word_boundary_before_export in Hb.
  - intros (before & ws1 & ws2 & c & after & -> & Hb & Hws1 & Hws2 & Hc).
    exists before, (units "export" ++ ws1 ++ units "default" ++ ws2 ++ [c]), after.
    split; [by rewrite <- !app_assoc|].
    apply spans_seqs. exists [], (units "export" ++ ws1 ++ units "default" ++ ws2 ++ [c]).
    split; [done|]. split.
    { split; [done|]. rewrite <- !app_assoc. by apply word_boundary_before_export. }
    apply spans_seqs. eexists _, _. split; [done|]. split; [by apply spans_litU|].
    apply spans_seqs. eexists _, _. split; [done|]. split; [exact Hws1|].
    apply spans_seqs. eexists _, _. split; [done|]. split; [by apply spans_litU|].
    apply spans_seqs. eexists _, _. split; [done|]. split; [exact Hws2|].
    by exists c.
Qed.

Lemma spans_keyword prev consumed rest :
  spans (alts [litU "let"; litU "const"; litU "var"; litU "async";
               Seq (litU "function") (Opt (litU "*"))]) prev consumed rest
  <-> exists keyword, keyword ∈ declaration_keywords /\ consumed = units keyword.
Proof.
  unfold Opt. cbn [alts spans]. rewrite !spans_litU. split.
  - intros [->|[->|[->|[->|(c1 & c2 & -> & Hf & Hstar)]]]].
    + exists "let". split; [|done]. unfold declaration_keywords. set_solver.
    + exists "const". split; [|done]. unfold declaration_keywords. set_solver.
    + exists "var". split; [|done]. unfold declaration_keywords. set_solver.
    + exists "async". split; [|done]. unfold declaration_keywords. set_solver.
    + apply spans_litU in Hf as ->. destruct Hstar as [Hstar| ->].
      * apply spans_litU in Hstar as ->.
        exists "function*". split; [|done]. unfold declaration_keywords. set_solver.
      * exists "function". split; [|by rewrite app_nil_r].
        unfold declaration_keywords. set_solver.
  - intros (keyword & Hin & ->). unfold declaration_keywords in Hin.
    rewrite !elem_of_cons, elem_of_nil in Hin.
    destruct Hin as [->|[->|[->|[->|[->|[->|[]]]]]]]; auto.
    + do 4 right. exists (units "function"), []. split; [done|].
      split; [by apply spans_litU|]. by right.
    + do 4 right. exists (units "function"), (units "*"). split; [done|].
      split; [by apply spans_litU|]. left. by apply spans_litU.
Qed.

Lemma declaration_spec file :
  test re_export_declaration file = true <-> named_declaration file.
Proof.
  unfold test. rewrite search_spec. unfold re_export_declaration. split.
  - intros (before & consumed & rest & -> & Hspans).
    apply spans_seqs in Hspans as (c0 & c1 & -> & [-> Hb] & Hspans).
    apply spans_seqs in Hspans as (c2 & c3 & -> & He & Hspans).
    apply spans_litU in He as ->.
    apply spans_seqs in Hspans as (ws1 & c4 & -> & Hws1 & Hspans).
    apply spans_seqs in Hspans as (c5 & c6 & -> & Hk & Hspans).
    apply spans_keyword in Hk as (keyword & Hin & ->).
    apply spans_seqs in Hspans as (ws2 & c7 & -> & Hws2 & Hspans).
    destruct Hspans as (c & -> & Hc).
    exists before, ws1, keyword, ws2, c, rest.
    split; [by rewrite <- !app_assoc|].
    split; [|done].
    cbn [app] in Hb. rewrite <- !app_assoc in Hb.
    by apply word_boundary_before_export in Hb.
  - intros (before & ws1 & keyword & ws2 & c & after & -> & Hb & Hws1 & Hin & Hws2 & Hc).
    exists before, (units "export" ++ ws1 ++ units keyword ++ ws2 ++ [c]), after.
    split; [by rewrite <- !app_assoc|].
    apply spans_seqs. exists [], (units "export" ++ ws1 ++ units keyword ++ ws2 ++ [c]).
    split; [done|]. split.
    { split; [done|]. rewrite <- !app_assoc. by apply word_boundary_before_export. }
    apply spans_seqs. eexists _, _. split; [done|]. split; [by apply spans_litU|].
    apply spans_seqs. eexists _, _. split; [done|]. split; [exact Hws1|].
    apply spans_seqs. eexists _, _. split; [done|].
    split; [apply spans_keyword; by exists keyword|].
    apply spans_seqs. eexists _, _. split; [done|]. split; [exact Hws2|].
    by exists c.
Qed.

Lemma list_spec file : test re_export_list file = true <-> export_list file.
Proof.
  unfold test. rewrite search_spec. unfold re_export_list. split.
  - intros (before & consumed & rest & -> & Hspans).
    apply spans_seqs in Hspans as (c0 & c1 & -> & [-> Hb] & Hspans).
    apply spans_seqs in Hspans as (ws1 & c2 & -> & Hws1 & Hspans).
    apply spans_seqs in Hspans as (c3 & c4 & -> & He & Hspans).
    apply spans_litU in He as ->.
    apply spans_seqs in Hspans as (ws2 & c5 & -> & Hws2 & Hspans).
    apply spans_litU in Hspans as ->.
    exists before, ws1, ws2, rest.
    split; [by rewrite <- !app_assoc|].
    split; [|done]. rewrite before_rest_None in Hb. exact Hb.
  - intros (before & ws1 & ws2 & after & -> & Hb & Hws1 & Hws2).
    exists before, (ws1 ++ units "export" ++ ws2 ++ units "{"), after.
    split; [by rewrite <- !app_assoc|].
    apply spans_seqs. exists [], (ws1 ++ units "export" ++ ws2 ++ units "{").
    split; [done|]. split.
    { split; [done|]. rewrite before_rest_None. exact Hb. }
    apply spans_seqs. eexists _, _. split; [done|]. split; [exact Hws1|].
    apply spans_seqs. eexists _, _. split; [done|]. split; [by apply spans_litU|].
    apply spans_seqs. eexists _, _. split; [done|]. split; [exact Hws2|].
    by apply spans_litU.
Qed.

Lemma hasNamed_spec file : hasNamed file = true <-> named_export file.
Proof.
  unfold hasNamed, named_export.
  rewrite orb_true_iff, declaration_spec, list_spec. done.
Qed.

End ExportForms.


(* ===================================================================== *)
(** * The export shape (index.js, lines 178-191 and 283-285) *)
(* ===================================================================== *)

Module ExportShape.
Import Regex Microbundle ConfigFacts ExportForms.

(** The wrapper is called for: a format other than 'es', an entry that
    can be read, and both forms in its text. *)
Definition shape_detected (world : World) (entry fmt : string) : Prop :=
  fmt <> "es"
  /\ exists file,
       readFileSync (fs world) entry = Some file
       /\ default_export file /\ named_export file.

Lemma detectExportType_spec world entry fmt :
  (shape_detected world entry fmt -> detectExportType world entry fmt = Some "default")
  /\ (~ shape_detected world entry fmt -> detectExportType world entry fmt = None).
Proof.
  unfold shape_detected, detectExportType.
  destruct (String.eqb fmt "es") eqn:Hfmt; cbn [negb].
  { apply String.eqb_eq in Hfmt. split; [by intros [? _]|done]. }
  apply String.eqb_neq in Hfmt.
  destruct (readFileSync (fs world) entry) as [file|].
  2:{ split; [by intros (_ & ? & ? & _)|done]. }
  pose proof (hasDefault_spec file) as Hd. pose proof (hasNamed_spec file) as Hn.
  destruct (hasDefault file); cbn [andb].
  - destruct (hasNamed file).
    + split; [done|]. intros Hno. exfalso. apply Hno. split; [done|].
      exists file. split; [done|]. split; [by apply Hd|by apply Hn].
    + split; [|done]. intros (_ & f & [= <-] & _ & Hnamed).
      apply Hn in Hnamed. done.
  - split; [|done]. intros (_ & f & [= <-] & Hdefault & _).
    apply Hd in Hdefault. done.
Qed.

(** C5, as the code has it. The detector knows a default export by
    [export default] followed by a letter, [_] or [$], and a named export
    by [export] followed by [let], [const], [var], [async], [function] or
    [function*] and then a letter, [_], [$] or [*], or by a line that
    starts with [export {] (white space allowed between the words, and
    [export] not after a word character). For an entry that can be read
    and whose text has both forms, a config for a format other than 'es'
    takes the wrapper entry as its input and has exports mode 'default'.
    In every other case (format 'es', an entry that cannot be read, a
    text without one of the forms) the input is the entry itself and no
    exports mode is set. *)
Theorem export_shape_wrapper (world : World) (options : Resolved)
    (entry fmt : string) (writeMeta : bool) (cfg : BuildConfig) :
  createConfig world options entry fmt writeMeta = Ok cfg ->
  (shape_detected world entry fmt ->
   input (inputOptions cfg) = wrapper_entry world
   /\ exports (outputOptions cfg) = Some "default")
  /\ (~ shape_detected world entry fmt ->
      input (inputOptions cfg) = entry /\ exports (outputOptions cfg) = None).
Proof.
  intros Hcfg.
  destruct (createConfig_Ok _ _ _ _ _ _ Hcfg) as (_ & Hin & Hex & _).
  rewrite Hin, Hex.
  destruct (detectExportType_spec world entry fmt) as [Hyes Hno].
  split; intros Hshape.
  - by rewrite (Hyes Hshape).
  - by rewrite (Hno Hshape).
Qed.

Definition both_shapes : FileSystem :=
  Example.filesystem (inl "ENOENT") ["/proj/src"]
    [("/proj/src/index.js", "export default foo
export const bar = 1")].

Definition one_entry : Resolved :=
  Example.resolved (Example.options [] "umd,es") (Example.manifest "lib")
    ["/proj/src/index.js"].

(** The scenario of the specification: [export default foo] and
    [export const bar = 1], built for umd and for es. *)
Lemma export_shape_wrapper_witness :
  (exists cfg,
     createConfig (Example.world both_shapes) one_entry "/proj/src/index.js" "umd" true
     = Ok cfg
     /\ input (inputOptions cfg) = "/proj/node_modules/microbundle/src/lib/__entry__.js"
     /\ exports (outputOptions cfg) = Some "default")
  /\ (exists cfg,
     createConfig (Example.world both_shapes) one_entry "/proj/src/index.js" "es" false
     = Ok cfg
     /\ input (inputOptions cfg) = "/proj/src/index.js"
     /\ exports (outputOptions cfg) = None).
Proof.
  split.
  - eexists. split; [vm_compute; reflexivity|].
    apply (export_shape_wrapper (Example.world both_shapes) one_entry
             "/proj/src/index.js" "umd" true _ eq_refl).
    split; [discriminate|]. eexists. split; [reflexivity|].
    split; [by apply hasDefault_spec|by apply hasNamed_spec].
  - eexists. split; [vm_compute; reflexivity|].
    apply (export_shape_wrapper (Example.world both_shapes) one_entry
             "/proj/src/index.js" "es" false _ eq_refl).
    by intros [Hes _].
Defined.

(** What the two patterns do and do not find. *)
Example patterns_found :
  hasDefault (units "export default class Foo {}") = true
  /\ hasNamed (units "  export { a, b }") = true
  /\ hasNamed (units "export async function load() {}") = true
  /\ hasDefault (units "export default { a: 1 }") = false
  /\ hasNamed (units "export class Foo {}") = false.
Proof. repeat split. Qed.

Definition object_default : FileSystem :=
  Example.filesystem (inl "ENOENT") ["/proj/src"]
    [("/proj/src/index.js", "export default { a: 1 }
export const bar = 1")].

(** C5 fails as stated: an entry that exports an object literal by
    default, and a constant by name, is built for 'cjs' without
    the wrapper. *)
Lemma export_shape_wrapper_counterexample :
  exists cfg,
    createConfig (Example.world object_default) one_entry "/proj/src/index.js" "cjs" true
    = Ok cfg
    /\ input (inputOptions cfg) = "/proj/src/index.js"
    /\ exports (outputOptions cfg) = None.
Proof. eexists. split; [vm_compute; reflexivity|]. split; reflexivity. Qed.

End ExportShape.

(* ===================================================================== *)
(** * Globals (index.js, lines 150-156) *)
(* ===================================================================== *)

Module Globals.
Import Regex Microbundle ConfigFacts.

(** What [/^[a-z_$][a-z0-9_$]*$/] accepts: a lowercase letter, [_] or [$],
    then lowercase letters, digits, [_] and [$]. *)
Definition lowercase_identifier (name : string) : bool :=
  match chars name with
  | c :: rest => (lower c || one_of "_$" c) && forallb ident_rest rest
  | [] => false
  end.

(** A bare identifier of the language, over ASCII: a letter of either
    case, [_] or [$], then letters, digits, [_] and [$]. *)
Definition ascii_identifier (name : string) : bool :=
  match chars name with
  | c :: rest =>
      (lower c || in_range "A" "Z" c || one_of "_$" c)
      && forallb (fun c => ident_rest c || in_range "A" "Z" c) rest
  | [] => false
  end.

Lemma run_star_eos (p : ascii -> bool) prev s :
  run (Seq (Star p) Eos) prev s (fun _ rest => Some rest)
  = if forallb p s then Some [] else None.
Proof.
  cbn [run]. revert prev. induction s as [|c s IH]; intros prev; [done|].
  cbn [forallb]. destruct (p c); [|done]. rewrite IH.
  by destruct (forallb p s).
Qed.

Lemma search_bos_later (r : regex (C := ascii)) c s :
  search (Seq Bos r) (Some c) s = false.
Proof. revert c. induction s as [|d s IH]; intros c; [done|]. cbn. apply IH. Qed.

Lemma re_identifier_spec name : matches re_identifier name = lowercase_identifier name.
Proof.
  unfold matches, test, lowercase_identifier, re_identifier.
  destruct (chars name) as [|c rest]; [done|].
  cbn [seqs search]. unfold match_here. cbn [run].
  destruct (lower c || one_of "_$" c); cbn [andb]; [|apply search_bos_later].
  pose proof (run_star_eos ident_rest (Some c) rest) as Hstar. cbn [run] in Hstar.
  rewrite Hstar. destruct (forallb ident_rest rest); [done|]. apply search_bos_later.
Qed.

(** Whether the loop registers a name: the pattern, and not the one
    name whose assignment makes no property. *)
Definition registered (name : string) : bool :=
  matches re_identifier name && negb (String.eqb name "__proto__").

Lemma collect_globals_from external (acc : gmap string string) name :
  fold_left (fun globals name =>
               if matches re_identifier name
               then (if String.eqb name "__proto__" then globals
                     else <[name := name]> globals)
               else globals)
    external acc !! name
  = if decide (name ∈ external /\ registered name = true)
    then Some name else acc !! name.
Proof.
  revert acc. induction external as [|x external IH]; intros acc; cbn [fold_left].
  - rewrite decide_False; [done|]. intros [Hin _]. by apply elem_of_nil in Hin.
  - rewrite IH. destruct (decide (name ∈ external /\ _)) as [[Hin Hm]|Hno].
    + rewrite decide_True; [done|]. split; [by right|done].
    + destruct (decide (x = name)) as [->|Hne].
      * unfold registered.
        destruct (matches re_identifier name) eqn:Hm;
          [destruct (String.eqb name "__proto__") eqn:Hp|]; cbn [andb negb].
        -- rewrite decide_False; [done|]. intros [_ ?]. done.
        -- rewrite lookup_insert_eq. rewrite decide_True; [done|]. split; [left|done].
        -- rewrite decide_False; [done|]. intros [_ ?]. done.
      * rewrite decide_False.
        -- destruct (matches re_identifier x); [|done].
           destruct (String.eqb x "__proto__"); [done|by rewrite lookup_insert_ne].
        -- intros [Hin Hm]. apply Hno. split; [|done].
           apply elem_of_cons in Hin as [->|Hin]; done.
Qed.

Lemma collect_globals_lookup external name :
  collect_globals external !! name
  = if decide (name ∈ external /\ registered name = true)
    then Some name else None.
Proof. unfold collect_globals. by rewrite collect_globals_from, lookup_empty. Qed.

Lemma registered_spec name :
  registered name = true <-> lowercase_identifier name = true /\ name <> "__proto__".
Proof.
  unfold registered.
  rewrite andb_true_iff, negb_true_iff, re_identifier_spec, String.eqb_neq. done.
Qed.

(** C9, as the code has it. In every config [createConfig] returns, a
    name of the externals is an own property of the globals object, bound
    to itself, if and only if it is a lowercase bare identifier (a
    lowercase letter, [_] or [$] followed by lowercase letters, digits,
    [_] and [$]) other than [__proto__], whose assignment makes no
    property. Nothing else is registered. *)
Theorem globals_of_externals (world : World) (options : Resolved)
    (entry fmt : string) (writeMeta : bool) (cfg : BuildConfig) :
  createConfig world options entry fmt writeMeta = Ok cfg ->
  (forall name, name ∈ external (inputOptions cfg) ->
     globals (outputOptions cfg) !! name = Some name
     <-> lowercase_identifier name = true /\ name <> "__proto__")
  /\ (forall name bound, globals (outputOptions cfg) !! name = Some bound ->
        bound = name /\ name ∈ external (inputOptions cfg)).
Proof.
  intros Hcfg.
  destruct (createConfig_Ok _ _ _ _ _ _ Hcfg) as (_ & _ & _ & _ & Hglobals & _ & _).
  rewrite Hglobals. split.
  - intros name Hin. rewrite collect_globals_lookup, <- registered_spec.
    destruct (decide _) as [[_ Hm]|Hno]; [by rewrite Hm|].
    split; [done|]. intros Hm. exfalso. by apply Hno.
  - intros name bound. rewrite collect_globals_lookup.
    destruct (decide _) as [[Hin _]|_]; [|done]. by intros [= <-].
Qed.

Definition with_react : Resolved :=
  Example.resolved (Example.options [] "umd")
    (Example.with_peers (Example.manifest "widget")
       ["React"; "lodash"; "my-lib"; "__proto__"])
    ["/proj/src/index.js"].

Lemma globals_of_externals_witness :
  exists cfg,
    createConfig (Example.world (Example.filesystem (inl "ENOENT") [] []))
      with_react "/proj/src/index.js" "umd" true = Ok cfg
    /\ globals (outputOptions cfg) !! "lodash" = Some "lodash"
    /\ globals (outputOptions cfg) !! "__proto__" = None.
Proof.
  eexists. split; [vm_compute; reflexivity|].
  destruct (globals_of_externals (Example.world (Example.filesystem (inl "ENOENT") [] []))
              with_react "/proj/src/index.js" "umd" true _ eq_refl)
    as (Hiff & _).
  split.
  - apply Hiff; [cbn; by_evaluation|]. split; [reflexivity|discriminate].
  - vm_compute. reflexivity.
Defined.

(** C9 fails as stated: [React] is a bare identifier and an external, and
    it is not registered. *)
Lemma globals_of_externals_counterexample :
  exists cfg,
    createConfig (Example.world (Example.filesystem (inl "ENOENT") [] []))
      with_react "/proj/src/index.js" "umd" true = Ok cfg
    /\ "React" ∈ external (inputOptions cfg)
    /\ ascii_identifier "React" = true
    /\ globals (outputOptions cfg) !! "React" = None.
Proof.
  eexists. split; [vm_compute; reflexivity|].
  split; [cbn; by_evaluation|]. split; [reflexivity|]. vm_compute. reflexivity.
Qed.

End Globals.

(* ===================================================================== *)
(** * A run without any entry (index.js, lines 33-54) *)
(* ===================================================================== *)

Module NoEntry.
Import Regex Path Microbundle.

Definition engine_event (e : event) : bool :=
  match e with
  | RollupCall _ _ | BundleWritten _ | WatchStarted _ => true
  | _ => false
  end.

(** C8. With no explicit entries, no readable manifest, no [src]
    directory and no root [index.js], the run throws (the missing
    candidate reaches [resolve], which takes strings only). By then it has
    emitted the missing-manifest warning (with the message of the read
    error unless that is ENOENT), then the missing-name warning, and
    nothing else: the engine has not been called. *)
Theorem no_entry_is_fatal (world : World) (options : Options) (msg : string)
    (before : list event) :
  let cwd := resolve' world [process_cwd world; o_cwd options] in
  o_entries options = [] ->
  readManifest (fs world) (resolve' world [cwd; "package.json"]) = inl msg ->
  isDir (fs world) (resolve' world [cwd; "src"]) = false ->
  isFile (fs world) (resolve' world [cwd; "index.js"]) = false ->
  exists what emitted,
    microbundle world options before = (Throw (TypeError what), before ++ emitted)
    /\ emitted
       = [WarnNoPackageJson]
         ++ (if matches re_enoent msg then [] else [WarnDetail msg])
         ++ [WarnMissingName (basename cwd)]
    /\ forallb (fun e => negb (engine_event e)) emitted = true.
Proof.
  intros cwd Hentries Hmanifest Hdir Hfile.
  unfold microbundle, loadManifest, candidates, andThen, emit, ret, lift.
  fold cwd. rewrite Hmanifest, Hentries.
  destruct (matches re_enoent msg); cbn; rewrite Hdir, Hfile; cbn;
    rewrite <- !app_assoc; cbn; eexists _, _; (split; [reflexivity|]); by split.
Qed.

Definition bare_directory : World :=
  Example.world
    (Example.filesystem
       (inl "ENOENT: no such file or directory, open '/proj/package.json'") [] []).

Lemma no_entry_is_fatal_witness :
  exists what,
    microbundle bare_directory (Example.options [] "es,cjs,umd") []
    = (Throw (TypeError what), [WarnNoPackageJson; WarnMissingName "proj"]).
Proof.
  destruct (no_entry_is_fatal bare_directory (Example.options [] "es,cjs,umd")
              "ENOENT: no such file or directory, open '/proj/package.json'" [])
    as (what & emitted & Hrun & Hlog & _); try reflexivity.
  exists what. rewrite Hrun, Hlog. reflexivity.
Defined.

End NoEntry.

(* ===================================================================== *)
(** * The format schedule (index.js, lines 74-76) *)
(* ===================================================================== *)

Module Formats.
Import JsArray Microbundle.

(** C2 at [--format es,amd,cjs]: 'cjs' is in the list and is scheduled
    second, behind 'amd'. The element 'cjs' walks left only past a format
    that compares greater than it, and 'amd' does not. *)
Lemma cjs_scheduled_second :
  scheduleFormats (Example.options [] "es,amd,cjs") = Ok ["amd"; "cjs"; "es"].
Proof. reflexivity. Qed.

(** The same list under the other sorting procedure: 'cjs' is first, and
    the formats after it are not in lexical order. *)
Lemma cjs_first_rest_unordered :
  sort_by_runs compare_formats (split "," "es,amd,cjs") = ["cjs"; "es"; "amd"].
Proof. reflexivity. Qed.

(** The three formats of the tool, in every order, are scheduled
    lexically, 'cjs' first. *)
Lemma standard_formats_schedule :
  Forall (fun requested => sortFormats requested = ["cjs"; "es"; "umd"])
    [ ["cjs"; "es"; "umd"]; ["cjs"; "umd"; "es"]; ["es"; "cjs"; "umd"];
      ["es"; "umd"; "cjs"]; ["umd"; "cjs"; "es"]; ["umd"; "es"; "cjs"] ].
Proof. repeat constructor. Qed.

(** ** Where the schedule is right: no name before 'cjs' *)

Definition le (a b : string) : Prop := String.leb a b = true.

Lemma ascii_compare_trans x y z :
  Ascii.compare x y <> Gt -> Ascii.compare y z <> Gt ->
  Ascii.compare x z <> Gt
  /\ (Ascii.compare x z = Eq -> Ascii.compare x y = Eq /\ Ascii.compare y z = Eq).
Proof.
  unfold Ascii.compare.
  destruct (N.compare_spec (N_of_ascii x) (N_of_ascii y)),
           (N.compare_spec (N_of_ascii y) (N_of_ascii z)),
           (N.compare_spec (N_of_ascii x) (N_of_ascii z));
    try done; try lia; intros _ _; (split; [done|]); intros; try done; lia.
Qed.

Lemma le_trans a b c : le a b -> le b c -> le a c.
Proof.
  unfold le, String.leb.
  revert b c. induction a as [|x a IH]; intros [|y b] [|z c]; simpl; try done.
  intros Hab Hbc.
  destruct (ascii_compare_trans x y z) as [Hgt Heq].
  { by destruct (Ascii.compare x y). }
  { by destruct (Ascii.compare y z). }
  destruct (Ascii.compare x z) eqn:Exz; try done.
  destruct (Heq eq_refl) as [Exy Eyz]. rewrite Exy in Hab. rewrite Eyz in Hbc.
  by apply (IH b c).
Qed.

Lemma not_ltb_le a b : String.ltb b a = false -> le a b.
Proof.
  unfold le, String.ltb, String.leb. rewrite (String.compare_antisym b a).
  by destruct (String.compare a b).
Qed.

Lemma ltb_le a b : String.ltb a b = true -> le a b.
Proof. unfold le, String.ltb, String.leb. by destruct (String.compare a b). Qed.

Lemma le_antisym a b : le a b -> le b a -> a = b.
Proof. intros Hab Hba. by apply String.leb_antisym. Qed.

(** When to walk on: [compare_formats tmp element > 0]. *)
Lemma compare_formats_positive tmp element :
  (compare_formats tmp element >? 0)%Z = true -> String.ltb element tmp = true.
Proof.
  unfold compare_formats. destruct (String.eqb tmp "cjs"); [done|].
  by destruct (String.ltb element tmp).
Qed.

Lemma compare_formats_stop tmp element :
  le "cjs" element ->
  (compare_formats tmp element >? 0)%Z = false -> le tmp element.
Proof.
  unfold compare_formats. intros Hcjs.
  destruct (String.eqb tmp "cjs") eqn:E.
  - apply String.eqb_eq in E. by subst tmp.
  - destruct (String.ltb element tmp) eqn:L; [done|]. intros _. by apply not_ltb_le.
Qed.

(** The part already sorted, its greatest name first. *)
Definition descending (l : list string) : Prop := StronglySorted (fun a b => le b a) l.

Lemma insert_left_perm element before :
  insert_left compare_formats element before ≡ₚ element :: before.
Proof.
  induction before as [|tmp rest IH]; simpl; [done|].
  destruct (compare_formats tmp element >? 0)%Z; [|done].
  rewrite IH. apply Permutation_swap.
Qed.

Lemma insert_left_descending element before :
  le "cjs" element -> descending before ->
  descending (insert_left compare_formats element before).
Proof.
  intros Hcjs. induction 1 as [|tmp rest Hrest IH Hall]; simpl.
  - repeat constructor.
  - destruct (compare_formats tmp element >? 0)%Z eqn:E.
    + constructor; [done|].
      rewrite insert_left_perm. constructor; [|done].
      apply ltb_le. by apply compare_formats_positive.
    + pose proof (compare_formats_stop tmp element Hcjs E) as Hle.
      constructor; [by constructor|]. constructor; [done|].
      eapply Forall_impl; [exact Hall|]. intros x Hx. by apply (le_trans x tmp element).
Qed.

Lemma sortFormats_fold formats before :
  Forall (le "cjs") formats -> descending before ->
  descending (fold_left (fun before element => insert_left compare_formats element before)
                formats before)
  /\ fold_left (fun before element => insert_left compare_formats element before)
       formats before ≡ₚ formats ++ before.
Proof.
  intros Hall. revert before.
  induction Hall as [|f formats Hf _ IH]; intros before Hdesc; simpl; [done|].
  destruct (IH (insert_left compare_formats f before)) as [Hd Hp].
  { by apply insert_left_descending. }
  split; [done|]. rewrite Hp, insert_left_perm. by rewrite Permutation_middle.
Qed.

Lemma descending_rev l : descending l -> StronglySorted le (rev l).
Proof.
  induction 1 as [|x l Hl IH Hall]; simpl; [constructor|].
  apply StronglySorted_app_2; [|done|repeat constructor].
  intros y x' Hy Hx'. apply list_elem_of_singleton in Hx'. subst x'.
  rewrite Forall_forall in Hall. apply Hall.
  apply list_elem_of_In, in_rev, list_elem_of_In. exact Hy.
Qed.

(** For a list of at most ten names (the lists the insertion sort is
    run on) none of which sorts before 'cjs' (as 'es', 'umd', 'iife' and
    'modern' do not), the schedule is the list in lexical order, so 'cjs',
    when requested, comes first. *)
Theorem schedule_without_earlier_names (formats : list string) :
  (length formats <= 10)%nat ->
  Forall (le "cjs") formats ->
  StronglySorted le (sortFormats formats)
  /\ sortFormats formats ≡ₚ formats
  /\ ("cjs" ∈ formats -> head (sortFormats formats) = Some "cjs").
Proof.
  intros _ Hall. unfold sortFormats, sort.
  destruct (sortFormats_fold formats [] Hall) as [Hdesc Hperm]; [constructor|].
  rewrite app_nil_r in Hperm.
  set (before := fold_left _ formats []) in *.
  assert (Hsorted : StronglySorted le (rev before)) by (by apply descending_rev).
  assert (Hp : rev before ≡ₚ formats) by (by rewrite <- (Permutation_rev before)).
  split; [done|]. split; [done|]. intros Hcjs.
  rewrite <- Hp in Hcjs. rewrite <- Hp in Hall.
  destruct (rev before) as [|h t]; [by apply elem_of_nil in Hcjs|].
  simpl. f_equal.
  apply elem_of_cons in Hcjs as [->|Hin]; [done|].
  apply le_antisym.
  - apply StronglySorted_cons in Hsorted as [Hh _].
    rewrite Forall_forall in Hh. by apply Hh.
  - by apply Forall_cons_1 in Hall as [? _].
Qed.

Lemma schedule_without_earlier_names_witness :
  head (sortFormats ["umd"; "modern"; "es"; "cjs"; "iife"]) = Some "cjs".
Proof.
  apply (schedule_without_earlier_names ["umd"; "modern"; "es"; "cjs"; "iife"]).
  - simpl. lia.
  - repeat constructor.
  - by_evaluation.
Defined.

End Formats.

(* ===================================================================== *)
(** * Facts about [path] *)
(* ===================================================================== *)

Module PathFacts.
Import Regex Path.

Definition slash_free (s : list ascii) : Prop := Forall (fun c => is_slash c = false) s.

(** A segment [normalizeString] keeps as it is. *)
Definition plain_segment (seg : list ascii) : Prop :=
  slash_free seg /\ seg <> [] /\ seg <> dot /\ seg <> dotdot.

Lemma segments_nonempty s : segments s <> [].
Proof.
  unfold segments. destruct s as [|c s]; simpl; [done|].
  destruct (Ascii.eqb c "/"); [done|]. by destruct (split_on "/" s).
Qed.

Lemma segments_slash_free s : slash_free s -> segments s = [s].
Proof.
  unfold segments. induction 1 as [|c s Hc _ IH]; simpl; [done|].
  unfold is_slash in Hc. by rewrite Hc, IH.
Qed.

Lemma segments_app_slash s t : segments (s ++ "/"%char :: t) = segments s ++ segments t.
Proof.
  unfold segments. induction s as [|c s IH]; simpl; [done|].
  destruct (Ascii.eqb c "/"); [by rewrite IH|].
  rewrite IH. pose proof (segments_nonempty s) as Hne. unfold segments in Hne.
  by destruct (split_on "/" s).
Qed.

Lemma join_snoc R M :
  join (R ++ [M]) = match R with [] => M | _ => join R ++ "/"%char :: M end.
Proof.
  induction R as [|seg R IH]; [done|].
  simpl. destruct R as [|seg' R]; [done|].
  simpl in *. rewrite IH. by rewrite <- app_assoc.
Qed.

Lemma normalize_step_plain allow stack seg :
  plain_segment seg -> normalize_step allow stack seg = seg :: stack.
Proof.
  intros (_ & Hne & Hd & Hdd). unfold normalize_step, seg_eqb.
  by rewrite !bool_decide_eq_false_2.
Qed.

Lemma normalize_step_empty allow stack : normalize_step allow stack [] = stack.
Proof. reflexivity. Qed.

Lemma is_slash_eq c : is_slash c = true -> c = "/"%char.
Proof. apply Ascii.eqb_eq. Qed.

(** An absolute path ends in a slash-free last segment. *)
Lemma absolute_last_segment s :
  isAbsolute s = true ->
  exists d L, s = d ++ "/"%char :: L /\ slash_free L /\ (d = [] \/ isAbsolute d = true).
Proof.
  induction s as [|c s IH] using rev_ind; [done|]. intros Habs.
  destruct (is_slash c) eqn:Hc.
  - apply is_slash_eq in Hc. subst c. exists s, []. split; [done|]. split; [constructor|].
    destruct s as [|c' s]; [by left|right; exact Habs].
  - destruct s as [|c' s].
    + simpl in Habs. congruence.
    + destruct (IH Habs) as (d & L & Heq & HL & Hd).
      exists d, (L ++ [c]). split; [by rewrite Heq, <- app_assoc|].
      split; [|done]. apply Forall_app. split; [done|]. by constructor.
Qed.

Lemma absolute_app d rest : (d = [] \/ isAbsolute d = true) -> isAbsolute (d ++ "/"%char :: rest) = true.
Proof. intros [->|Hd]; [done|]. by destruct d. Qed.

(** Resolving against an absolute path whose last segment is plain keeps
    that segment last. *)
Lemma resolve_chars_last pc a d M :
  (d = [] \/ isAbsolute d = true) -> plain_segment M ->
  exists R, resolve_chars pc [a; d ++ "/"%char :: M] = "/"%char :: join (R ++ [M]).
Proof.
  intros Hd HM. pose proof (absolute_app d M Hd) as Habs.
  exists (rev (fold_left (normalize_step false) (segments d) [])).
  unfold resolve_chars. cbn [rev app gather].
  destruct (d ++ "/"%char :: M) as [|c p] eqn:Hp; [done|].
  rewrite Habs. cbn [negb]. f_equal. unfold normalizeString.
  rewrite <- Hp, <- app_assoc. cbn [app].
  rewrite (segments_app_slash d), (segments_app_slash M).
  rewrite (segments_slash_free M) by apply HM.
  rewrite !fold_left_app. cbn [fold_left segments split_on].
  rewrite (normalize_step_plain _ _ M HM), normalize_step_empty. done.
Qed.

Lemma rooted_join R M :
  exists d, "/"%char :: join (R ++ [M]) = d ++ "/"%char :: M /\ (d = [] \/ isAbsolute d = true).
Proof.
  rewrite join_snoc. destruct R as [|seg R].
  - exists []. split; [done|by left].
  - exists ("/"%char :: join (seg :: R)). split; [done|by right].
Qed.

Lemma take_while_app_stop {A} (p : A -> bool) l x rest :
  Forall (fun y => p y = true) l -> p x = false ->
  take_while p (l ++ x :: rest) = l.
Proof.
  induction 1 as [|y l Hy _ IH]; intros Hx; simpl.
  - by rewrite Hx.
  - rewrite Hy. by rewrite IH.
Qed.

Lemma basename_chars_last d M :
  slash_free M -> M <> [] -> basename_chars (d ++ "/"%char :: M) = M.
Proof.
  intros HM Hne. unfold basename_chars.
  rewrite rev_app_distr. cbn [rev]. rewrite <- app_assoc. cbn [app].
  assert (Hrev : Forall (fun c => negb (is_slash c) = true) (rev M)).
  { apply Forall_rev. eapply Forall_impl; [exact HM|]. intros c Hc. by rewrite Hc. }
  destruct (rev M) as [|c r] eqn:Hr.
  { exfalso. apply Hne. apply (f_equal (@rev ascii)) in Hr. by rewrite rev_involutive in Hr. }
  inversion Hrev as [|? ? Hc Hrest]; subst.
  cbn [app drop_while]. rewrite (proj1 (negb_true_iff _) Hc).
  change (c :: r ++ "/"%char :: rev d) with ((c :: r) ++ "/"%char :: rev d).
  rewrite take_while_app_stop; [|done|done].
  rewrite <- Hr. apply rev_involutive.
Qed.

(** The base name of a path resolved twice is its plain last segment. *)
Lemma basename_resolved_twice pc a b d M :
  (d = [] \/ isAbsolute d = true) -> plain_segment M ->
  basename_chars (resolve_chars pc [b; resolve_chars pc [a; d ++ "/"%char :: M]]) = M.
Proof.
  intros Hd HM.
  destruct (resolve_chars_last pc a d M Hd HM) as [R ->].
  destruct (rooted_join R M) as (d' & -> & Hd').
  destruct (resolve_chars_last pc b d' M Hd' HM) as [R' ->].
  destruct (rooted_join R' M) as (d'' & -> & _).
  apply basename_chars_last; apply HM.
Qed.

Lemma gather_absolute pc args acc :
  isAbsolute pc = true -> (gather pc args acc).2 = true.
Proof.
  intros Hpc. revert acc. induction args as [|p args IH]; intros acc; simpl.
  - by destruct pc.
  - destruct p as [|c p]; [apply IH|].
    destruct (isAbsolute (c :: p)); [done|apply IH].
Qed.

Lemma resolve_chars_absolute pc args :
  isAbsolute pc = true -> isAbsolute (resolve_chars pc args) = true.
Proof.
  intros Hpc. unfold resolve_chars.
  pose proof (gather_absolute pc (rev args) [] Hpc) as Hg.
  destruct (gather pc (rev args) []) as [p abs]. simpl in Hg. by subst abs.
Qed.

Lemma chars_append a b : chars (a +:+ b) = chars a ++ chars b.
Proof. unfold chars. induction a as [|c a IH]; simpl; [done|]. by rewrite IH. Qed.

Lemma chars_of_list l : chars (string_of_list_ascii l) = l.
Proof. apply list_ascii_of_string_of_list_ascii. Qed.

Lemma chars_inj a b : chars a = chars b -> a = b.
Proof.
  intros H. apply (f_equal string_of_list_ascii) in H.
  unfold chars in H. by rewrite !string_of_list_ascii_of_string in H.
Qed.

End PathFacts.

(* ===================================================================== *)
(** * Destination paths (index.js, lines 158-171 and 296) *)
(* ===================================================================== *)

Module Destinations.
Import Regex Path Microbundle ConfigFacts PathFacts.

(** The manifest names none of the output files itself. *)
Definition default_names (m : Manifest) : Prop :=
  pkg_module m = None /\ pkg_jsnext_main m = None
  /\ pkg_cjs_main m = None /\ pkg_umd_main m = None.

(** The file a format is written to: the module file for 'es', the UMD
    file for 'umd', the CommonJS file for every other format. *)
Inductive target : Type := ModuleFile | UmdFile | CjsFile.

Definition format_target (fmt : string) : target :=
  if String.eqb fmt "es" then ModuleFile
  else if String.eqb fmt "umd" then UmdFile
  else CjsFile.

Definition target_suffix (t : target) : string :=
  match t with
  | ModuleFile => ".m.js"
  | UmdFile => ".umd.js"
  | CjsFile => ".js"
  end.

Lemma resolve'_chars world args :
  chars (resolve' world args)
  = resolve_chars (chars (process_cwd world)) (map chars args).
Proof. unfold resolve', resolve. apply chars_of_list. Qed.

Lemma strip_keeps_root s :
  isAbsolute (chars s) = true -> isAbsolute (chars (strip re_js_suffix s)) = true.
Proof.
  unfold strip. rewrite chars_of_list.
  destruct (chars s) as [|c rest]; [done|]. intros Hc.
  apply is_slash_eq in Hc. subst c. reflexivity.
Qed.

Lemma mainNoExtension_absolute world options entry :
  isAbsolute (chars (process_cwd world)) = true ->
  isAbsolute (chars (output options)) = true ->
  isAbsolute (chars (mainNoExtension world options entry)) = true.
Proof.
  intros Hpc Hout. unfold mainNoExtension. apply strip_keeps_root.
  destruct (multipleEntries options); [|done].
  rewrite resolve'_chars. by apply resolve_chars_absolute.
Qed.

Lemma destination_default world options entry fmt :
  default_names (pkg options) ->
  destination world options entry fmt
  = resolve' world
      [cwd options;
       resolve' world
         ["."; mainNoExtension world options entry +:+ target_suffix (format_target fmt)]].
Proof.
  intros (Hm & Hj & Hc & Hu).
  unfold destination, format_target, moduleMain, cjsMain, umdMain, replaceName.
  rewrite Hm, Hj, Hc, Hu.
  destruct (String.eqb fmt "es"); [reflexivity|].
  destruct (String.eqb fmt "umd"); reflexivity.
Qed.

Lemma plain_with_suffix L suffix :
  slash_free L -> slash_free suffix -> (3 <= length suffix)%nat ->
  plain_segment (L ++ suffix).
Proof.
  intros HL Hs Hlen. split; [by apply Forall_app|].
  assert (Hlong : (3 <= length (L ++ suffix))%nat) by (rewrite length_app; lia).
  repeat split; intros Heq; rewrite Heq in Hlong; simpl in Hlong; lia.
Qed.

Lemma target_suffix_plain t :
  slash_free (chars (target_suffix t)) /\ (3 <= length (chars (target_suffix t)))%nat.
Proof. destruct t; (split; [repeat constructor|simpl; lia]). Qed.

(** With the default names, the base name of a destination is the last
    segment of the extension-less main path followed by the suffix of the
    format's target. *)
Lemma destination_basename world options entry :
  isAbsolute (chars (process_cwd world)) = true ->
  isAbsolute (chars (output options)) = true ->
  default_names (pkg options) ->
  exists L, forall fmt,
    chars (basename (destination world options entry fmt))
    = L ++ chars (target_suffix (format_target fmt)).
Proof.
  intros Hpc Hout Hnames.
  destruct (absolute_last_segment _ (mainNoExtension_absolute world options entry Hpc Hout))
    as (d & L & Hmain & HL & Hd).
  exists L. intros fmt.
  rewrite (destination_default world options entry fmt Hnames).
  unfold basename. rewrite chars_of_list.
  rewrite resolve'_chars. cbn [map]. rewrite resolve'_chars. cbn [map].
  rewrite chars_append, Hmain, <- app_assoc. cbn [app].
  destruct (target_suffix_plain (format_target fmt)) as [Hs Hlen].
  apply basename_resolved_twice; [done|]. by apply plain_with_suffix.
Qed.

(** The main output path [microbundle] hands to [createConfig] is
    absolute, as the working directory of the process is. *)
Lemma mainOutput_absolute world options pkg cwd :
  isAbsolute (chars (process_cwd world)) = true ->
  isAbsolute (chars (mainOutput world options pkg cwd)) = true.
Proof.
  intros Hpc. unfold mainOutput.
  destruct (_ || _); rewrite resolve'_chars; by apply resolve_chars_absolute.
Qed.

Lemma length_concat_imap {X} (F : nat -> string -> list X) (m : nat) (es : list string) :
  (forall i e, length (F i e) = m) -> length (concat (imap F es)) = (length es * m)%nat.
Proof.
  revert F. induction es as [|e es IH]; intros F HF; [done|].
  cbn [imap concat length]. rewrite length_app, HF, IH; [lia|].
  intros i e'. apply HF.
Qed.

Lemma length_pairs es formats :
  length (pairs es formats) = (length es * length formats)%nat.
Proof.
  unfold pairs. apply length_concat_imap. intros i e. apply length_imap.
Qed.

(** C4, as the code has it. In a run whose manifest names none of the
    output files, the configs returned for one entry and two formats have
    different destination paths when the formats have different targets
    (the module file for 'es', the UMD file for 'umd', the CommonJS file
    for any other format), and one and the same destination path when
    the formats have the same target. Destination paths are never
    compared: the steps of a run are produced as soon as [createConfig]
    returns a config for each pair by itself, and each step has the
    destination of its pair, whatever the destinations of the other
    steps are. *)
Theorem destinations_differ_by_target (world : World) (options : Resolved)
    (entry fmt1 fmt2 : string) (writeMeta1 writeMeta2 : bool)
    (cfg1 cfg2 : BuildConfig) :
  isAbsolute (chars (process_cwd world)) = true ->
  isAbsolute (chars (output options)) = true ->
  default_names (pkg options) ->
  createConfig world options entry fmt1 writeMeta1 = Ok cfg1 ->
  createConfig world options entry fmt2 writeMeta2 = Ok cfg2 ->
  (format_target fmt1 <> format_target fmt2 ->
   file (outputOptions cfg1) <> file (outputOptions cfg2))
  /\ (format_target fmt1 = format_target fmt2 ->
      file (outputOptions cfg1) = file (outputOptions cfg2))
  /\ (forall formats,
        (forall pair, pair ∈ pairs (entries options) formats ->
           exists cfg, createConfig world options pair.1.1 pair.1.2 pair.2 = Ok cfg) ->
        exists steps,
          steps_of world options formats = Ok steps
          /\ length steps = (length (entries options) * length formats)%nat
          /\ Forall2 (fun pair step =>
                        file (outputOptions step)
                        = destination world options pair.1.1 pair.1.2)
               (pairs (entries options) formats) steps).
Proof.
  intros Hpc Hout Hnames H1 H2.
  destruct (createConfig_Ok _ _ _ _ _ _ H1) as (_ & _ & _ & _ & _ & _ & ->).
  destruct (createConfig_Ok _ _ _ _ _ _ H2) as (_ & _ & _ & _ & _ & _ & ->).
  split; [|split].
  - intros Hdiff.
    destruct (destination_basename world options entry Hpc Hout Hnames) as [L HL].
    intros Heq. pose proof (HL fmt1) as E1. pose proof (HL fmt2) as E2.
    rewrite Heq, E2 in E1. apply app_inv_head in E1.
    apply Hdiff. by destruct (format_target fmt1), (format_target fmt2).
  - intros Hsame. rewrite !(destination_default world options entry) by done.
    by rewrite Hsame.
  - intros formats Heach. unfold steps_of.
    destruct (mapR_Forall2
                (fun step => createConfig world options step.1.1 step.1.2 step.2)
                (pairs (entries options) formats) Heach) as (steps & Hsteps & Hall).
    exists steps. split; [done|]. split.
    + rewrite <- (Forall2_length _ _ _ Hall). apply length_pairs.
    + eapply Forall2_impl; [exact Hall|]. intros pair step Hcfg.
      by destruct (createConfig_Ok _ _ _ _ _ _ Hcfg) as (_ & _ & _ & _ & _ & _ & ->).
Qed.

Definition one_entry : Resolved :=
  Example.resolved (Example.options [] "es,cjs,umd") (Example.manifest "lib")
    ["/proj/src/index.js"].

Lemma destinations_differ_by_target_witness :
  exists cfg1 cfg2,
    createConfig (Example.world (Example.filesystem (inl "ENOENT") [] []))
      one_entry "/proj/src/index.js" "cjs" true = Ok cfg1
    /\ createConfig (Example.world (Example.filesystem (inl "ENOENT") [] []))
      one_entry "/proj/src/index.js" "es" false = Ok cfg2
    /\ file (outputOptions cfg1) <> file (outputOptions cfg2).
Proof.
  eexists _, _. split; [vm_compute; reflexivity|]. split; [vm_compute; reflexivity|].
  apply (destinations_differ_by_target
           (Example.world (Example.filesystem (inl "ENOENT") [] []))
           one_entry "/proj/src/index.js" "cjs" "es" true false _ _
           eq_refl eq_refl (conj eq_refl (conj eq_refl (conj eq_refl eq_refl)))
           eq_refl eq_refl).
  discriminate.
Defined.

Definition two_packages : FileSystem :=
  Example.filesystem (inr (Example.manifest "lib"))
    ["/proj/src"; "/proj/src/client"; "/proj/src/server"; "/proj/dist"]
    [ ("/proj/src/client/index.js", "export const client = 1");
      ("/proj/src/server/index.js", "export const server = 2") ].

(** C4 fails as stated: two index files in different directories are two
    pairs with one destination. Both configs are produced, the run
    succeeds, and the second bundle is written to the path of the first. *)
Lemma destinations_collide_counterexample :
  exists cfg1 cfg2 sizes,
    microbundle (Example.world two_packages)
      (Example.options ["src/client/index.js"; "src/server/index.js"] "cjs") []
    = (Ok (Built sizes),
       [ RollupCall None cfg1; BundleWritten "/proj/dist/lib.js";
         RollupCall (Some "code") cfg2; BundleWritten "/proj/dist/lib.js" ])
    /\ input (inputOptions cfg1) = "/proj/src/client/index.js"
    /\ input (inputOptions cfg2) = "/proj/src/server/index.js"
    /\ file (outputOptions cfg1) = "/proj/dist/lib.js"
    /\ file (outputOptions cfg2) = "/proj/dist/lib.js".
Proof.
  eexists _, _, _. split; [vm_compute; reflexivity|]. repeat split.
Qed.

End Destinations.

(* ===================================================================== *)
(** * The scenario of the specification *)
(* ===================================================================== *)

Module Scenario.
Import Microbundle.

Definition acme : Manifest :=
  {| pkg_name := Some "acme"; pkg_source := None;
     pkg_main := Some "dist/acme.js"; pkg_module := Some "dist/acme.module.js";
     pkg_jsnext_main := None; pkg_cjs_main := None; pkg_umd_main := None;
     pkg_peerDependencies := None; pkg_dependencies := None; pkg_mangle := false;
     pkg_mangle_regex := None |}.

Definition acme_project : World :=
  Example.world
    (Example.filesystem (inr acme) ["/proj/src"; "/proj/dist"]
       [("/proj/src/index.js", "export default function acme() {}")]).

(** Manifest [{ name: acme, main: dist/acme.js, module:
    dist/acme.module.js }], entries [src/index.js], formats [es,cjs]:
    'cjs' is built first, to [dist/acme.js], and is the pair that extracts
    the stylesheet; 'es' follows, to [dist/acme.module.js], with the first
    bundle as its cache. *)
Theorem acme_schedule :
  exists first second sizes,
    microbundle acme_project (Example.options ["src/index.js"] "es,cjs") []
    = (Ok (Built sizes),
       [ RollupCall None first; BundleWritten "/proj/dist/acme.js";
         RollupCall (Some "code") second; BundleWritten "/proj/dist/acme.module.js" ])
    /\ format (outputOptions first) = "cjs"
    /\ file (outputOptions first) = "/proj/dist/acme.js"
    /\ plugins (inputOptions first) !! 1%nat = Some (postcss true)
    /\ format (outputOptions second) = "es"
    /\ file (outputOptions second) = "/proj/dist/acme.module.js"
    /\ plugins (inputOptions second) !! 1%nat = Some (postcss false).
Proof.
  eexists _, _, _. split; [vm_compute; reflexivity|]. repeat split.
Qed.

End Scenario.

(* ===================================================================== *)
(** * The format schedule, whatever the names (index.js, lines 74-76) *)
(* ===================================================================== *)

Module Schedule.
Import Regex Path JsArray Microbundle.

Lemma insert_left_Permutation {A} (comparefn : A -> A -> Z) element before :
  insert_left comparefn element before ≡ₚ element :: before.
Proof.
  induction before as [|tmp rest IH]; simpl; [done|].
  destruct (comparefn tmp element >? 0)%Z; [|done].
  rewrite IH. apply Permutation_swap.
Qed.

(** The sort loses and adds nothing, whatever the comparator answers. *)
Lemma sort_Permutation {A} (comparefn : A -> A -> Z) (a : list A) :
  sort comparefn a ≡ₚ a.
Proof.
  unfold sort. rewrite <- Permutation_rev.
  assert (Hfold : forall before,
    fold_left (fun before element => insert_left comparefn element before) a before
    ≡ₚ a ++ before).
  { induction a as [|x a IH]; intros before; simpl; [done|].
    rewrite IH, insert_left_Permutation. symmetry. apply Permutation_middle. }
  rewrite Hfold. by rewrite app_nil_r.
Qed.

Lemma split_on_nonempty sep s : split_on sep s <> [].
Proof.
  induction s as [|c s IH]; simpl; [done|].
  destruct (Ascii.eqb c sep); [done|]. by destruct (split_on sep s).
Qed.

(** Whatever the format string is, the schedule is a rearrangement of
    its comma-separated names: none is lost, none is added, a name asked
    for twice is scheduled twice, and there is at least one (the empty
    string gives the one format ['']). When [format] is missing or empty
    and [formats] is missing, the run throws a TypeError instead. *)
Theorem formats_kept (options : Options) :
  match field_or (o_format options) (o_formats options) with
  | Some s =>
      exists formats,
        scheduleFormats options = Ok formats
        /\ formats ≡ₚ split "," s
        /\ formats <> []
  | None =>
      scheduleFormats options
      = Throw (TypeError "Cannot read property 'split' of undefined")
  end.
Proof.
  unfold scheduleFormats. destruct (field_or _ _) as [s|]; [|done].
  eexists. split; [done|]. split; [apply sort_Permutation|].
  intros Hnil. apply (f_equal length) in Hnil.
  unfold sortFormats in Hnil.
  rewrite (Permutation_length (sort_Permutation _ _)) in Hnil.
  unfold split in Hnil. rewrite length_map in Hnil.
  pose proof (split_on_nonempty "," (list_ascii_of_string s)) as Hne.
  destruct (split_on _ _); [done|]. simpl in Hnil. lia.
Qed.

End Schedule.

(* ===================================================================== *)
(** * The manifest and the entry candidates (index.js, lines 36-54) *)
(* ===================================================================== *)

Module Run.
Import Regex Path JsArray Microbundle NoEntry.

Definition warnings_only (emitted : list event) : Prop :=
  Forall (fun e => engine_event e = false) emitted.

(** The manifest step, when [package.json] is read as an object or is
    not read at all: it returns, and adds warnings only. *)
Lemma manifest_loaded world cwd log :
  readManifest (fs world) (resolve' world [cwd; "package.json"]) <> inr ParsedNull ->
  readManifest (fs world) (resolve' world [cwd; "package.json"]) <> inr ParsedPrimitive ->
  exists pkg warnings,
    loadManifest world cwd log = (Ok pkg, log ++ warnings)
    /\ warnings_only warnings
    /\ (exists name, pkg_name pkg = Some name /\ (name = "" -> basename cwd = ""))
    /\ match readManifest (fs world) (resolve' world [cwd; "package.json"]) with
       | inr (ParsedObject m) =>
           if truthy_field (pkg_name m) then pkg = m /\ warnings = []
           else pkg = with_name m (basename cwd)
                /\ warnings = [WarnMissingName (basename cwd)]
       | inr _ => False
       | inl msg =>
           pkg = with_name empty_manifest (basename cwd)
           /\ warnings
              = WarnNoPackageJson
                :: (if matches re_enoent msg then [] else [WarnDetail msg])
                ++ [WarnMissingName (basename cwd)]
       end.
Proof.
  unfold loadManifest, andThen, emit, ret, warnings_only.
  destruct (readManifest _ _) as [msg|[m| |]]; [| |done|done]; intros _ _.
  - destruct (matches re_enoent msg); cbn.
    + exists (with_name empty_manifest (basename cwd)). eexists.
      rewrite <- !(assoc_L (++)). repeat split; [repeat constructor|].
      exists (basename cwd). split; [done|congruence].
    + exists (with_name empty_manifest (basename cwd)). eexists.
      rewrite <- !(assoc_L (++)). repeat split; [repeat constructor|].
      exists (basename cwd). split; [done|congruence].
  - destruct (truthy_field (pkg_name m)) eqn:Hname.
    + exists m, []. rewrite app_nil_r. repeat split; [constructor|].
      destruct (pkg_name m) as [name|]; [|done]. exists name. split; [done|].
      intros ->. done.
    + exists (with_name m (basename cwd)). eexists.
      repeat split; [repeat constructor|].
      exists (basename cwd). split; [done|congruence].
Qed.

Lemma manifest_not_an_object world cwd log :
  readManifest (fs world) (resolve' world [cwd; "package.json"]) = inr ParsedNull
  \/ readManifest (fs world) (resolve' world [cwd; "package.json"]) = inr ParsedPrimitive ->
  exists what, loadManifest world cwd log = (Throw (TypeError what), log).
Proof.
  unfold loadManifest, andThen, throw. intros [-> | ->]; by eexists.
Qed.

(** The manifest step fails in one case only: a [package.json] whose
    text parses to [null] or to another primitive. That is outside the
    [try], so the run throws a TypeError, and nothing has been emitted.
    In every other case (the file is read as an object, or the read or
    the parse throws) the step returns a manifest and adds warnings only
    to the log: none when the manifest has a name; the missing-name
    warning when it has none; the missing-manifest warning (with the
    message of the error unless that is ENOENT) and the missing-name
    warning when it could not be read, the manifest then being the empty
    one. The manifest returned always has a name, which is empty only
    when the working directory has an empty base name. *)
Theorem manifest_fails_on_non_objects_only (world : World) (cwd : string)
    (log : list event) :
  let read := readManifest (fs world) (resolve' world [cwd; "package.json"]) in
  (read = inr ParsedNull \/ read = inr ParsedPrimitive ->
   exists what, loadManifest world cwd log = (Throw (TypeError what), log))
  /\ (read <> inr ParsedNull -> read <> inr ParsedPrimitive ->
      exists pkg warnings,
        loadManifest world cwd log = (Ok pkg, log ++ warnings)
        /\ warnings_only warnings
        /\ (exists name, pkg_name pkg = Some name /\ (name = "" -> basename cwd = ""))
        /\ match read with
           | inr (ParsedObject m) =>
               if truthy_field (pkg_name m) then pkg = m /\ warnings = []
               else pkg = with_name m (basename cwd)
                    /\ warnings = [WarnMissingName (basename cwd)]
           | inr _ => False
           | inl msg =>
               pkg = with_name empty_manifest (basename cwd)
               /\ warnings
                  = WarnNoPackageJson
                    :: (if matches re_enoent msg then [] else [WarnDetail msg])
                    ++ [WarnMissingName (basename cwd)]
           end).
Proof.
  intros read. split; [apply manifest_not_an_object|apply manifest_loaded].
Qed.

Lemma expand_given world cwd (files : list string) :
  mapR (expand world cwd) (map Some files)
  = Ok (map (fun f => glob (fs world) (resolve' world [cwd; f])) files).
Proof. induction files as [|f files IH]; simpl; [done|]. by rewrite IH. Qed.

(** Finding the entry candidates throws in one case only: no explicit
    entry, no [source] in the manifest, no [src] directory, no root
    [index.js] and no [module] in the manifest. In every other case each
    candidate is globbed and nothing is thrown; this holds for any
    manifest, read or assumed. *)
Theorem entry_inference (world : World) (options : Options) (pkg : Manifest)
    (cwd : string) :
  let found := mapR (expand world cwd) (candidates world options pkg cwd) in
  (found = Throw (TypeError "Path must be a string")
   <-> o_entries options = []
       /\ truthy_field (pkg_source pkg) = false
       /\ isDir (fs world) (resolve' world [cwd; "src"]) = false
       /\ isFile (fs world) (resolve' world [cwd; "index.js"]) = false
       /\ pkg_module pkg = None)
  /\ (found = Throw (TypeError "Path must be a string")
      \/ exists globbed, found = Ok globbed
           /\ length globbed = length (candidates world options pkg cwd)).
Proof.
  intros found. subst found. unfold candidates.
  destruct (o_entries options) as [|e es] eqn:He.
  - destruct (truthy_field (pkg_source pkg)) eqn:Hs.
    { destruct (pkg_source pkg) as [s|]; [|done]. simpl. split.
      - split; [done|]. intros (_ & ? & _). done.
      - right. by eexists. }
    destruct (isDir _ _).
    { simpl. split; [split; [done|intros (_ & _ & ? & _); done]|right; by eexists]. }
    destruct (isFile _ _).
    { simpl. split; [split; [done|intros (_ & _ & _ & ? & _); done]|right; by eexists]. }
    destruct (pkg_module pkg) as [m|]; simpl.
    + split; [split; [done|intros (_ & _ & _ & _ & ?); done]|right; by eexists].
    + split; [done|by left].
  - rewrite expand_given. split; [split; [done|by intros (? & _)]|].
    right. eexists. split; [done|]. by rewrite !length_map.
Qed.

End Run.

(* ===================================================================== *)
(** * The build, step by step (index.js, lines 113-120) *)
(* ===================================================================== *)

Module Build.
Import Regex Path JsArray Microbundle NoEntry.

(** The engine calls of a log, and the files written. *)
Definition engine_calls (log : list event) : list (option string * BuildConfig) :=
  omap (fun e => match e with RollupCall cache config => Some (cache, config) | _ => None end)
    log.

Definition written (log : list event) : list string :=
  omap (fun e => match e with BundleWritten file => Some file | _ => None end) log.

(** Each call is given what the call before it returned, the first one
    [cache]. *)
Fixpoint chained (world : World) (cache : option string)
    (calls : list (option string * BuildConfig)) : Prop :=
  match calls with
  | [] => True
  | (given, step) :: rest =>
      given = cache
      /\ match rest with
         | [] => True
         | _ :: _ =>
             exists code, rollup world cache step = Ok code
                          /\ chained world (Some code) rest
         end
  end.

Definition destination_of (step : BuildConfig) : string := file (outputOptions step).

Lemma series_cons world cache step rest log :
  series world cache (step :: rest) log
  = match rollup world cache step with
    | Throw e => (Throw e, log ++ [RollupCall cache step])
    | Ok code =>
        match series world (Some code) rest
                (log ++ [RollupCall cache step; BundleWritten (destination_of step)]) with
        | (Ok sizes, log') =>
            (Ok ((gzipSize world code, basename (destination_of step)) :: sizes), log')
        | (Throw e, log') => (Throw e, log')
        end
    end.
Proof.
  cbn [series]. unfold buildStep, andThen, emit, lift, ret, destination_of.
  destruct (rollup world cache step) as [code|e]; [|done].
  rewrite <- (assoc_L (++)). cbn [app fst snd].
  by destruct (series world (Some code) rest _) as [[sizes|e] log'].
Qed.

Lemma written_step cache step emitted :
  written (RollupCall cache step :: BundleWritten (destination_of step) :: emitted)
  = destination_of step :: written emitted.
Proof. done. Qed.

Lemma engine_calls_step cache step emitted :
  engine_calls (RollupCall cache step :: BundleWritten (destination_of step) :: emitted)
  = (cache, step) :: engine_calls emitted.
Proof. done. Qed.

Lemma chained_step world cache step code calls :
  rollup world cache step = Ok code ->
  chained world (Some code) calls ->
  chained world cache ((cache, step) :: calls).
Proof.
  intros Hstep Hchain. cbn [chained]. split; [done|].
  destruct calls; [done|]. by exists code.
Qed.

(** What the step functions of lines 114-120 do when they are run one
    after another, as [series] is taken to run them (see its
    definition). For any engine and any steps, the steps completed
    ([done]) are a prefix of the steps: their bundles are written in
    order, the engine is called once for each of them and once more for
    the step that throws, if one does, and every call is given, through
    the shared variable [cache], the bundle the call before it returned
    (the first one none). When all succeed there is one size per step,
    reported under the base name of its destination; when a step throws,
    the error is the one the engine threw for that step, and no later
    step is reached. *)
Theorem series_in_order (world : World) (cache : option string)
    (steps : list BuildConfig) (log : list event) :
  exists done emitted,
    (series world cache steps log).2 = log ++ emitted
    /\ done `prefix_of` steps
    /\ written emitted = map destination_of done
    /\ (engine_calls emitted).*2 = take (S (length done)) steps
    /\ chained world cache (engine_calls emitted)
    /\ match (series world cache steps log).1 with
       | Ok sizes =>
           done = steps
           /\ sizes.*2 = map (fun step => basename (destination_of step)) steps
       | Throw e =>
           exists given step,
             steps !! length done = Some step
             /\ last (engine_calls emitted) = Some (given, step)
             /\ rollup world given step = Throw e
       end.
Proof.
  revert cache log. induction steps as [|step rest IH]; intros cache log.
  - exists [], []. cbn. rewrite app_nil_r. repeat split; done.
  - rewrite series_cons. destruct (rollup world cache step) as [code|e] eqn:Hstep.
    + destruct (IH (Some code)
                  (log ++ [RollupCall cache step; BundleWritten (destination_of step)]))
        as (done & emitted & Hlog & Hprefix & Hwritten & Hcalls & Hchain & Hres).
      exists (step :: done),
        (RollupCall cache step :: BundleWritten (destination_of step) :: emitted).
      rewrite written_step, engine_calls_step, Hwritten.
      assert (Hshape :
        log ++ RollupCall cache step :: BundleWritten (destination_of step) :: emitted
        = (log ++ [RollupCall cache step; BundleWritten (destination_of step)])
          ++ emitted) by (by rewrite <- (assoc_L (++))).
      destruct (series world (Some code) rest _) as [[sizes|e] log'];
        cbn [fst snd] in *.
      * split; [by rewrite Hlog|].
        split; [by apply prefix_cons|].
        split; [done|].
        split; [cbn [fmap list_fmap length take]; cbn [fmap] in Hcalls; by rewrite <- Hcalls|].
        split; [by eapply chained_step|].
        destruct Hres as [-> Hsizes]. split; [done|].
        cbn [fmap list_fmap map]. cbn [fmap] in Hsizes. by rewrite Hsizes.
      * split; [by rewrite Hlog|].
        split; [by apply prefix_cons|].
        split; [done|].
        split; [cbn [fmap list_fmap length take]; cbn [fmap] in Hcalls; by rewrite <- Hcalls|].
        split; [by eapply chained_step|].
        destruct Hres as (given & step' & Hat & Hlast & Hthrow).
        exists given, step'. split; [done|]. split; [|done].
        destruct (engine_calls emitted); [done|]. done.
    + exists [], [RollupCall cache step]. cbn.
      split; [done|]. split; [apply prefix_nil|]. repeat split.
      by exists cache, step.
Qed.

End Build.

(* ===================================================================== *)
(** * The phases of a run (index.js, lines 33-123) *)
(* ===================================================================== *)

Module Phases.
Import Regex Path JsArray Microbundle NoEntry Run Build.

Section Phases.
Variable world : World.
Variable options : Options.

Definition run_cwd : string := resolve' world [process_cwd world; o_cwd options].

(** The options as [microbundle] has filled them in when it builds the
    steps. *)
Definition filled (pkg : Manifest) (globbed : list (list string)) : Resolved :=
  let entries := resolveEntries world run_cwd (concat globbed) in
  {| given := options; cwd := run_cwd; pkg := pkg;
     output := mainOutput world options pkg run_cwd;
     entries := entries; multipleEntries := (1 <? length entries)%nat |}.

Lemma watchAll_log steps log :
  watchAll steps log = (Ok tt, log ++ map WatchStarted steps).
Proof.
  revert log. induction steps as [|step rest IH]; intros log; cbn [watchAll map].
  - unfold ret. by rewrite app_nil_r.
  - unfold andThen, emit. rewrite IH. by rewrite <- (assoc_L (++)).
Qed.

(** What follows the manifest: nothing but the steps is left to emit. *)
Definition after_manifest (pkg : Manifest) (log : list event)
  : result outcome * list event :=
  match mapR (expand world run_cwd) (candidates world options pkg run_cwd) with
  | Throw e => (Throw e, log)
  | Ok globbed =>
      match scheduleFormats options with
      | Throw e => (Throw e, log)
      | Ok formats =>
          match steps_of world (filled pkg globbed) formats with
          | Throw e => (Throw e, log)
          | Ok steps =>
              if o_watch options
              then (Ok Watching, log ++ map WatchStarted steps)
              else match series world None steps log with
                   | (Ok sizes, log') => (Ok (Built sizes), log')
                   | (Throw e, log') => (Throw e, log')
                   end
          end
      end
  end.

(** The run, phase by phase. *)
Lemma microbundle_phases log :
  microbundle world options log
  = match loadManifest world run_cwd log with
    | (Ok pkg, log') => after_manifest pkg log'
    | (Throw e, log') => (Throw e, log')
    end.
Proof.
  unfold microbundle, after_manifest. fold run_cwd. unfold andThen at 1.
  destruct (loadManifest world run_cwd log) as [[pkg|e] log']; [|done].
  unfold andThen, lift, ret.
  destruct (mapR _ _) as [globbed|e]; [|done].
  destruct (scheduleFormats options) as [formats|e]; [|done].
  fold (filled pkg globbed).
  destruct (steps_of _ _ _) as [steps|e]; [|done].
  destruct (o_watch options); [|done].
  unfold andThen. by rewrite watchAll_log.
Qed.

(** Whatever the manifest step does, it emits warnings only. *)
Lemma loadManifest_warns log :
  exists warnings,
    (loadManifest world run_cwd log).2 = log ++ warnings /\ warnings_only warnings.
Proof.
  destruct (readManifest (fs world) (resolve' world [run_cwd; "package.json"]))
    as [msg|[m| |]] eqn:Hread.
  - destruct (manifest_loaded world run_cwd log) as (pkg & warnings & -> & Hwarn & _);
      [by rewrite Hread..|]. by exists warnings.
  - destruct (manifest_loaded world run_cwd log) as (pkg & warnings & -> & Hwarn & _);
      [by rewrite Hread..|]. by exists warnings.
  - destruct (manifest_not_an_object world run_cwd log) as [what ->]; [by left|].
    exists []. split; [by rewrite app_nil_r|constructor].
  - destruct (manifest_not_an_object world run_cwd log) as [what ->]; [by right|].
    exists []. split; [by rewrite app_nil_r|constructor].
Qed.

(** In watch mode the run never builds by itself. Whatever the project
    is, one of two things happens. Either the run throws (a manifest that
    is not an object, no entry candidate, no format, no [dependencies] to
    externalize, a mangle pattern that does not compile), having emitted
    warnings only: no watcher is started. Or the manifest, the entries,
    the formats and the steps are all there, and the log gains the
    warnings of the manifest and then exactly one started watcher for each
    step of the run, in the order of the steps, with no engine call and no
    bundle written; the promise stays pending. *)
Theorem watch_starts_watchers_only (log : list event) :
  o_watch options = true ->
  exists warnings,
    warnings_only warnings
    /\ ((exists e, microbundle world options log = (Throw e, log ++ warnings))
        \/ exists pkg globbed formats steps,
             loadManifest world run_cwd log = (Ok pkg, log ++ warnings)
             /\ mapR (expand world run_cwd) (candidates world options pkg run_cwd)
                = Ok globbed
             /\ scheduleFormats options = Ok formats
             /\ steps_of world (filled pkg globbed) formats = Ok steps
             /\ microbundle world options log
                = (Ok Watching, log ++ warnings ++ map WatchStarted steps)).
Proof.
  intros Hwatch. rewrite microbundle_phases.
  destruct (loadManifest_warns log) as (warnings & Hlog & Hwarn).
  exists warnings. split; [done|].
  destruct (loadManifest world run_cwd log) as [[pkg|e] log'];
    cbn [snd] in Hlog; subst log'; [|left; by exists e].
  unfold after_manifest. rewrite Hwatch.
  destruct (mapR _ _) as [globbed|e] eqn:Hglob; [|left; by exists e].
  destruct (scheduleFormats options) as [formats|e] eqn:Hformats; [|left; by exists e].
  destruct (steps_of _ _ _) as [steps|e] eqn:Hsteps; [|left; by exists e].
  right. exists pkg, globbed, formats, steps. by rewrite <- (assoc_L (++)).
Qed.

(** Explicit entries that match no file are no error. When
    [package.json] is read as an object or not read at all, every
    explicit entry globs to nothing and a format string is given, there
    is no entry and no step: the run calls the engine not once, emits
    warnings only, and succeeds with an empty report (in watch mode:
    stays pending with no watcher). *)
Theorem no_match_builds_nothing (log : list event) :
  readManifest (fs world) (resolve' world [run_cwd; "package.json"]) <> inr ParsedNull ->
  readManifest (fs world) (resolve' world [run_cwd; "package.json"])
  <> inr ParsedPrimitive ->
  o_entries options <> [] ->
  (forall file, file ∈ o_entries options ->
     glob (fs world) (resolve' world [run_cwd; file]) = []) ->
  field_or (o_format options) (o_formats options) <> None ->
  exists warnings,
    warnings_only warnings
    /\ microbundle world options log
       = (Ok (if o_watch options then Watching else Built []), log ++ warnings).
Proof.
  intros Hnull Hprimitive Hgiven Hnone Hformats. rewrite microbundle_phases.
  destruct (manifest_loaded world run_cwd log Hnull Hprimitive)
    as (pkg & warnings & -> & Hwarn & _).
  exists warnings. split; [done|].
  unfold after_manifest, candidates.
  destruct (o_entries options) as [|e es] eqn:He; [done|].
  rewrite expand_given.
  assert (Hinput : concat (map (fun f => glob (fs world) (resolve' world [run_cwd; f]))
                             (e :: es)) = []).
  { revert Hnone. generalize (e :: es). intros l Hl.
    induction l as [|f l IH]; [done|]. cbn [map concat].
    rewrite Hl by left. apply IH. intros g Hg. apply Hl. by right. }
  unfold filled. rewrite Hinput.
  unfold scheduleFormats. destruct (field_or _ _) as [s|]; [|done].
  cbn [resolveEntries]. unfold steps_of. cbn.
  destruct (o_watch options); [|done]. by rewrite app_nil_r.
Qed.

End Phases.

Definition watching (o : Options) : Options :=
  {| o_cwd := o_cwd o; o_entries := o_entries o; o_format := o_format o;
     o_formats := o_formats o; o_output := o_output o; o_watch := true;
     o_inline := o_inline o; o_external := o_external o;
     o_strict := o_strict o; o_compress := o_compress o; o_target := o_target o |}.

(** A project with one source file. *)
Definition one_source : World :=
  Example.world
    (Example.filesystem (inr (Example.manifest "lib")) ["/proj/src"]
       [("/proj/src/a.js", "export default 1")]).

(** Two formats of one entry: two watchers, and nothing else. *)
Lemma watch_starts_watchers_only_witness :
  exists first second,
    microbundle one_source (watching (Example.options ["src/a.js"] "cjs,es")) []
    = (Ok Watching, [WatchStarted first; WatchStarted second])
    /\ steps_of one_source
         (filled one_source (watching (Example.options ["src/a.js"] "cjs,es"))
            (Example.manifest "lib") [["/proj/src/a.js"]])
         ["cjs"; "es"]
       = Ok [first; second].
Proof.
  destruct (watch_starts_watchers_only one_source
              (watching (Example.options ["src/a.js"] "cjs,es")) [] eq_refl)
    as (warnings & _ & [[e He]|(pkg & globbed & formats & steps
                                   & Hload & Hglob & Hformats & Hsteps & Hrun)]).
  - vm_compute in He. discriminate He.
  - vm_compute in Hload. injection Hload as <- <-.
    vm_compute in Hglob. injection Hglob as <-.
    vm_compute in Hformats. injection Hformats as <-.
    rewrite Hrun. clear Hrun. vm_compute in Hsteps. injection Hsteps as <-.
    eexists _, _. split; [reflexivity|vm_compute; reflexivity].
Defined.

Lemma no_match_builds_nothing_witness :
  exists warnings,
    microbundle one_source (Example.options ["src/missing.js"] "cjs,es") []
    = (Ok (Built []), [] ++ warnings).
Proof.
  destruct (no_match_builds_nothing one_source
              (Example.options ["src/missing.js"] "cjs,es") [])
    as (warnings & _ & Hrun).
  - discriminate.
  - discriminate.
  - discriminate.
  - intros file Hfile. apply list_elem_of_singleton in Hfile. subst file. reflexivity.
  - discriminate.
  - exists warnings. exact Hrun.
Defined.

End Phases.

(* ===================================================================== *)
(** * The steps of a run (index.js, lines 78-83) *)
(* ===================================================================== *)

Module Steps.
Import Regex Path JsArray Microbundle ConfigFacts.

Lemma mapR_Ok {A B} (f : A -> result B) (l : list A) (ys : list B) :
  mapR f l = Ok ys -> Forall2 (fun x y => f x = Ok y) l ys.
Proof.
  revert ys. induction l as [|x l IH]; intros ys; simpl.
  - intros [= <-]. constructor.
  - destruct (f x) as [y|e] eqn:Hx; [|done]. simpl.
    destruct (mapR f l) as [ys'|e]; [|done]. simpl.
    intros [= <-]. constructor; [done|]. by apply IH.
Qed.

Lemma list_prod_nil_r {A B} (l : list A) : list_prod l ([] : list B) = [].
Proof. induction l; [done|]. simpl. done. Qed.

(** The rows after the first carry no flag. *)
Lemma later_rows (formats : list string) (es : list string) (i : nat) :
  (0 < i)%nat ->
  concat (imap (fun j entry =>
                  imap (fun k fmt => (entry, fmt, (i + j =? 0)%nat && (k =? 0)%nat)) formats)
               es)
  = map (fun p => (p.1, p.2, false)) (list_prod es formats).
Proof.
  revert i. induction es as [|e es IH]; intros i Hi; [done|].
  cbn [imap concat list_prod]. rewrite map_app, map_map. f_equal.
  - rewrite <- (imap_const (fun fmt => (e, fmt, false))). apply imap_ext.
    intros k fmt _. simpl. destruct (i + 0 =? 0)%nat eqn:Hz; [|done].
    apply Nat.eqb_eq in Hz. lia.
  - rewrite <- (IH (S i)) by lia. f_equal. apply imap_ext.
    intros j entry _. simpl. apply imap_ext. intros k fmt _. simpl.
    by replace (i + S j)%nat with (S (i + j))%nat by lia.
Qed.

(** The pairs are the product of the entries and the formats, entry by
    entry, and the flag is set on the first one only. *)
Lemma pairs_product (es formats : list string) :
  pairs es formats
  = imap (fun k p => (p.1, p.2, (k =? 0)%nat)) (list_prod es formats).
Proof.
  destruct es as [|e es]; [done|].
  destruct (decide (formats = [])) as [->|Hformats].
  { rewrite list_prod_nil_r. unfold pairs.
    assert (H : forall (l : list string) (F : nat -> string -> list (string * string * bool)),
              (forall i x, F i x = []) -> concat (imap F l) = []).
    { induction l as [|x l IH]; intros F HF; [done|]. cbn [imap concat].
      rewrite HF, IH; [done|]. intros; apply HF. }
    apply H. done. }
  unfold pairs. cbn [imap concat list_prod].
  rewrite imap_app. f_equal.
  - rewrite imap_fmap. apply imap_ext. by intros k fmt _.
  - rewrite length_map.
    assert (Hrows :
      concat (imap ((fun i entry =>
                        imap (fun j fmt => (entry, fmt, (i =? 0)%nat && (j =? 0)%nat))
                          formats) ∘ S) es)
      = concat (imap (fun j entry =>
                        imap (fun k fmt => (entry, fmt, (1 + j =? 0)%nat && (k =? 0)%nat))
                          formats) es)).
    { f_equal. }
    rewrite Hrows, later_rows by lia.
    rewrite <- (imap_const (fun p => (p.1, p.2, false))). apply imap_ext.
    intros k p _. simpl. destruct formats; [done|]. done.
Qed.

(** The plugins of a returned config, in their order. *)
Lemma createConfig_plugins world options entry fmt writeMeta cfg :
  createConfig world options entry fmt writeMeta = Ok cfg ->
  exists useNodeResolve,
    resolveDependencies options (baseExternal options entry)
    = Ok (useNodeResolve, external (inputOptions cfg))
    /\ plugins (inputOptions cfg)
       = [alias entry; postcss writeMeta; flow; nodent; buble]
         ++ (if useNodeResolve
             then [commonjs; nodeResolve (negb (field_is (o_target (given options)) "node"))]
             else [])
         ++ (if o_compress (given options)
             then [uglify (String.eqb fmt "cjs" || String.eqb fmt "es")]
             else [])
         ++ (if pkg_mangle (pkg options) then [mangleHook writeMeta] else [])
         ++ [codeCapture; shebangPlugin].
Proof.
  unfold createConfig, baseExternal. intros Hcfg.
  destruct (multipleEntries options);
    [|rewrite app_nil_r];
    destruct (resolveDependencies _ _) as [[u e]|]; try done;
    destruct (compileMangle world options) as [[]|]; try done;
    injection Hcfg as <-; cbn; exists u; (split; [done|]); by destruct u.
Qed.

(** Whether the stylesheet plugin of a step extracts ([extract: true]),
    and whether its mangle hook writes [mangle.json] back. *)
Definition extracts_css (step : BuildConfig) : bool :=
  existsb (fun p => match p with postcss true => true | _ => false end)
    (plugins (inputOptions step)).

Definition writes_name_cache (step : BuildConfig) : bool :=
  existsb (fun p => match p with mangleHook true => true | _ => false end)
    (plugins (inputOptions step)).

Lemma writeMeta_plugins world options entry fmt writeMeta cfg :
  createConfig world options entry fmt writeMeta = Ok cfg ->
  extracts_css cfg = writeMeta
  /\ writes_name_cache cfg = writeMeta && pkg_mangle (pkg options)
  /\ plugins (inputOptions cfg) !! 0%nat = Some (alias entry).
Proof.
  intros Hcfg. destruct (createConfig_plugins _ _ _ _ _ _ Hcfg) as (u & _ & Hp).
  unfold extracts_css, writes_name_cache. rewrite Hp.
  by destruct u, (o_compress (given options)), (pkg_mangle (pkg options)), writeMeta.
Qed.

(** The steps of a run are the (entry, format) pairs, entry by entry
    and, for each entry, format by format in schedule order: step [k] is
    the config [createConfig] returns for pair [k] of that product, its
    entry under the alias plugin and its format in the output options.
    There are as many steps as pairs. Only the first step writes metadata:
    it alone extracts the stylesheet, and it alone writes the name cache
    back (when the manifest asks for mangling at all). *)
Theorem steps_in_order (world : World) (options : Resolved) (formats : list string)
    (steps : list BuildConfig) :
  steps_of world options formats = Ok steps ->
  length steps = (length (entries options) * length formats)%nat
  /\ forall k step,
       steps !! k = Some step ->
       exists entry fmt,
         list_prod (entries options) formats !! k = Some (entry, fmt)
         /\ createConfig world options entry fmt (k =? 0)%nat = Ok step
         /\ plugins (inputOptions step) !! 0%nat = Some (alias entry)
         /\ format (outputOptions step) = fmt
         /\ extracts_css step = (k =? 0)%nat
         /\ writes_name_cache step = (k =? 0)%nat && pkg_mangle (pkg options).
Proof.
  unfold steps_of. intros Hsteps. apply mapR_Ok in Hsteps.
  split.
  { rewrite <- (Forall2_length _ _ _ Hsteps). apply Destinations.length_pairs. }
  intros k step Hk.
  destruct (Forall2_lookup_r _ _ _ _ _ Hsteps Hk) as (p & Hp & Hcfg).
  rewrite pairs_product, list_lookup_imap in Hp.
  destruct (list_prod (entries options) formats !! k) as [[entry fmt]|] eqn:Hpair;
    [|done].
  injection Hp as <-. cbn in Hcfg.
  exists entry, fmt. split; [done|]. split; [done|].
  destruct (writeMeta_plugins _ _ _ _ _ _ Hcfg) as (Hcss & Hcache & Halias).
  destruct (createConfig_Ok _ _ _ _ _ _ Hcfg) as (_ & _ & _ & _ & _ & Hfmt & _).
  done.
Qed.

Lemma steps_in_order_witness :
  exists steps,
    steps_of (Example.world (Example.filesystem (inl "ENOENT") [] []))
      Alias.two_entries ["cjs"; "es"] = Ok steps
    /\ length steps = 4%nat.
Proof.
  eexists. split; [vm_compute; reflexivity|].
  apply (steps_in_order (Example.world (Example.filesystem (inl "ENOENT") [] []))
           Alias.two_entries ["cjs"; "es"]).
  vm_compute. reflexivity.
Defined.

End Steps.

(* ===================================================================== *)
(** * Externals and dependency resolution (index.js, lines 129-148) *)
(* ===================================================================== *)

Module Externals.
Import Regex Path JsArray Microbundle ConfigFacts Steps.

(** No entry of a run is bundled into another. Every config
    [createConfig] returns has among its externals the four built-in
    modules, every peer dependency and every entry of the run other than
    its own. Its own entry is not external, unless it is spelled like one
    of the other names the externals hold: a built-in, the literal [.], a
    peer dependency or a dependency. *)
Theorem entries_are_external (world : World) (options : Resolved)
    (entry fmt : string) (writeMeta : bool) (cfg : BuildConfig) :
  createConfig world options entry fmt writeMeta = Ok cfg ->
  (forall builtin, builtin ∈ ["dns"; "fs"; "path"; "url"] ->
     builtin ∈ external (inputOptions cfg))
  /\ (forall peer, peer ∈ default [] (pkg_peerDependencies (pkg options)) ->
        peer ∈ external (inputOptions cfg))
  /\ (forall other, other ∈ entries options -> other <> entry ->
        other ∈ external (inputOptions cfg))
  /\ (entry ∈ external (inputOptions cfg) ->
        entry ∈ ["dns"; "fs"; "path"; "url"; "."]
        \/ entry ∈ default [] (pkg_peerDependencies (pkg options))
        \/ entry ∈ default [] (pkg_dependencies (pkg options))).
Proof.
  intros Hcfg.
  destruct (createConfig_Ok _ _ _ _ _ _ Hcfg) as ([u Hres] & _).
  assert (Hext : exists deps,
    external (inputOptions cfg) = baseExternal options entry ++ deps
    /\ forall d, d ∈ deps -> d ∈ default [] (pkg_dependencies (pkg options))).
  { revert Hres. unfold resolveDependencies.
    destruct (field_is (o_inline (given options)) "all").
    { intros [= _ <-]. exists []. split; [by rewrite app_nil_r|].
      intros d Hd. by apply elem_of_nil in Hd. }
    destruct (_ || _).
    - destruct (pkg_dependencies (pkg options)) as [deps|]; [|done].
      intros [= _ <-]. by exists deps.
    - intros [= _ <-]. exists []. split; [by rewrite app_nil_r|].
      intros d Hd. by apply elem_of_nil in Hd. }
  destruct Hext as (deps & -> & Hsub). unfold baseExternal.
  repeat split.
  - intros b Hb. rewrite !elem_of_app. by do 3 left.
  - intros p Hp. rewrite !elem_of_app. left. left. right. by left.
  - intros e He Hne. rewrite !elem_of_app. left. left. right. right.
    apply list_elem_of_filter. by split.
  - rewrite !elem_of_app, list_elem_of_filter. intros [[[Hb|[Hp|[Hne _]]]|Hdot]|Hd].
    + left. rewrite !elem_of_cons in *. tauto.
    + right. by left.
    + done.
    + left. destruct (multipleEntries options); [|by apply elem_of_nil in Hdot].
      apply list_elem_of_singleton in Hdot. rewrite Hdot. by_evaluation.
    + right. right. by apply Hsub.
Qed.

Lemma entries_are_external_witness :
  exists cfg,
    createConfig (Example.world (Example.filesystem (inl "ENOENT") [] []))
      Alias.two_entries "/proj/src/index.js" "cjs" true = Ok cfg
    /\ "/proj/src/cli.js" ∈ external (inputOptions cfg).
Proof.
  eexists. split; [vm_compute; reflexivity|].
  destruct (entries_are_external (Example.world (Example.filesystem (inl "ENOENT") [] []))
              Alias.two_entries "/proj/src/index.js" "cjs" true _ eq_refl)
    as (_ & _ & Hothers & _).
  apply Hothers; [by_evaluation|discriminate].
Defined.

(** The pattern of [mangle.regex] is compiled when the plugin list is
    built, and only if it is needed. [createConfig] throws a SyntaxError
    exactly when reading the dependencies does not throw first (the mode
    does not externalize, or the manifest has [dependencies]),
    compression is on, the manifest's [mangle] is truthy and has a
    non-empty [regex], and that is not a pattern. With compression off,
    or without such a [regex], nothing is compiled. *)
Theorem mangle_pattern_must_compile (world : World) (options : Resolved)
    (entry fmt : string) (writeMeta : bool) :
  (exists what, createConfig world options entry fmt writeMeta = Throw (SyntaxError what))
  <-> (externalizes_dependencies (given options) = true ->
       pkg_dependencies (pkg options) <> None)
      /\ o_compress (given options) = true
      /\ pkg_mangle (pkg options) = true
      /\ exists source,
           pkg_mangle_regex (pkg options) = Some source
           /\ source <> ""
           /\ regExpCompiles world source = false.
Proof.
  assert (Hmangle : (exists what, compileMangle world options = Throw (SyntaxError what))
    <-> o_compress (given options) = true /\ pkg_mangle (pkg options) = true
        /\ exists source, pkg_mangle_regex (pkg options) = Some source
             /\ source <> "" /\ regExpCompiles world source = false).
  { unfold compileMangle, truthy_field.
    destruct (o_compress (given options)), (pkg_mangle (pkg options)); cbn [andb];
      try (split; [by intros [? ?]|by intros (? & ? & _)]).
    destruct (pkg_mangle_regex (pkg options)) as [source|]; cbn [andb default from_option id].
    2:{ split; [by intros [? ?]|by intros (_ & _ & ? & ? & _)]. }
    destruct (String.eqb source "") eqn:Hempty; cbn [negb andb].
    { apply String.eqb_eq in Hempty.
      split; [by intros [? ?]|]. by intros (_ & _ & ? & [= <-] & ? & _). }
    apply String.eqb_neq in Hempty.
    destruct (regExpCompiles world source) eqn:Hok; cbn [negb].
    - split; [by intros [? ?]|]. intros (_ & _ & ? & [= <-] & _ & ?). congruence.
    - split; [|by eexists]. intros _. split; [done|]. split; [done|]. by exists source. }
  assert (Hres : (exists r, resolveDependencies options (baseExternal options entry) = Ok r)
    <-> (externalizes_dependencies (given options) = true ->
         pkg_dependencies (pkg options) <> None)).
  { split.
    - intros [r Hr] Hmode Hnone. by rewrite resolveDependencies_throws in Hr.
    - intros Hdeps. destruct (externalizes_dependencies (given options)) eqn:Hmode.
      + destruct (pkg_dependencies (pkg options)) as [deps|] eqn:Hd;
          [|by destruct Hdeps].
        eexists. by eapply resolveDependencies_externalizes.
      + eexists. by apply resolveDependencies_bundles. }
  rewrite <- Hmangle, <- Hres. split.
  - intros [what Hthrow]. apply createConfig_throws in Hthrow as [Hthrow|[Hr Hthrow]].
    + destruct (resolveDependencies_Throw _ _ _ Hthrow) as [Hmode Hnone].
      by rewrite resolveDependencies_throws in Hthrow.
    + split; [done|by exists what].
  - intros (Hr & what & Hthrow). exists what. apply createConfig_throws. by right.
Qed.

(** Dependencies are either resolved and bundled or external, never
    both and never neither. In an externalizing mode (external 'all' or
    inline 'none', and not inline 'all') a returned config has neither
    the CommonJS plugin nor the node-resolve plugin, and its externals
    are the base externals followed by every dependency of the manifest.
    In any other mode it has both plugins (node-resolve in browser mode
    unless the target is 'node') and its externals are the base externals
    alone: no dependency is added. *)
Theorem dependency_mode (world : World) (options : Resolved)
    (entry fmt : string) (writeMeta : bool) (cfg : BuildConfig) :
  createConfig world options entry fmt writeMeta = Ok cfg ->
  if externalizes_dependencies (given options)
  then (commonjs ∉ plugins (inputOptions cfg))
       /\ (forall browser, nodeResolve browser ∉ plugins (inputOptions cfg))
       /\ exists dependencies,
            pkg_dependencies (pkg options) = Some dependencies
            /\ external (inputOptions cfg) = baseExternal options entry ++ dependencies
  else commonjs ∈ plugins (inputOptions cfg)
       /\ nodeResolve (negb (field_is (o_target (given options)) "node"))
          ∈ plugins (inputOptions cfg)
       /\ external (inputOptions cfg) = baseExternal options entry.
Proof.
  intros Hcfg. destruct (createConfig_plugins _ _ _ _ _ _ Hcfg) as (u & Hres & Hp).
  rewrite Hp. clear Hp.
  destruct (externalizes_dependencies (given options)) eqn:Hmode.
  - destruct (pkg_dependencies (pkg options)) as [deps|] eqn:Hd.
    + rewrite (resolveDependencies_externalizes _ _ deps) in Hres by done.
      injection Hres as <- <-.
      split; [|split; [|by exists deps]].
      * destruct (o_compress (given options)), (pkg_mangle (pkg options));
          cbn; rewrite !elem_of_cons, elem_of_nil; intros H; decompose [or] H; done.
      * intros b.
        destruct (o_compress (given options)), (pkg_mangle (pkg options));
          cbn; rewrite !elem_of_cons, elem_of_nil; intros H; decompose [or] H; done.
    + by rewrite resolveDependencies_throws in Hres.
  - rewrite resolveDependencies_bundles in Hres by done. injection Hres as <- <-.
    split; [|split; [|done]].
    + cbn. rewrite !elem_of_cons. tauto.
    + cbn. rewrite !elem_of_cons. tauto.
Qed.

Lemma dependency_mode_witness :
  exists cfg,
    createConfig (Example.world (Example.filesystem (inl "ENOENT") [] []))
      Alias.two_entries "/proj/src/index.js" "cjs" true = Ok cfg
    /\ commonjs ∈ plugins (inputOptions cfg).
Proof.
  eexists. split; [vm_compute; reflexivity|].
  apply (dependency_mode (Example.world (Example.filesystem (inl "ENOENT") [] []))
           Alias.two_entries "/proj/src/index.js" "cjs" true).
  vm_compute. reflexivity.
Defined.

End Externals.

(* ===================================================================== *)
(** * The paths of a run (index.js, lines 56-68 and 158-171) *)
(* ===================================================================== *)

Module Outputs.
Import Regex Path JsArray Microbundle PathFacts Destinations.

Lemma gather_absolute_first pc p rest :
  isAbsolute p = true -> gather pc (p :: rest) [] = (p ++ ["/"%char], true).
Proof. intros Hp. destruct p as [|c p]; [done|]. cbn [gather]. by rewrite Hp. Qed.

(** An absolute last argument is all [resolve] looks at. *)
Lemma resolve_chars_absolute_last pc before p :
  isAbsolute p = true -> resolve_chars pc (before ++ [p]) = resolve_chars pc [p].
Proof.
  intros Hp. unfold resolve_chars. rewrite rev_app_distr. cbn [rev app].
  by rewrite !gather_absolute_first.
Qed.

(** Of a name of the manifest ([module], [jsnext:main], [cjs:main],
    [umd:main]) an output keeps the extension only, that is its base
    name from the first dot on: the directory the manifest names is
    dropped, and so is the stem. [replaceName] resolves the new name
    against that directory, but the new name starts from the main output
    path, which is absolute, so the file is written beside the main
    output whatever the manifest says. *)
Theorem output_names_keep_their_extension_only (world : World) (options : Resolved)
    (entry filename : string) :
  isAbsolute (chars (process_cwd world)) = true ->
  isAbsolute (chars (output options)) = true ->
  replaceName world filename (mainNoExtension world options entry)
  = resolve' world
      [mainNoExtension world options entry +:+ strip re_stem (basename filename)].
Proof.
  intros Hpc Hout.
  pose proof (mainNoExtension_absolute world options entry Hpc Hout) as Habs.
  apply chars_inj. unfold replaceName. rewrite !resolve'_chars. cbn [map].
  apply (resolve_chars_absolute_last _ [_]).
  rewrite chars_append. by destruct (chars (mainNoExtension world options entry)).
Qed.

Lemma output_names_keep_their_extension_only_witness :
  replaceName (Example.world (Example.filesystem (inl "ENOENT") [] []))
    "lib/esm/index.mjs"
    (mainNoExtension (Example.world (Example.filesystem (inl "ENOENT") [] []))
       Destinations.one_entry "/proj/src/index.js")
  = "/proj/dist/lib.mjs".
Proof.
  rewrite (output_names_keep_their_extension_only
             (Example.world (Example.filesystem (inl "ENOENT") [] []))
             Destinations.one_entry "/proj/src/index.js" "lib/esm/index.mjs");
    reflexivity.
Defined.

Lemma segments_app_free s t :
  slash_free t ->
  exists S L, segments s = S ++ [L] /\ slash_free t /\ segments (s ++ t) = S ++ [L ++ t].
Proof.
  intros Ht. unfold segments. induction s as [|c s IH]; cbn [app split_on].
  - exists [], []. split; [done|]. split; [done|]. by apply segments_slash_free.
  - destruct IH as (S & L & Hs & _ & Hst). rewrite Hs, Hst.
    destruct (Ascii.eqb c "/").
    + by exists ([] :: S), L.
    + destruct S as [|seg S]; cbn [app].
      * by exists [], (c :: L).
      * by exists ((c :: seg) :: S), L.
Qed.

Lemma segments_last_slash_free s S L : segments s = S ++ [L] -> slash_free L.
Proof.
  unfold segments. revert S L. induction s as [|c s IH]; intros S L; cbn [split_on].
  - destruct S as [|x S]; [intros [= <-]; constructor|].
    intros [= _ HS]. by destruct S.
  - destruct (Ascii.eqb c "/") eqn:Hc.
    + destruct S as [|x S]; cbn [app].
      * intros [= _ Hs]. pose proof (segments_nonempty s) as Hne.
        unfold segments in Hne. congruence.
      * intros [= _ Hs]. by apply (IH S).
    + pose proof (segments_nonempty s) as Hne. unfold segments in Hne.
      destruct (split_on "/" s) as [|seg segs] eqn:Hsplit; [done|].
      destruct S as [|x S]; cbn [app].
      * intros [= <- Hsegs]. subst segs. constructor; [exact Hc|].
        by apply (IH []).
      * intros [= _ Hsegs]. destruct segs as [|seg' segs]; [by destruct S|].
        apply (IH (seg :: S)). cbn [app]. by rewrite Hsegs.
Qed.

(** Resolving a path whose last segment is plain against an absolute one
    keeps that segment last. *)
Lemma resolve_chars_last_segment pc a r S M :
  isAbsolute a = true -> segments r = S ++ [M] -> plain_segment M ->
  exists R, resolve_chars pc [a; r] = "/"%char :: join (R ++ [M]).
Proof.
  intros Ha Hr HM.
  assert (Hne : r <> []).
  { intros ->. destruct S as [|x S]; [|by destruct S].
    injection Hr as <-. by destruct HM as (_ & ? & _). }
  assert (Hfold : forall X stack,
    rev (fold_left (normalize_step false) (X ++ segments (r ++ ["/"%char])) stack)
    = rev (fold_left (normalize_step false) (X ++ S) stack) ++ [M]).
  { intros X stack. rewrite (segments_app_slash r []), Hr.
    rewrite !app_assoc, !fold_left_app. cbn [fold_left segments split_on].
    by rewrite (normalize_step_plain _ _ M HM), normalize_step_empty. }
  unfold resolve_chars. cbn [rev app].
  destruct r as [|c r'] eqn:Hreq; [done|]. rewrite <- Hreq in *. clear Hne.
  assert (Hg : gather pc [r; a] []
               = if isAbsolute r then (r ++ ["/"%char], true)
                 else (a ++ "/"%char :: r ++ ["/"%char], true)).
  { rewrite Hreq. cbn [gather]. rewrite <- Hreq.
    destruct (isAbsolute r); [done|]. destruct a as [|c' a']; [done|].
    cbn [gather]. by rewrite Ha. }
  rewrite Hg. destruct (isAbsolute r); cbn [negb]; unfold normalizeString.
  - eexists. f_equal. f_equal. apply (Hfold [] []).
  - eexists. f_equal. f_equal. rewrite (segments_app_slash a). apply (Hfold _ []).
Qed.

Lemma search_suffix (r : regex (C := ascii)) (s : list ascii) :
  (forall prev, match_here r prev s <> None) ->
  forall pre prev, search r prev (pre ++ s) = true.
Proof.
  intros Hs pre. induction pre as [|c pre IH]; intros prev.
  - specialize (Hs prev). destruct s; cbn [app search]; by destruct (match_here r prev _).
  - cbn [app search]. destruct (match_here r prev _); [done|apply IH].
Qed.

Lemma js_has_extension pre : test re_extension (pre ++ chars ".js") = true.
Proof. apply search_suffix. by intros prev. Qed.

Lemma resolved_js_has_extension world main name :
  isAbsolute (chars main) = true ->
  matches re_extension (resolve' world [main; name +:+ ".js"]) = true.
Proof.
  intros Hmain. unfold matches. rewrite resolve'_chars. cbn [map].
  rewrite chars_append.
  destruct (segments_app_free (chars name) (chars ".js")) as (S & L & Hs & _ & Hst);
    [repeat constructor|].
  pose proof (segments_last_slash_free _ _ _ Hs) as HL.
  assert (HM : plain_segment (L ++ chars ".js")).
  { apply plain_with_suffix; [done|repeat constructor|simpl; lia]. }
  destruct (resolve_chars_last_segment (chars (process_cwd world)) (chars main)
              (chars name ++ chars ".js") S _ Hmain Hst HM) as [R ->].
  rewrite join_snoc. destruct R as [|seg R].
  - apply (js_has_extension ("/"%char :: L)).
  - assert (Heq : "/"%char :: join (seg :: R) ++ "/"%char :: L ++ chars ".js"
                  = ("/"%char :: join (seg :: R) ++ "/"%char :: L) ++ chars ".js").
    { cbn [app]. by rewrite <- app_assoc. }
    rewrite Heq. apply js_has_extension.
Qed.

(** The main output path always names a file with an extension: it is
    absolute and ends in a dot followed by lowercase letters, whatever
    [output], the manifest's [main] and the filesystem are. When the path
    asked for has no such extension, or is a directory, the file
    [<name>.js] inside it is taken. *)
Theorem main_output_has_extension (world : World) (options : Options)
    (pkg : Manifest) (cwd : string) :
  isAbsolute (chars (process_cwd world)) = true ->
  isAbsolute (chars (mainOutput world options pkg cwd)) = true
  /\ matches re_extension (mainOutput world options pkg cwd) = true.
Proof.
  intros Hpc. split; [by apply mainOutput_absolute|].
  unfold mainOutput.
  assert (Hmain : forall args, isAbsolute (chars (resolve' world args)) = true).
  { intros args. rewrite resolve'_chars. by apply resolve_chars_absolute. }
  set (main := resolve' world [cwd; _]).
  destruct (negb (matches re_extension main) || isDir (fs world) main) eqn:Hcase.
  - apply resolved_js_has_extension, Hmain.
  - apply orb_false_iff in Hcase as [Hm _]. by apply negb_false_iff in Hm.
Qed.

Lemma main_output_has_extension_witness :
  matches re_extension
    (mainOutput (Example.world (Example.filesystem (inl "ENOENT") [] []))
       (Example.options [] "cjs") (Example.manifest "lib") "/proj") = true.
Proof.
  apply (main_output_has_extension (Example.world (Example.filesystem (inl "ENOENT") [] []))
           (Example.options [] "cjs") (Example.manifest "lib") "/proj").
  reflexivity.
Defined.

(** Every entry of a run is an absolute path, and there are at most as
    many entries as input files. *)
Theorem entries_are_absolute (world : World) (cwd : string) (input : list string) :
  isAbsolute (chars (process_cwd world)) = true ->
  Forall (fun entry => isAbsolute (chars entry) = true) (resolveEntries world cwd input)
  /\ (length (resolveEntries world cwd input) <= length input)%nat.
Proof.
  intros Hpc. unfold resolveEntries.
  pose proof (Entries.filter_first_index_first_seen (map (entryFile world cwd) input))
    as Hseen.
  split.
  - apply Forall_forall. intros entry Hentry.
    apply (FirstSeen.first_seen_elem _ _ Hseen) in Hentry.
    apply list_elem_of_fmap in Hentry as (file & -> & _).
    unfold entryFile. destruct (isDir _ _); rewrite resolve'_chars;
      by apply resolve_chars_absolute.
  - unfold filter_first_index. rewrite length_fmap.
    etrans; [apply length_filter|]. by rewrite length_imap, length_map.
Qed.

Lemma entries_are_absolute_witness :
  Forall (fun entry => isAbsolute (chars entry) = true)
    (resolveEntries (Example.world (Example.filesystem (inl "ENOENT") [] []))
       "/proj" ["src/a.js"; "src/b.js"; "src/a.js"]).
Proof.
  apply (entries_are_absolute (Example.world (Example.filesystem (inl "ENOENT") [] []))
           "/proj" ["src/a.js"; "src/b.js"; "src/a.js"]).
  reflexivity.
Defined.

End Outputs.

(* ===================================================================== *)
(** * The [options] hook (babel-custom.js, lines 44-52) *)
(* ===================================================================== *)

Module Hook.
Import Js PluginOptions.

Lemma assoc_rest_custom (given : list (string * value)) :
  assoc "custom" (filter (fun property => property.1 <> "custom") given) = None.
Proof.
  induction given as [|[k v] given IH]; [done|].
  destruct (decide (k = "custom")) as [->|Hk].
  - by rewrite filter_cons_False by (simpl; auto).
  - rewrite filter_cons_True by done. cbn [assoc].
    by rewrite (proj2 (String.eqb_neq k "custom") Hk).
Qed.

Lemma assoc_rest_other (given : list (string * value)) key :
  key <> "custom" ->
  assoc key (filter (fun property => property.1 <> "custom") given) = assoc key given.
Proof.
  intros Hkey. induction given as [|[k v] given IH]; [done|].
  destruct (decide (k = "custom")) as [->|Hk].
  - rewrite filter_cons_False by (simpl; auto). cbn [assoc].
    assert (Hne : String.eqb "custom" key = false) by (apply String.eqb_neq; congruence).
    by rewrite Hne.
  - rewrite filter_cons_True by done. cbn [assoc]. by rewrite IH.
Qed.

(** The custom options never reach Babel, and nothing else is lost:
    what the hook passes on has no [custom] property, every other
    property has the value it was given, and the properties keep their
    order. *)
Theorem custom_never_passed_on (given : list (string * value)) :
  has (VObj (pluginOptions (options given))) "custom" = false
  /\ (forall key, key <> "custom" ->
        get (VObj (pluginOptions (options given))) key = get (VObj given) key)
  /\ sublist (pluginOptions (options given)) given.
Proof.
  cbn [options pluginOptions has get]. split; [|split].
  - rewrite assoc_rest_custom. apply bool_decide_eq_false_2. by intros [? ?].
  - intros key Hkey. by rewrite assoc_rest_other.
  - apply sublist_filter.
Qed.

End Hook.

(* ===================================================================== *)
(** * Merging any number of lists (babel-custom.js, lines 6-33) *)
(* ===================================================================== *)

Module MergeLists.
Import Js Lodash LodashFacts BabelCustom FirstSeen MergeItems.

(** Items on new paths are appended as they are. *)
Lemma fold_mergeItem_new t (l acc : list ConfigItem) :
  NoDup (paths (acc ++ l)) -> fold_left (mergeItem t) l acc = acc ++ l.
Proof.
  revert acc. induction l as [|x l IH]; intros acc Hnd; simpl.
  - by rewrite app_nil_r.
  - rewrite mergeItem_new.
    + rewrite IH; rewrite <- (assoc_L (++)); done.
    + rewrite fmap_app in Hnd. apply NoDup_app in Hnd as (_ & Hdisj & _).
      intros Hin. apply (Hdisj _ Hin). left.
Qed.

(** The paths already merged stay where they are. *)
Lemma fold_mergeItem_prefix t (l acc : list ConfigItem) :
  paths acc `prefix_of` paths (fold_left (mergeItem t) l acc).
Proof.
  revert acc. induction l as [|x l IH]; intros acc; simpl; [done|].
  etrans; [|apply IH].
  destruct (decide (file_resolved x ∈ paths acc)) as [Hin|Hnin].
  - destruct (mergeItem_old t acc x Hin) as (i & y & Hi & Hy & ->).
    by rewrite (paths_insert_same acc i y).
  - rewrite mergeItem_new by done. rewrite fmap_app. by apply prefix_app_r.
Qed.

(** [mergeConfigItems] for any number of lists, with paths repeated
    anywhere (across lists or within one). The result has exactly one
    item per resolved path, in first-seen order over the lists one after
    another. Each item of the result is the left fold, over all the items
    on its path in that order, of the merge of two (the item created at
    that path with the lodash merge of the options; the item itself when
    it is alone). When no path is repeated the result is the lists
    appended, unchanged. Merging the result once more changes nothing. *)
Theorem merge_any_number_of_lists (t : itemType) (lists : list (list ConfigItem)) :
  let merged := mergeConfigItems t lists in
  first_occurrence_order (paths (concat lists)) (paths merged)
  /\ (forall m, m ∈ merged ->
        combine t (same_path (file_resolved m) (concat lists)) = Some m)
  /\ (NoDup (paths (concat lists)) -> merged = concat lists)
  /\ mergeConfigItems t [merged] = merged.
Proof.
  intros merged. subst merged. rewrite !mergeConfigItems_concat.
  pose proof (merged_upto_fold t (concat lists)) as [Hseen Hitems].
  split; [by apply first_seen_spec|]. split; [done|]. split.
  - intros Hnd. by rewrite fold_mergeItem_new.
  - cbn [concat]. rewrite app_nil_r. rewrite fold_mergeItem_new; [done|].
    cbn [app]. by eapply first_seen_NoDup.
Qed.

Section Config.
Variable require_resolve : string -> string.

(** The plugins of the filesystem configuration that [config] merges
    into its own: none without such a configuration. *)
Definition projectPlugins (cfg : PartialConfig) : list ConfigItem :=
  if hasFilesystemConfig cfg then default [] (plugins (config_options cfg)) else [].

Lemma config_plugins_merged cfg customOptions out :
  config require_resolve cfg customOptions = Ok out ->
  plugins out
  = Some (mergeConfigItems plugin
            [defaultPlugins require_resolve customOptions; projectPlugins cfg]).
Proof.
  unfold config, projectPlugins. destruct (hasFilesystemConfig cfg).
  - destruct (presets (config_options cfg)) as [ps|].
    + destruct (mapR _ ps) as [ps'|e]; [|done]. by intros [= <-].
    + by intros [= <-].
  - by intros [= <-].
Qed.

(** The default plugins are always there. Whenever [config] returns,
    the plugin list is set; its resolved paths are exactly those of the
    default plugins and of the plugins of the filesystem configuration
    (none without such a configuration), each once. When the default
    plugins resolve to different paths, they come first, in their order;
    and without a filesystem configuration the list is the default
    plugins as created: plugins in [config.options] are not looked at. *)
Theorem config_keeps_default_plugins (cfg : PartialConfig)
    (customOptions : CustomOptions) (out : BabelOptions) :
  config require_resolve cfg customOptions = Ok out ->
  let defaults := defaultPlugins require_resolve customOptions in
  exists merged,
    plugins out = Some merged
    /\ (forall path, path ∈ paths merged
          <-> path ∈ paths defaults \/ path ∈ paths (projectPlugins cfg))
    /\ NoDup (paths merged)
    /\ (NoDup (paths defaults) ->
          paths defaults `prefix_of` paths merged
          /\ (hasFilesystemConfig cfg = false -> merged = defaults)).
Proof.
  intros Hout defaults. eexists. split; [by apply config_plugins_merged|].
  rewrite mergeConfigItems_concat. cbn [concat]. rewrite app_nil_r.
  fold defaults.
  pose proof (merged_upto_fold plugin (defaults ++ projectPlugins cfg)) as [Hseen _].
  split; [|split; [by eapply first_seen_NoDup|]].
  - intros path. rewrite (first_seen_elem _ _ Hseen), fmap_app. apply elem_of_app.
  - intros Hnd. rewrite fold_left_app.
    rewrite (fold_mergeItem_new plugin defaults []) by done. cbn [app].
    split; [apply fold_mergeItem_prefix|].
    intros Hfs. unfold projectPlugins. by rewrite Hfs.
Qed.

End Config.

Lemma config_keeps_default_plugins_witness :
  exists out merged,
    config PresetEnv.example_resolve (PresetEnv.example_config []) PresetEnv.example_customOptions
    = Ok out
    /\ plugins out = Some merged
    /\ NoDup (paths merged).
Proof.
  eexists.
  destruct (config_keeps_default_plugins PresetEnv.example_resolve
              (PresetEnv.example_config []) PresetEnv.example_customOptions
              _ eq_refl)
    as (merged & Hmerged & _ & Hnd & _).
  exists merged. split; [reflexivity|]. split; [exact Hmerged|exact Hnd].
Defined.

End MergeLists.

(* ===================================================================== *)
(** * What a match reads *)
(* ===================================================================== *)

Module RegexFacts.
Import Regex.

Section Facts.
Context {C : Type} `{Alphabet C}.

(** Every character class of [r] lies within [p]. *)
Fixpoint reads_only (p : C -> Prop) (r : regex (C := C)) : Prop :=
  match r with
  | Chr q | Star q => forall c, q c = true -> p c
  | Seq a b | Alt a b => reads_only p a /\ reads_only p b
  | _ => True
  end.

(** [r] has no anchor that looks at the character before the match. *)
Fixpoint looks_ahead_only (r : regex (C := C)) : Prop :=
  match r with
  | Bos | Bol | WordB => False
  | Seq a b | Alt a b => looks_ahead_only a /\ looks_ahead_only b
  | _ => True
  end.

(** A match consumes a prefix made of characters of its classes. *)
Lemma run_reads {R} (p : C -> Prop) (r : regex (C := C)) :
  reads_only p r ->
  forall prev s (k : option C -> list C -> option R) x,
    run r prev s k = Some x ->
    exists consumed rest prev',
      s = consumed ++ rest /\ Forall p consumed /\ k prev' rest = Some x.
Proof.
  induction r as [|q|a IHa b IHb|a IHa b IHb|q| | | |]; intros Hr prev s k x; cbn [run].
  - intros Hk. by exists [], s, prev.
  - destruct s as [|c s]; [done|]. destruct (q c) eqn:Hq; [|done].
    intros Hk. exists [c], s, (Some c). repeat split; [|done].
    constructor; [by apply Hr|constructor].
  - destruct Hr as [Ha Hb]. intros Hrun.
    destruct (IHa Ha _ _ _ _ Hrun) as (c1 & r1 & p1 & -> & Hc1 & Hrun').
    destruct (IHb Hb _ _ _ _ Hrun') as (c2 & r2 & p2 & -> & Hc2 & Hk).
    exists (c1 ++ c2), r2, p2. rewrite <- app_assoc. repeat split; [|done].
    by apply Forall_app.
  - destruct Hr as [Ha Hb]. destruct (run a prev s k) as [y|] eqn:Hrun.
    + intros [= <-]. by apply (IHa Ha _ _ _ _ Hrun).
    + by apply IHb.
  - revert prev. induction s as [|c s IHs]; intros prev.
    + intros Hk. by exists [], [], prev.
    + destruct (q c) eqn:Hq; [|intros Hk; by exists [], (c :: s), prev].
      match goal with |- context [match ?m with Some _ => _ | None => _ end] =>
        destruct m as [y|] eqn:Hstar end.
      * intros [= <-]. destruct (IHs _ Hstar) as (c1 & r1 & p1 & -> & Hc1 & Hk).
        exists (c :: c1), r1, p1. repeat split; [|done].
        constructor; [by apply Hr|done].
      * intros Hk. by exists [], (c :: s), prev.
  - destruct prev; [done|]. intros Hk. by exists [], s, None.
  - destruct s as [|c s]; [|done]. intros Hk. by exists [], [], prev.
  - destruct prev as [c|].
    + destruct (is_line_terminator c); [|done]. intros Hk. by exists [], s, (Some c).
    + intros Hk. by exists [], s, None.
  - destruct (xorb _ _); [|done]. intros Hk. by exists [], s, prev.
Qed.

(** What is left after a match is a suffix of what was there. *)
Lemma match_here_suffix (r : regex (C := C)) prev s rest :
  match_here r prev s = Some rest -> exists consumed, s = consumed ++ rest.
Proof.
  unfold match_here. intros Hrun.
  assert (Hany : reads_only (fun _ => True) r).
  { clear. induction r; cbn [reads_only]; auto. }
  destruct (run_reads _ r Hany _ _ _ _ Hrun) as (consumed & rest' & _ & -> & _ & [= ->]).
  by exists consumed.
Qed.

Lemma replace_from_Forall (P : C -> Prop) (r : regex (C := C)) prev s :
  Forall P s -> Forall P (replace_from r [] prev s).
Proof.
  intros Hs. revert prev. induction Hs as [|c s Hc Hs IH]; intros prev; cbn [replace_from].
  - destruct (match_here r prev []) as [rest|] eqn:Hm; [|constructor].
    apply match_here_suffix in Hm as [consumed Heq].
    symmetry in Heq. apply app_eq_nil in Heq as [_ ->]. constructor.
  - destruct (match_here r prev (c :: s)) as [rest|] eqn:Hm.
    + apply match_here_suffix in Hm as [consumed Heq]. cbn [app].
      assert (Hall : Forall P (consumed ++ rest)) by (rewrite <- Heq; by constructor).
      by apply Forall_app in Hall as [_ ?].
    + constructor; [done|apply IH].
Qed.

(** Without such anchors the character before the match plays no role. *)
Lemma run_looks_ahead {R} (r : regex (C := C)) :
  looks_ahead_only r ->
  forall prev prev' s (k k' : option C -> list C -> option R),
    (forall p p' s', k p s' = k' p' s') -> run r prev s k = run r prev' s k'.
Proof.
  induction r as [|q|a IHa b IHb|a IHa b IHb|q| | | |];
    intros Hr prev prev' s k k' Hk; cbn [run].
  - apply Hk.
  - destruct s as [|c s]; [done|]. destruct (q c); [apply Hk|done].
  - destruct Hr as [Ha Hb]. apply IHa; [done|]. intros p p' s'. by apply IHb.
  - destruct Hr as [Ha Hb]. rewrite (IHa Ha prev prev' s k k' Hk).
    destruct (run a prev' s k'); [done|]. by apply IHb.
  - revert prev prev'. induction s as [|c s IHs]; intros prev prev'; [apply Hk|].
    destruct (q c); [|apply Hk].
    rewrite (IHs (Some c) (Some c)). by rewrite (Hk prev prev' (c :: s)).
  - destruct Hr.
  - destruct s; [apply Hk|done].
  - destruct Hr.
  - destruct Hr.
Qed.

Lemma replace_from_looks_ahead (r : regex (C := C)) repl prev prev' s :
  looks_ahead_only r -> replace_from r repl prev s = replace_from r repl prev' s.
Proof.
  intros Hr. revert prev prev'. induction s as [|c s IH]; intros prev prev';
    cbn [replace_from]; unfold match_here;
    rewrite (run_looks_ahead r Hr prev prev' _ _ (fun _ rest => Some rest)) by done.
  - done.
  - destruct (run r prev' (c :: s) _); [done|]. done.
Qed.

End Facts.
End RegexFacts.

(* ===================================================================== *)
(** * Which entries share a destination (index.js, lines 162-171, 296) *)
(* ===================================================================== *)

Module Stems.
Import Regex Path JsArray Microbundle PathFacts Destinations RegexFacts.

(** The base name of an entry without its [.js] suffix. *)
Definition stem (entry : string) : string := strip re_js_suffix (basename entry).

Lemma module_suffix_reads : reads_only (fun c => is_slash c = false) module_suffix.
Proof.
  unfold module_suffix, Opt, lit, chars.
  cbn [list_ascii_of_string map seqs alts reads_only]. repeat split; intros c Hc; apply Ascii.eqb_eq in Hc; by subst c.
Qed.

Lemma js_reads : reads_only (fun c => is_slash c = false) (lit ".js").
Proof.
  unfold lit, chars. cbn [list_ascii_of_string map seqs reads_only]. repeat split; intros c Hc; apply Ascii.eqb_eq in Hc; by subst c.
Qed.

Lemma re_js_suffix_looks_ahead : looks_ahead_only re_js_suffix.
Proof.
  unfold re_js_suffix, module_suffix, Opt, lit, chars.
  cbn [list_ascii_of_string map seqs alts looks_ahead_only]. repeat split.
Qed.

(** The suffix pattern matches up to the end, within one segment. *)
Lemma suffix_match_slash_free prev s rest :
  match_here re_js_suffix prev s = Some rest -> slash_free s.
Proof.
  unfold match_here.
  change (run re_js_suffix prev s (fun _ rest => Some rest))
    with (run module_suffix prev s
            (fun p1 s1 => run (lit ".js") p1 s1
               (fun p2 s2 => run Eos p2 s2 (fun _ rest => Some rest)))).
  intros Hrun.
  destruct (run_reads _ _ module_suffix_reads _ _ _ _ Hrun)
    as (c1 & r1 & p1 & -> & Hc1 & Hrun1).
  destruct (run_reads _ _ js_reads _ _ _ _ Hrun1)
    as (c2 & r2 & p2 & -> & Hc2 & Hrun2).
  cbn [run] in Hrun2. destruct r2; [|done].
  apply Forall_app. split; [done|]. apply Forall_app. split; [done|constructor].
Qed.

Lemma strip_after_slash P B prev :
  replace_from re_js_suffix [] prev (P ++ "/"%char :: B)
  = P ++ "/"%char :: replace re_js_suffix [] B.
Proof.
  assert (Hnone : forall P' prev', match_here re_js_suffix prev' (P' ++ "/"%char :: B) = None).
  { intros P' prev'. destruct (match_here _ _ _) as [rest|] eqn:Hm; [|done].
    apply suffix_match_slash_free in Hm. apply Forall_app in Hm as [_ Hm].
    by inversion Hm. }
  revert prev. induction P as [|c P IH]; intros prev.
  - pose proof (Hnone [] prev) as Hhere. cbn [app] in Hhere.
    cbn [app replace_from]. rewrite Hhere. f_equal.
    apply replace_from_looks_ahead, re_js_suffix_looks_ahead.
  - pose proof (Hnone (c :: P) prev) as Hhere. cbn [app] in Hhere.
    cbn [app replace_from]. rewrite Hhere. f_equal. apply IH.
Qed.

Lemma dirname_absolute s : isAbsolute s = true -> isAbsolute (dirname_chars s) = true.
Proof.
  destruct s as [|first tail]; [done|]. cbn [isAbsolute dirname_chars]. intros Hroot.
  rewrite Hroot. destruct (drop_while _ _) as [|c before]; [done|].
  by destruct before.
Qed.

Lemma basename_slash_free s : slash_free (basename_chars s).
Proof.
  unfold basename_chars. apply Forall_rev.
  generalize (drop_while is_slash (rev s)). intros l.
  induction l as [|c l IH]; cbn [take_while]; [constructor|].
  destruct (is_slash c) eqn:Hc; cbn [negb]; [constructor|by constructor].
Qed.

(** The segments [resolve] keeps of an absolute directory. *)
Definition kept_segments (a : list ascii) : list (list ascii) :=
  rev (fold_left (normalize_step false) (segments a) []).

Definition rooted (R : list (list ascii)) : list ascii :=
  match R with [] => [] | _ => "/"%char :: join R end.

Lemma resolve_chars_plain pc a B :
  isAbsolute a = true -> plain_segment B ->
  resolve_chars pc [a; B] = rooted (kept_segments a) ++ "/"%char :: B.
Proof.
  intros Ha HB. pose proof HB as (Hfree & Hne & _).
  destruct B as [|c B'] eqn:HeqB; [done|]. rewrite <- HeqB in *.
  assert (Hrel : isAbsolute B = false).
  { rewrite HeqB in *. by inversion Hfree. }
  unfold resolve_chars. cbn [rev app].
  assert (Hg : gather pc [B; a] [] = (a ++ "/"%char :: B ++ ["/"%char], true)).
  { rewrite HeqB. cbn [gather]. rewrite <- HeqB, Hrel.
    destruct a as [|c' a']; [done|]. cbn [gather]. by rewrite Ha. }
  rewrite Hg. cbn [negb]. unfold normalizeString.
  rewrite (segments_app_slash a), (segments_app_slash B []).
  rewrite (segments_slash_free B) by done.
  rewrite !fold_left_app. cbn [fold_left segments split_on].
  rewrite (normalize_step_plain _ _ B HB), normalize_step_empty.
  cbn [rev]. fold (kept_segments a). rewrite join_snoc.
  unfold rooted. by destruct (kept_segments a).
Qed.

Section Stems.
Variable world : World.
Variable options : Resolved.
Hypothesis absolute_output : isAbsolute (chars (output options)) = true.
Hypothesis several : multipleEntries options = true.

Definition output_directory : list ascii :=
  rooted (kept_segments (chars (dirname (output options)))).

Lemma mainNoExtension_stem entry :
  matches re_index entry = false ->
  basename entry ∉ [""; "."; ".."] ->
  chars (mainNoExtension world options entry)
  = output_directory ++ "/"%char :: chars (stem entry)
    /\ slash_free (chars (stem entry)).
Proof.
  intros Hindex Hbase.
  assert (HB : plain_segment (chars (basename entry))).
  { unfold basename. rewrite chars_of_list.
    split; [apply basename_slash_free|].
    repeat split; intros Heq; apply Hbase; unfold basename; rewrite Heq;
      by_evaluation. }
  split.
  - unfold mainNoExtension. rewrite several, Hindex.
    unfold strip at 1. rewrite chars_of_list, resolve'_chars. cbn [map].
    assert (Hdir : isAbsolute (chars (dirname (output options))) = true).
    { unfold dirname. rewrite chars_of_list. by apply dirname_absolute. }
    rewrite resolve_chars_plain by done.
    unfold Regex.replace. rewrite strip_after_slash.
    unfold stem, strip. by rewrite chars_of_list.
  - unfold stem, strip. rewrite chars_of_list. apply replace_from_Forall, HB.
Qed.

Hypothesis default_outputs : default_names (pkg options).

Lemma destination_stem entry fmt :
  matches re_index entry = false ->
  basename entry ∉ [""; "."; ".."] ->
  chars (basename (destination world options entry fmt))
  = chars (stem entry) ++ chars (target_suffix (format_target fmt)).
Proof.
  intros Hindex Hbase.
  destruct (mainNoExtension_stem entry Hindex Hbase) as [Hmain Hfree].
  rewrite (destination_default world options entry fmt default_outputs).
  unfold basename. rewrite chars_of_list.
  rewrite resolve'_chars. cbn [map]. rewrite resolve'_chars. cbn [map].
  rewrite chars_append, Hmain, <- app_assoc. cbn [app].
  destruct (target_suffix_plain (format_target fmt)) as [Hs Hlen].
  apply basename_resolved_twice; [|by apply plain_with_suffix].
  unfold output_directory, rooted. destruct (kept_segments _); [by left|by right].
Qed.

(** When two entries share a destination. In a run with several
    entries, an absolute main output path and no output names in the
    manifest, take two entries that are not index files and have a proper
    base name. For the same format they are written to the same file if
    and only if their base names are equal once the [.js] suffix (with
    [.umd], [.cjs], [.es] or [.m] before it, if there) is taken off:
    the directories of the entries play no role. *)
Theorem entries_collide_on_equal_stems (entry1 entry2 fmt : string) :
  matches re_index entry1 = false ->
  matches re_index entry2 = false ->
  basename entry1 ∉ [""; "."; ".."] ->
  basename entry2 ∉ [""; "."; ".."] ->
  destination world options entry1 fmt = destination world options entry2 fmt
  <-> stem entry1 = stem entry2.
Proof.
  intros Hindex1 Hindex2 Hbase1 Hbase2. split.
  - intros Hsame. apply chars_inj.
    apply (app_inv_tail (chars (target_suffix (format_target fmt)))).
    rewrite <- !destination_stem by done. by rewrite Hsame.
  - intros Hstem.
    assert (Hmain : mainNoExtension world options entry1
                    = mainNoExtension world options entry2).
    { apply chars_inj.
      rewrite (proj1 (mainNoExtension_stem entry1 Hindex1 Hbase1)).
      rewrite (proj1 (mainNoExtension_stem entry2 Hindex2 Hbase2)).
      by rewrite Hstem. }
    unfold destination, moduleMain, cjsMain, umdMain. by rewrite Hmain.
Qed.

End Stems.

(** [src/a.js], [src/b.js] and [lib/a.m.js]: the first two are kept
    apart, the first and the third are not. *)
Definition three_entries : Resolved :=
  Example.resolved (Example.options [] "cjs") (Example.manifest "lib")
    ["/proj/src/a.js"; "/proj/src/b.js"; "/proj/lib/a.m.js"].

Lemma entries_collide_on_equal_stems_witness :
  destination (Example.world (Example.filesystem (inl "ENOENT") [] []))
    three_entries "/proj/src/a.js" "cjs"
  <> destination (Example.world (Example.filesystem (inl "ENOENT") [] []))
       three_entries "/proj/src/b.js" "cjs"
  /\ destination (Example.world (Example.filesystem (inl "ENOENT") [] []))
       three_entries "/proj/src/a.js" "cjs"
     = destination (Example.world (Example.filesystem (inl "ENOENT") [] []))
         three_entries "/proj/lib/a.m.js" "cjs".
Proof.
  split.
  - intros Hsame.
    apply (entries_collide_on_equal_stems
             (Example.world (Example.filesystem (inl "ENOENT") [] []))
             three_entries eq_refl eq_refl
             (conj eq_refl (conj eq_refl (conj eq_refl eq_refl)))
             "/proj/src/a.js" "/proj/src/b.js" "cjs") in Hsame;
      [discriminate| reflexivity | reflexivity | by_evaluation | by_evaluation].
  - apply (entries_collide_on_equal_stems
             (Example.world (Example.filesystem (inl "ENOENT") [] []))
             three_entries eq_refl eq_refl
             (conj eq_refl (conj eq_refl (conj eq_refl eq_refl)))
             "/proj/src/a.js" "/proj/lib/a.m.js" "cjs");
      [reflexivity | reflexivity | by_evaluation | by_evaluation | reflexivity].
Defined.

End Stems.
